(** * Smart Page Digest: the side panel's generation and translation core

    A shallow embedding of [src/sidepanel/sidepanel.js]: language
    resolution, the English heuristic, the streaming prompt call, the
    summarizer retry ladder, the translation helpers, the key-point
    parsers, the per-slot generation handlers, the tab cache and the
    rendering of quiz, dialogue and markdown; and of the text
    extraction of [src/content.js].

    JavaScript strings are sequences of UTF-16 code units and are modelled
    as [list N].  Asynchronous functions are modelled in a state and
    exception monad; the on-device providers are oracles indexed by the
    number of the call. *)

From Stdlib Require Import ZArith NArith QArith Lia String Ascii List Bool.
From Stdlib Require Import Floats Uint63.
From stdpp Require Import base list gmap functions.

Local Open Scope N_scope.

(* ===================================================================== *)
(** ** JavaScript strings *)
(* ===================================================================== *)

Module JS.

(** A string is the list of its UTF-16 code units. *)
Abbreviation jsstring := (list N).

(** The UTF-16 code units of a code point. *)
Definition unitsOf (v : N) : jsstring :=
  if v <? 65536 then [v]
  else [55296 + (v - 65536) / 1024; 56320 + (v - 65536) mod 1024].

(** UTF-8 bytes to UTF-16 code units; [need] continuation bytes are
    still expected for the code point accumulated in [accu]. *)
Fixpoint utf16 (bytes : list N) (need : nat) (accu : N) : jsstring :=
  match bytes with
  | [] => []
  | b :: rest =>
      match need with
      | O => if b <? 128 then b :: utf16 rest 0 0
             else if b <? 224 then utf16 rest 1 (b - 192)
             else if b <? 240 then utf16 rest 2 (b - 224)
             else utf16 rest 3 (b - 240)
      | S k => let v := accu * 64 + (b - 128) in
               match k with
               | O => unitsOf v ++ utf16 rest 0 0
               | _ => utf16 rest k v
               end
      end
  end.

(** A string literal of the source. *)
Definition js (s : string) : jsstring :=
  utf16 ((fun a => N_of_ascii a) <$> list_ascii_of_string s) 0 0.
Arguments js _%_string : simpl never.

(** [!!s] for a string: the empty string is the only falsy one. *)
Definition truthy (s : jsstring) : bool :=
  match s with [] => false | _ :: _ => true end.

(** [s.startsWith(p)] *)
Fixpoint startsWith (s p : jsstring) : bool :=
  match p, s with
  | [], _ => true
  | _ :: _, [] => false
  | x :: p', y :: s' => (x =? y) && startsWith s' p'
  end.

(** [s.includes(p)] *)
Fixpoint includes (s p : jsstring) : bool :=
  startsWith s p ||
  match s with
  | [] => false
  | _ :: s' => includes s' p
  end.

(** [s.substring(0, n)] for a natural [n]. *)
Definition substring0 (s : jsstring) (n : nat) : jsstring := take n s.

Definition isUpperAscii (c : N) : bool := (65 <=? c) && (c <=? 90).
Definition isLowerAscii (c : N) : bool := (97 <=? c) && (c <=? 122).

(** [String.prototype.toLowerCase], one code unit at a time.  ASCII
    capitals are shifted; U+212A (Kelvin sign) and U+0130 (capital I with
    dot) are the two code units outside ASCII whose lower case contains
    an ASCII letter.  The other code units are left as they are: their
    lower-case forms are never ASCII, and the source only compares
    lowered strings with ASCII literals. *)
Definition lowerUnit (c : N) : jsstring :=
  if isUpperAscii c then [c + 32]
  else if c =? 8490 then [107]
  else if c =? 304 then [105; 775]
  else [c].

Definition toLowerCase (s : jsstring) : jsstring := s ≫= lowerUnit.

(** [toUpperCase] on a string of ASCII letters (the only use in the
    source is on a matched [HIGH|MEDIUM|LOW] group). *)
Definition upperUnit (c : N) : N := if isLowerAscii c then c - 32 else c.
Definition toUpperCaseAscii (s : jsstring) : jsstring := upperUnit <$> s.
Definition toLowerCaseAscii (s : jsstring) : jsstring :=
  (fun c => if isUpperAscii c then c + 32 else c) <$> s.

(** ECMAScript [WhiteSpace] and [LineTerminator]: what [trim] strips and
    what the regular expression class [\s] matches. *)
Definition isSpace (c : N) : bool :=
  (c =? 9) || (c =? 10) || (c =? 11) || (c =? 12) || (c =? 13) ||
  (c =? 32) || (c =? 160) || (c =? 5760) ||
  ((8192 <=? c) && (c <=? 8202)) ||
  (c =? 8232) || (c =? 8233) || (c =? 8239) || (c =? 8287) ||
  (c =? 12288) || (c =? 65279).

(** What the regular expression [.] does not match. *)
Definition isLineTerminator (c : N) : bool :=
  (c =? 10) || (c =? 13) || (c =? 8232) || (c =? 8233).

Fixpoint trimStart (s : jsstring) : jsstring :=
  match s with
  | c :: s' => if isSpace c then trimStart s' else s
  | [] => []
  end.

Definition trimEnd (s : jsstring) : jsstring := reverse (trimStart (reverse s)).

(** [s.trim()] *)
Definition trim (s : jsstring) : jsstring := trimEnd (trimStart s).

(** [s.split(sep)] for a one-unit separator: never the empty list. *)
Fixpoint split (sep : N) (s : jsstring) : list jsstring :=
  match s with
  | [] => [[]]
  | c :: s' =>
      if c =? sep then [] :: split sep s'
      else match split sep s' with
           | h :: t => (c :: h) :: t
           | [] => [[c]]
           end
  end.

(** [parts.join(sep)] *)
Fixpoint join (sep : jsstring) (parts : list jsstring) : jsstring :=
  match parts with
  | [] => []
  | [p] => p
  | p :: rest => p ++ sep ++ join sep rest
  end.

Definition LF : N := 10.
Definition HYPHEN : N := 45.

End JS.
Export JS.

(* ===================================================================== *)
(** ** Language resolution: [getOutputLanguage] *)
(* ===================================================================== *)

Module Lang.

(** [getOutputLanguage(pageLang)]; [selected] is [el.langSelect.value],
    [pageLang] is [None] for [null]. *)
Definition getOutputLanguage (selected : jsstring) (pageLang : option jsstring)
  : jsstring :=
  if bool_decide (selected ≠ js "auto") then selected
  else
    match pageLang with
    | Some p =>
        if truthy p then
          let base := toLowerCase (hd [] (split HYPHEN p)) in
          if bool_decide (base = js "ja") || bool_decide (base = js "en")
             || bool_decide (base = js "es")
          then base
          else js "en"
        else js "en"
    | None => js "en"
    end.

(** The three languages the language selector offers besides auto. *)
Definition supported : list jsstring := [js "ja"; js "en"; js "es"].

(** Two code units that differ at most by ASCII letter case. *)
Definition sameLetter (x y : N) : Prop :=
  x = y ∨ (isUpperAscii x = true ∧ y = x + 32) ∨ (isUpperAscii y = true ∧ x = y + 32).

(** Equality of strings up to ASCII letter case. *)
Definition sameIgnoringCase (a b : jsstring) : Prop := Forall2 sameLetter a b.

(** [b] is the base subtag of [p]: what stands before the first hyphen. *)
Definition baseSubtagOf (p b : jsstring) : Prop :=
  (HYPHEN ∉ b) ∧ (p = b ∨ ∃ region, p = b ++ HYPHEN :: region).

End Lang.
Export Lang.

(* ===================================================================== *)
(** ** The English heuristic: [looksLikeEnglish] *)
(* ===================================================================== *)

Module English.

(** A JavaScript number holding a natural number. *)
Definition number (n : nat) : float := PrimFloat.of_uint63 (Uint63.of_Z (Z.of_nat n)).

(** The [for] loop counting the code units above 127. *)
Definition countNonAscii (sample : jsstring) : nat :=
  fold_left (fun nonAscii c => if 127 <? c then S nonAscii else nonAscii) sample 0%nat.

(** [looksLikeEnglish(text)].  The last line is the source's
    floating-point comparison [(nonAscii / sample.length) < 0.15] on
    binary64 numbers. *)
Definition looksLikeEnglish (text : jsstring) : bool :=
  if negb (truthy text) then true
  else
    let sample := substring0 text 500 in
    let nonAscii := countNonAscii sample in
    PrimFloat.ltb (PrimFloat.div (number nonAscii) (number (length sample)))
                  0x1.3333333333333p-3%float.

(** The share of the sampled code units that lie outside ASCII, as an
    exact fraction. *)
Definition nonAsciiShare (text : jsstring) : Q :=
  let sample := take 500 text in
  Z.of_nat (length (filter (fun c => 127 < c) sample)) # Pos.of_nat (length sample).

End English.
Export English.

(* ===================================================================== *)
(** ** Cumulative and delta chunk streams *)
(* ===================================================================== *)

Module Stream.

(** The two variables of the [for await] loop of [runPromptApi]. *)
Record acc := Acc {
  isCumulative : option bool;   (* [None] is the initial [null] *)
  fullText : jsstring
}.

Definition initial : acc := Acc None [].

(** One iteration of the loop body, without the rendering. *)
Definition onChunk (a : acc) (chunk : jsstring) : acc :=
  let decided :=
    match isCumulative a with
    | None =>
        if (0 <? length (fullText a))%nat
        then Some (startsWith chunk (fullText a))
        else None
    | Some b => Some b
    end in
  match decided with
  | Some true => Acc decided chunk
  | _ => Acc decided (fullText a ++ chunk)
  end.

Definition consume (chunks : list jsstring) : acc := fold_left onChunk chunks initial.

(** The text [runPromptApi] returns for a stream that ends normally. *)
Definition streamedText (chunks : list jsstring) : jsstring := fullText (consume chunks).

(** The rule as the specification words it: the second chunk is compared
    with the first. *)
Definition secondChunkRule (chunks : list jsstring) : jsstring :=
  match chunks with
  | [] => []
  | [c1] => c1
  | c1 :: c2 :: rest =>
      if startsWith c2 c1 then List.last rest c2
      else c1 ++ c2 ++ concat rest
  end.

(** Chunks that arrive while nothing has been accumulated yet. *)
Fixpoint dropEmpty (chunks : list jsstring) : list jsstring :=
  match chunks with
  | [] :: rest => dropEmpty rest
  | _ => chunks
  end.

End Stream.
Export Stream.


(* ===================================================================== *)
(** ** Values of the side panel *)
(* ===================================================================== *)

Module Panel.

(** A thrown value: [err.name] and [err.message] ([None] when the thrown
    value has no message). *)
Record error := Err { errName : jsstring; errMessage : option jsstring }.

(** The outcome of an awaited call. *)
Inductive result (A : Type) : Type :=
| Ok (a : A)
| Thrown (e : error).
Arguments Ok {A} a.
Arguments Thrown {A} e.

(** What the content script answers: [response.data]. *)
Record pageData := PageData {
  text : jsstring;
  title : jsstring;
  url : jsstring;
  lang : jsstring;
  charCount : nat;
  truncated : bool
}.

(** What an element of the panel shows. *)
Inductive content :=
| Cleared                          (* clearElement *)
| SectionLoading                   (* showSectionLoading *)
| TranslatingIndicator             (* showTranslatingIndicator *)
| TextContent (s : jsstring)       (* elem.textContent = s *)
| MarkdownOf (raw : jsstring)      (* renderMarkdownSafe(raw, elem) *)
| KeyPointsOf (raw : jsstring)     (* renderKeyPointsWithImportance(raw, elem) *)
| QuizOf (raw : jsstring)          (* renderQuiz(raw) *)
| DialogueOf (raw : jsstring).     (* renderDialogue(raw) *)

(** An element: its children and its [data-raw-text] attribute, which
    [clearElement] and [textContent] leave alone. *)
Record elem := Elem { shown : content; rawText : option jsstring }.

Record button := Button { label : jsstring; disabled : bool }.

(** A bubble of the chat.  An assistant bubble made by the running
    script is known to it by a reference; a bubble rebuilt from cached
    markup is not. *)
Inductive bubble :=
| UserBubble (question : jsstring)
| AssistantBubble (ref : option nat) (response : elem).

(** The five artifact slots. *)
Inductive slotId := TLDR | KEYPOINTS | QUIZ | DIALOGUE | CHAT.

(** The four content boxes of the panel. *)
Inductive box := tldrContent | keyPointsContent | quizContent | dialogueContent.

(** A [targetElement]: one of the boxes, or the response box of the
    assistant bubble with the given reference. *)
Inductive target :=
| BoxOf (b : box)
| responseContent (bubbleRef : nat).
Coercion BoxOf : box >-> target.

#[export] Instance slotId_eq_dec : EqDecision slotId.
Proof. solve_decision. Defined.
#[export] Instance box_eq_dec : EqDecision box.
Proof. solve_decision. Defined.

(** An entry of [tabCache].  The three [Html] fields are snapshots of
    the quiz, dialogue and chat boxes ([innerHTML]); [None] is a field
    that is [null] or was never set. *)
Record cacheEntry := CacheEntry {
  cPageData : option pageData;
  cSummaryType : jsstring;
  cTldr : option jsstring;
  cKeyPoints : option jsstring;
  cQuizHtml : option content;
  cDialogueHtml : option content;
  cChatHtml : option (list bubble);
  cDialogue : option jsstring
}.

Inductive sessionKind := SummarizerSession | LanguageModelSession | TranslatorSession.

(** What the panel asks of the browser, in order. *)
Inductive event :=
| Created (k : sessionKind) (sid : nat)
| Destroyed (sid : nat)
| Summarized (sid : nat) (input : jsstring)
| Prompted (sid : nat) (input : jsstring)
| Translated (sid : nat) (input : jsstring)
| Extracted.

#[export] Instance sessionKind_eq_dec : EqDecision sessionKind.
Proof. solve_decision. Defined.
#[export] Instance event_eq_dec : EqDecision event.
Proof. solve_decision. Defined.

(** A chunk stream of [promptStreaming]: the chunks it delivers, then
    either its end or a rejection. *)
Record stream := Stream { chunks : list jsstring; failure : option error }.

(** A translator object: its session, whether it has a [destroy]
    method, and whether that method throws. *)
Record translator := Translator {
  tSession : nat;
  tHasDestroy : bool;
  tDestroyError : option error
}.

(** The browser and the on-device models.  Sessions are numbered in the
    order of the [create] calls, whatever their kind; translate calls
    and extractions are numbered likewise. *)
Record env := Env {
  getMessage : jsstring → jsstring;            (* chrome.i18n.getMessage *)
  hasLanguageModel : bool;                     (* 'LanguageModel' in self *)
  translatorApi : bool;                        (* isTranslatorAvailable() *)
  tabUrl : Z → result (option jsstring);       (* (await chrome.tabs.get(id)).url *)
  extractTextResponse : nat → result (option pageData);
  createResponse : nat → option error;         (* create() of any provider *)
  translatorShape : nat → bool * option error;         (* has destroy, destroy throws *)
  summarizeResponse : nat → jsstring → result (option jsstring);
  promptStreamingResponse : nat → jsstring → result stream;
  promptResponse : nat → jsstring → result (option jsstring);
  translateResponse : nat → jsstring → result (option jsstring)
}.

(** The script's variables, the document and the bookkeeping of the
    calls made so far. *)
Record world := World {
  summaryType : jsstring;   (* currentSettings.summaryType *)
  summaryLength : jsstring;   (* currentSettings.summaryLength *)
  extractedPageData : option pageData;
  isSummarizing : bool;
  currentTabId : option Z;
  tabCache : gmap Z cacheEntry;
  pendingTranslator : option (result (option translator));
  generating : slotId → bool;   (* isSummarizingTldr, ..., isAnsweringCustomPrompt *)
  abortController : slotId → option nat;   (* tldrAbortController, ... *)
  langSelect : jsstring;   (* el.langSelect.value *)
  customPromptInput : jsstring;   (* el.customPromptInput.value *)
  statusBanner : option (jsstring * jsstring);
  pageInfo : option pageData;
  buttons : slotId → button;
  boxes : box → elem;
  chatHistory : list bubble;
  sessions : nat;   (* create calls so far *)
  translations : nat;   (* translate calls so far *)
  extractions : nat;   (* extractText calls so far *)
  signals : nat;   (* AbortControllers made so far *)
  nodes : nat;   (* assistant bubbles made so far *)
  aborted : list nat;   (* controllers whose abort() was called *)
  log : list event
}.

(** The flags and controllers under the names of the source. *)
Definition isSummarizingTldr (w : world) := generating w TLDR.
Definition isSummarizingKeyPoints (w : world) := generating w KEYPOINTS.
Definition isGeneratingQuiz (w : world) := generating w QUIZ.
Definition isGeneratingDialogue (w : world) := generating w DIALOGUE.
Definition isAnsweringCustomPrompt (w : world) := generating w CHAT.
Definition tldrAbortController (w : world) := abortController w TLDR.
Definition keyPointsAbortController (w : world) := abortController w KEYPOINTS.
Definition quizAbortController (w : world) := abortController w QUIZ.
Definition dialogueAbortController (w : world) := abortController w DIALOGUE.
Definition customPromptAbortController (w : world) := abortController w CHAT.

(** Field updates. *)
Definition set_extractedPageData v w :=
  World (summaryType w) (summaryLength w) v (isSummarizing w) (currentTabId w)
    (tabCache w) (pendingTranslator w) (generating w) (abortController w) (langSelect
    w) (customPromptInput w) (statusBanner w) (pageInfo w) (buttons w) (boxes w)
    (chatHistory w) (sessions w) (translations w) (extractions w) (signals w) (nodes w)
    (aborted w) (log w).
Definition set_currentTabId v w :=
  World (summaryType w) (summaryLength w) (extractedPageData w) (isSummarizing w) v
    (tabCache w) (pendingTranslator w) (generating w) (abortController w) (langSelect
    w) (customPromptInput w) (statusBanner w) (pageInfo w) (buttons w) (boxes w)
    (chatHistory w) (sessions w) (translations w) (extractions w) (signals w) (nodes w)
    (aborted w) (log w).
Definition set_tabCache v w :=
  World (summaryType w) (summaryLength w) (extractedPageData w) (isSummarizing w)
    (currentTabId w) v (pendingTranslator w) (generating w) (abortController w)
    (langSelect w) (customPromptInput w) (statusBanner w) (pageInfo w) (buttons w)
    (boxes w) (chatHistory w) (sessions w) (translations w) (extractions w) (signals w)
    (nodes w) (aborted w) (log w).
Definition set_generating v w :=
  World (summaryType w) (summaryLength w) (extractedPageData w) (isSummarizing w)
    (currentTabId w) (tabCache w) (pendingTranslator w) v (abortController w)
    (langSelect w) (customPromptInput w) (statusBanner w) (pageInfo w) (buttons w)
    (boxes w) (chatHistory w) (sessions w) (translations w) (extractions w) (signals w)
    (nodes w) (aborted w) (log w).
Definition set_abortController v w :=
  World (summaryType w) (summaryLength w) (extractedPageData w) (isSummarizing w)
    (currentTabId w) (tabCache w) (pendingTranslator w) (generating w) v (langSelect w)
    (customPromptInput w) (statusBanner w) (pageInfo w) (buttons w) (boxes w)
    (chatHistory w) (sessions w) (translations w) (extractions w) (signals w) (nodes w)
    (aborted w) (log w).
Definition set_customPromptInput v w :=
  World (summaryType w) (summaryLength w) (extractedPageData w) (isSummarizing w)
    (currentTabId w) (tabCache w) (pendingTranslator w) (generating w) (abortController
    w) (langSelect w) v (statusBanner w) (pageInfo w) (buttons w) (boxes w)
    (chatHistory w) (sessions w) (translations w) (extractions w) (signals w) (nodes w)
    (aborted w) (log w).
Definition set_statusBanner v w :=
  World (summaryType w) (summaryLength w) (extractedPageData w) (isSummarizing w)
    (currentTabId w) (tabCache w) (pendingTranslator w) (generating w) (abortController
    w) (langSelect w) (customPromptInput w) v (pageInfo w) (buttons w) (boxes w)
    (chatHistory w) (sessions w) (translations w) (extractions w) (signals w) (nodes w)
    (aborted w) (log w).
Definition set_pageInfo v w :=
  World (summaryType w) (summaryLength w) (extractedPageData w) (isSummarizing w)
    (currentTabId w) (tabCache w) (pendingTranslator w) (generating w) (abortController
    w) (langSelect w) (customPromptInput w) (statusBanner w) v (buttons w) (boxes w)
    (chatHistory w) (sessions w) (translations w) (extractions w) (signals w) (nodes w)
    (aborted w) (log w).
Definition set_buttons v w :=
  World (summaryType w) (summaryLength w) (extractedPageData w) (isSummarizing w)
    (currentTabId w) (tabCache w) (pendingTranslator w) (generating w) (abortController
    w) (langSelect w) (customPromptInput w) (statusBanner w) (pageInfo w) v (boxes w)
    (chatHistory w) (sessions w) (translations w) (extractions w) (signals w) (nodes w)
    (aborted w) (log w).
Definition set_boxes v w :=
  World (summaryType w) (summaryLength w) (extractedPageData w) (isSummarizing w)
    (currentTabId w) (tabCache w) (pendingTranslator w) (generating w) (abortController
    w) (langSelect w) (customPromptInput w) (statusBanner w) (pageInfo w) (buttons w) v
    (chatHistory w) (sessions w) (translations w) (extractions w) (signals w) (nodes w)
    (aborted w) (log w).
Definition set_chatHistory v w :=
  World (summaryType w) (summaryLength w) (extractedPageData w) (isSummarizing w)
    (currentTabId w) (tabCache w) (pendingTranslator w) (generating w) (abortController
    w) (langSelect w) (customPromptInput w) (statusBanner w) (pageInfo w) (buttons w)
    (boxes w) v (sessions w) (translations w) (extractions w) (signals w) (nodes w)
    (aborted w) (log w).
Definition set_sessions v w :=
  World (summaryType w) (summaryLength w) (extractedPageData w) (isSummarizing w)
    (currentTabId w) (tabCache w) (pendingTranslator w) (generating w) (abortController
    w) (langSelect w) (customPromptInput w) (statusBanner w) (pageInfo w) (buttons w)
    (boxes w) (chatHistory w) v (translations w) (extractions w) (signals w) (nodes w)
    (aborted w) (log w).
Definition set_translations v w :=
  World (summaryType w) (summaryLength w) (extractedPageData w) (isSummarizing w)
    (currentTabId w) (tabCache w) (pendingTranslator w) (generating w) (abortController
    w) (langSelect w) (customPromptInput w) (statusBanner w) (pageInfo w) (buttons w)
    (boxes w) (chatHistory w) (sessions w) v (extractions w) (signals w) (nodes w)
    (aborted w) (log w).
Definition set_extractions v w :=
  World (summaryType w) (summaryLength w) (extractedPageData w) (isSummarizing w)
    (currentTabId w) (tabCache w) (pendingTranslator w) (generating w) (abortController
    w) (langSelect w) (customPromptInput w) (statusBanner w) (pageInfo w) (buttons w)
    (boxes w) (chatHistory w) (sessions w) (translations w) v (signals w) (nodes w)
    (aborted w) (log w).
Definition set_signals v w :=
  World (summaryType w) (summaryLength w) (extractedPageData w) (isSummarizing w)
    (currentTabId w) (tabCache w) (pendingTranslator w) (generating w) (abortController
    w) (langSelect w) (customPromptInput w) (statusBanner w) (pageInfo w) (buttons w)
    (boxes w) (chatHistory w) (sessions w) (translations w) (extractions w) v (nodes w)
    (aborted w) (log w).
Definition set_nodes v w :=
  World (summaryType w) (summaryLength w) (extractedPageData w) (isSummarizing w)
    (currentTabId w) (tabCache w) (pendingTranslator w) (generating w) (abortController
    w) (langSelect w) (customPromptInput w) (statusBanner w) (pageInfo w) (buttons w)
    (boxes w) (chatHistory w) (sessions w) (translations w) (extractions w) (signals w)
    v (aborted w) (log w).
Definition set_aborted v w :=
  World (summaryType w) (summaryLength w) (extractedPageData w) (isSummarizing w)
    (currentTabId w) (tabCache w) (pendingTranslator w) (generating w) (abortController
    w) (langSelect w) (customPromptInput w) (statusBanner w) (pageInfo w) (buttons w)
    (boxes w) (chatHistory w) (sessions w) (translations w) (extractions w) (signals w)
    (nodes w) v (log w).
Definition set_log v w :=
  World (summaryType w) (summaryLength w) (extractedPageData w) (isSummarizing w)
    (currentTabId w) (tabCache w) (pendingTranslator w) (generating w) (abortController
    w) (langSelect w) (customPromptInput w) (statusBanner w) (pageInfo w) (buttons w)
    (boxes w) (chatHistory w) (sessions w) (translations w) (extractions w) (signals w)
    (nodes w) (aborted w) v.

(** *** The monad of the script: state and exceptions *)

Definition M (A : Type) : Type := world → result A * world.

#[export] Instance M_ret : MRet M := λ A a w, (Ok a, w).
#[export] Instance M_bind : MBind M := λ A B f m w,
  match m w with
  | (Ok a, w') => f a w'
  | (Thrown e, w') => (Thrown e, w')
  end.

Definition throw {A} (e : error) : M A := λ w, (Thrown e, w).
Definition gets {A} (f : world → A) : M A := λ w, (Ok (f w), w).
Definition modify (f : world → world) : M unit := λ w, (Ok tt, f w).
Definition await {A} (r : result A) : M A := λ w, (r, w).

(** [try { body } catch (err) { handler }] *)
Definition tryCatch {A} (body : M A) (handler : error → M A) : M A := λ w,
  match body w with
  | (Ok a, w') => (Ok a, w')
  | (Thrown e, w') => handler e w'
  end.

(** [try { body } finally { cleanup }] *)
Definition tryFinally {A} (body : M A) (cleanup : M unit) : M A := λ w,
  match body w with
  | (r, w') =>
      match cleanup w' with
      | (Ok _, w'') => (r, w'')
      | (Thrown e, w'') => (Thrown e, w'')
      end
  end.

Definition emit (e : event) : M unit := modify (λ w, set_log (log w ++ [e]) w).

(** The world after a run, and its outcome. *)
Definition after {A} (m : M A) (w : world) : world := snd (m w).
Definition outcome {A} (m : M A) (w : world) : result A := fst (m w).

(** The events a run adds to the log. *)
Definition newEvents {A} (m : M A) (w : world) : list event :=
  drop (length (log w)) (log (after m w)).

End Panel.
Export Panel.

(* ===================================================================== *)
(** ** The document and the providers *)
(* ===================================================================== *)

Module Dom.

(** Change the element a [targetElement] denotes.  A response box whose
    bubble is no longer in the chat is detached: nothing shown changes. *)
Definition onBubble (ref : nat) (f : elem → elem) (b : bubble) : bubble :=
  match b with
  | AssistantBubble (Some r) e => if bool_decide (r = ref) then AssistantBubble (Some r) (f e) else b
  | _ => b
  end.

Definition updTarget (t : target) (f : elem → elem) (w : world) : world :=
  match t with
  | BoxOf b => set_boxes (<[b := f (boxes w b)]> (boxes w)) w
  | responseContent ref => set_chatHistory (onBubble ref f <$> chatHistory w) w
  end.

Definition show (c : content) (e : elem) : elem := Elem c (rawText e).

(** [clearElement(elem)] *)
Definition clearElement (t : target) : M unit := modify (updTarget t (show Cleared)).

(** [elem.textContent = s] *)
Definition setTextContent (t : target) (s : jsstring) : M unit :=
  modify (updTarget t (show (TextContent s))).

(** [showSectionLoading(container)] *)
Definition showSectionLoading (t : target) : M unit :=
  modify (updTarget t (show SectionLoading)).

(** [showTranslatingIndicator(container)] *)
Definition showTranslatingIndicator (t : target) : M unit :=
  modify (updTarget t (show TranslatingIndicator)).

(** [renderMarkdownSafe(text, container)]: the raw text is kept in the
    [data-raw-text] attribute. *)
Definition renderMarkdownSafe (text : jsstring) (t : target) : M unit :=
  modify (updTarget t (λ _, Elem (MarkdownOf text) (Some text))).

(** [renderKeyPointsWithImportance(text, container)] as a change of the
    document; the parsing it performs is [KeyPoints.renderedItems]. *)
Definition renderKeyPointsWithImportance (text : jsstring) (t : target) : M unit :=
  modify (updTarget t (λ _, Elem (KeyPointsOf text) (Some text))).

(** [renderQuiz(quizText)] and [renderDialogue(dialogueText)] *)
Definition renderQuiz (quizText : jsstring) : M unit :=
  modify (updTarget quizContent (show (QuizOf quizText))).
Definition renderDialogue (dialogueText : jsstring) : M unit :=
  modify (updTarget dialogueContent (show (DialogueOf dialogueText))).

(** [elem.childNodes.length > 0] *)
Definition hasChildNodes (c : content) : bool :=
  match c with
  | Cleared => false
  | TextContent s => truthy s
  | MarkdownOf raw | KeyPointsOf raw => existsb (λ l, truthy (trim l)) (split LF raw)
  | SectionLoading | TranslatingIndicator | QuizOf _ | DialogueOf _ => true
  end.

(** [showPageInfo(data)] *)
Definition showPageInfo (data : option pageData) : M unit :=
  match data with
  | None => mret tt
  | Some d => modify (set_pageInfo (Some d))
  end.

(** [showStatus(type, message)] and [hideStatus()] *)
Definition showStatus (type message : jsstring) : M unit :=
  modify (set_statusBanner (Some (type, message))).
Definition hideStatus : M unit := modify (set_statusBanner None).

(** A button of a slot: its label and whether it is disabled. *)
Definition setButton (s : slotId) (b : button) : M unit :=
  modify (λ w, set_buttons (<[s := b]> (buttons w)) w).
Definition setLabel (s : slotId) (l : jsstring) : M unit :=
  modify (λ w, set_buttons (<[s := Button l (disabled (buttons w s))]> (buttons w)) w).
Definition setDisabled (s : slotId) (d : bool) : M unit :=
  modify (λ w, set_buttons (<[s := Button (label (buttons w s)) d]> (buttons w)) w).

Definition setGenerating (s : slotId) (b : bool) : M unit :=
  modify (λ w, set_generating (<[s := b]> (generating w)) w).
Definition setAbortController (s : slotId) (c : option nat) : M unit :=
  modify (λ w, set_abortController (<[s := c]> (abortController w)) w).

(** [new AbortController()] *)
Definition newAbortController : M nat := λ w, (Ok (signals w), set_signals (S (signals w)) w).

(** [controller.abort()] *)
Definition abort (c : nat) : M unit := modify (λ w, set_aborted (c :: aborted w) w).

(** [controller.signal] where [controller] may be [null]. *)
Definition signalOf (c : option nat) : M nat :=
  match c with
  | Some s => mret s
  | None => throw (Err (js "TypeError")
                       (Some (js "Cannot read properties of null (reading 'signal')")))
  end.

End Dom.
Export Dom.

Module Providers.
Section WithEnv.
Variable E : env.

(** [chrome.i18n.getMessage(key) || fallback] *)
Definition message (key : string) (fallback : string) : jsstring :=
  if truthy (getMessage E (js key)) then getMessage E (js key) else js fallback.

(** [await Provider.create(options)]: a fresh session, or a rejection. *)
Definition create (k : sessionKind) : M nat := λ w,
  let sid := sessions w in
  let w1 := set_sessions (S sid) w in
  match createResponse E sid with
  | Some e => (Thrown e, w1)
  | None => (Ok sid, set_log (log w1 ++ [Created k sid]) w1)
  end.

(** [session.destroy()] *)
Definition destroy (sid : nat) : M unit := emit (Destroyed sid).

(** [await summarizer.summarize(input, summarizeOptions)] *)
Definition summarize (sid : nat) (input : jsstring) : M (option jsstring) :=
  emit (Summarized sid input) ;; await (summarizeResponse E sid input).

(** [session.promptStreaming(prompt, promptOptions)] *)
Definition promptStreaming (sid : nat) (input : jsstring) : M stream :=
  emit (Prompted sid input) ;; await (promptStreamingResponse E sid input).

(** [await session.prompt(prompt, { signal })] *)
Definition prompt (sid : nat) (input : jsstring) : M (option jsstring) :=
  emit (Prompted sid input) ;; await (promptResponse E sid input).

(** [extractText()]: the message round trip to the content script. *)
Definition extractText : M (option pageData) := λ w,
  let n := extractions w in
  let w1 := set_extractions (S n) w in
  (extractTextResponse E n, set_log (log w1 ++ [Extracted]) w1).

(** [ensurePageData()] *)
Definition ensurePageData : M (option pageData) :=
  cached ← gets extractedPageData;
  match cached with
  | Some d => mret (Some d)
  | None =>
      tryCatch
        (data ← extractText;
         modify (set_extractedPageData data) ;;
         match data with
         | Some d =>
             if truthy (text d) then showPageInfo (Some d) ;; mret (Some d)
             else modify (set_extractedPageData None) ;; mret None
         | None => modify (set_extractedPageData None) ;; mret None
         end)
        (λ _, modify (set_extractedPageData None) ;; mret None)
  end.

End WithEnv.
End Providers.
Export Providers.

(* ===================================================================== *)
(** ** Cancellation wording and the summarizer retry ladder *)
(* ===================================================================== *)

Module Summarizer.

(** [config.TEXT_LIMITS.TRUNCATION_SUFFIX] *)
Definition TRUNCATION_SUFFIX : jsstring :=
  [LF; LF] ++ js "[Text truncated for summarization]".

(** The test of [runSummarizer], [handleGenerateTldr] and
    [handleGenerateKeyPoints]:
    [err.name === 'AbortError' || err.message === 'AbortError' ||
     (err.message && err.message.toLowerCase().includes('abort'))] *)
Definition isAborted (err : error) : bool :=
  bool_decide (errName err = js "AbortError")
  || bool_decide (errMessage err = Some (js "AbortError"))
  || match errMessage err with
     | Some m => truthy m && includes (toLowerCase m) (js "abort")
     | None => false
     end.

(** The test of the quiz, dialogue and chat handlers, without the middle
    disjunct. *)
Definition isAbortedByNameOrWording (err : error) : bool :=
  bool_decide (errName err = js "AbortError")
  || match errMessage err with
     | Some m => truthy m && includes (toLowerCase m) (js "abort")
     | None => false
     end.

(** [/too large/i.test(err.message || '')].  Without the [u] flag the
    [i] flag never lets a code unit above 127 match an ASCII letter. *)
Definition isTooLarge (err : error) : bool :=
  includes (toLowerCaseAscii (default [] (errMessage err))) (js "too large").

(** ['Error: ' + err.message]; a missing message prints as [undefined]. *)
Definition errorLine (err : error) : jsstring :=
  js "Error: " ++ default (js "undefined") (errMessage err).

(** The [createOptions] object handed to [Summarizer.create]. *)
Record options := Options {
  optType : jsstring;
  optOutputLanguage : jsstring;
  optSharedContext : jsstring;
  optSignal : option nat
}.

(** The [attempts] array: the full text, then the shorter ones. *)
Definition attempts (text : jsstring) : list jsstring :=
  [text]
  ++ (if 6000 <? N.of_nat (length text)
      then [substring0 text (length text / 2) ++ TRUNCATION_SUFFIX] else [])
  ++ (if 3000 <? N.of_nat (length text)
      then [substring0 text (length text / 4) ++ TRUNCATION_SUFFIX] else []).

(** How one iteration of the loop ends: with a [return], or with
    [continue]. *)
Inductive iteration :=
| Return (summary : option jsstring)
| Continue.

Section WithEnv.
Variable E : env.

(** The body of the [try] of one iteration. *)
Definition attempt (summarizer : nat) (input : jsstring) (targetElement : target)
  : M iteration :=
  summary ← summarize E summarizer input;
  match summary with
  | Some s =>
      if truthy s then renderMarkdownSafe s targetElement ;; mret (Return (Some s))
      else setTextContent targetElement (js "(No summary generated)") ;; mret (Return None)
  | None => setTextContent targetElement (js "(No summary generated)") ;; mret (Return None)
  end.

(** The [catch] of one iteration; [more] says whether
    [i < attempts.length - 1]. *)
Definition onAttemptError (more : bool) (targetElement : target) (err : error)
  : M iteration :=
  if isAborted err then throw err
  else if isTooLarge err && more then mret Continue
  else setTextContent targetElement (errorLine err) ;; mret (Return None).

(** The [for] loop over the remaining attempts. *)
Fixpoint runAttempts (opts : options) (targetElement : target) (remaining : list jsstring)
  : M (option jsstring) :=
  match remaining with
  | [] => setTextContent targetElement (js "(No summary generated)") ;; mret None
  | input :: later =>
      summarizer ← create E SummarizerSession;
      ended ← tryFinally
                (tryCatch (attempt summarizer input targetElement)
                          (onAttemptError (negb (bool_decide (later = []))) targetElement))
                (destroy summarizer);
      match ended with
      | Return summary => mret summary
      | Continue => runAttempts opts targetElement later
      end
  end.

(** [runSummarizer(options, text, targetElement)] *)
Definition runSummarizer (opts : options) (text : jsstring) (targetElement : target)
  : M (option jsstring) :=
  runAttempts opts targetElement (attempts text).

End WithEnv.
End Summarizer.
Export Summarizer.

(* ===================================================================== *)
(** ** The streaming prompt call *)
(* ===================================================================== *)

Module Prompt.
Section WithEnv.
Variable E : env.

(** The [for await (var chunk of stream)] loop: every chunk updates
    the two variables and is rendered; a failing stream throws after
    its last chunk. *)
Fixpoint forAwait (targetElement : target) (cs : list jsstring)
    (failure : option error) (a : acc) : M acc :=
  match cs with
  | [] => match failure with
          | Some err => throw err
          | None => mret a
          end
  | chunk :: later =>
      let a' := onChunk a chunk in
      renderMarkdownSafe (fullText a') targetElement ;;
      forAwait targetElement later failure a'
  end.

(** [runPromptApi(systemPrompt, prompt, targetElement, outputLanguage, signal)] *)
Definition runPromptApi (systemPrompt prompt : jsstring) (targetElement : target)
    (outputLanguage : jsstring) (signal : option nat) : M jsstring :=
  let lang := if truthy outputLanguage then outputLanguage else js "en" in
  session ← create E LanguageModelSession;
  a ← tryFinally
        (s ← promptStreaming E session prompt;
         forAwait targetElement (chunks s) (failure s) initial)
        (destroy session);
  mret (fullText a).

End WithEnv.
End Prompt.
Export Prompt.

(* ===================================================================== *)
(** ** Key points: the two parsers *)
(* ===================================================================== *)

Module KeyPoints.

Definition STAR : N := 42.
Definition LBRACKET : N := 91.
Definition RBRACKET : N := 93.

(** The character class [[-*]] *)
Definition isBullet (c : N) : bool := (c =? HYPHEN) || (c =? STAR).

Definition tagWords : list jsstring := [js "HIGH"; js "MEDIUM"; js "LOW"].

(** [(HIGH|MEDIUM|LOW)] under the [i] flag at the head of [s]: the text
    matched, as it is written in [s], and what follows it. *)
Definition matchTagWord (s : jsstring) : option (jsstring * jsstring) :=
  (λ w, (take (length w) s, drop (length w) s)) <$>
    List.find (λ w, bool_decide (toUpperCaseAscii (take (length w) s) = w)) tagWords.

(** An optional single character. *)
Definition optional (c : N) (s : jsstring) : jsstring :=
  match s with
  | x :: s' => if x =? c then s' else s
  | [] => s
  end.

(** A last group of any characters: up to the first line terminator. *)
Fixpoint restOfLine (s : jsstring) : jsstring :=
  match s with
  | c :: s' => if isLineTerminator c then [] else c :: restOfLine s'
  | [] => []
  end.

(** An item of [translateKeyPointsPreservingFormat]. *)
Record item := Item { tag : jsstring; body : jsstring }.

(** [line.match] with the pattern [^[-*]\s*\[?(HIGH|MEDIUM|LOW)\]?\s*]
    followed by a group of any characters, under the [i] flag, and the
    construction of the item from the two groups. *)
Definition matchItem (line : jsstring) : option item :=
  match line with
  | c :: afterBullet =>
      if isBullet c then
        match matchTagWord (optional LBRACKET (trimStart afterBullet)) with
        | Some (word, afterWord) =>
            Some (Item ([LBRACKET] ++ toUpperCaseAscii word ++ [RBRACKET])
                       (restOfLine (trimStart (optional RBRACKET afterWord))))
        | None => None
        end
      else None
  | [] => None
  end.

(** The first loop of [translateKeyPointsPreservingFormat]. *)
Definition parseItems (keyPointsText : jsstring) : list item :=
  omap (λ l, let line := trim l in
             if truthy line then matchItem line else None)
       (split LF keyPointsText).

(** The line rebuilt for an item from what the translator answered. *)
Definition rebuilt (i : item) (translated : option jsstring) : jsstring :=
  js "- " ++ tag i ++ js " " ++
  match translated with
  | Some t => if truthy t && truthy (trim t) then trim t else body i
  | None => body i
  end.

(** *** The parser of [renderKeyPointsWithImportance] *)

(** The leading run of a character class, and what follows. *)
Fixpoint span (p : N → bool) (s : jsstring) : jsstring * jsstring :=
  match s with
  | c :: s' => if p c then let '(run, rest) := span p s' in (c :: run, rest) else ([], s)
  | [] => ([], [])
  end.

Definition isStar (c : N) : bool := c =? STAR.

(** [\*{0,2}] followed by something that is not a star: the stars
    taken, or [None] when more than two stand there. *)
Definition upToTwoStars (s : jsstring) : option (nat * jsstring) :=
  let '(stars, rest) := span isStar s in
  if (length stars <=? 2)%nat then Some (length stars, rest) else None.

(** A trailing [\*{0,2}]: at most two stars are taken. *)
Definition trailingStars (s : jsstring) : nat := Nat.min 2 (length (fst (span isStar s))).

(** One character. *)
Definition expect (c : N) (s : jsstring) : option jsstring :=
  match s with
  | x :: s' => if x =? c then Some s' else None
  | [] => None
  end.

(** [/\s+-\s+\*{0,2}\[(HIGH|MEDIUM|LOW)\]\*{0,2}/i] at the head of [s]:
    the group and the length of the match. *)
Definition matchSeparator (s : jsstring) : option (jsstring * nat) :=
  let '(ws1, r1) := span isSpace s in
  if bool_decide (ws1 = []) then None else
  r2 ← expect HYPHEN r1;
  let '(ws2, r3) := span isSpace r2 in
  if bool_decide (ws2 = []) then None else
  '(n, r4) ← upToTwoStars r3;
  r5 ← expect LBRACKET r4;
  '(word, r6) ← matchTagWord r5;
  r7 ← expect RBRACKET r6;
  Some (word, (length ws1 + 1 + length ws2 + n + 1 + length word + 1 + trailingStars r7)%nat).

(** [text.replace(/\s+-\s+\*{0,2}\[(HIGH|MEDIUM|LOW)\]\*{0,2}/gi, '\n- [$1]')]:
    [skip] counts the code units of the current match still to pass. *)
Fixpoint normalizeFrom (skip : nat) (s : jsstring) : jsstring :=
  match s with
  | [] => []
  | c :: s' =>
      match skip with
      | S k => normalizeFrom k s'
      | O =>
          match matchSeparator s with
          | Some (word, len) =>
              [LF] ++ js "- [" ++ word ++ js "]" ++ normalizeFrom (len - 1) s'
          | None => c :: normalizeFrom 0 s'
          end
      end
  end.

Definition normalize (text : jsstring) : jsstring := normalizeFrom 0 text.

(** [trimmed.match(/^[-*]\s+(.+)/)]: the group. *)
Definition listMatch (trimmed : jsstring) : option jsstring :=
  match trimmed with
  | c :: r =>
      if isBullet c then
        let '(ws, r') := span isSpace r in
        if bool_decide (ws = []) then None
        else match restOfLine r' with
             | [] => None
             | g => Some g
             end
      else None
  | [] => None
  end.

(** [/^\*{0,2}\s*\[(HIGH|MEDIUM|LOW)\]/i.test(trimmed)] *)
Definition startsWithTag (trimmed : jsstring) : bool :=
  match upToTwoStars trimmed with
  | Some (_, r) =>
      match expect LBRACKET (trimStart r) with
      | Some r1 =>
          match matchTagWord r1 with
          | Some (_, r2) => bool_decide (is_Some (expect RBRACKET r2))
          | None => false
          end
      | None => false
      end
  | None => false
  end.

(** [content.match(/^(\*{0,2})\s*\[(HIGH|MEDIUM|LOW)\]\s*(\*{0,2})\s*/i)]:
    the first group's length, the second group, the third group's
    length, and what follows the match. *)
Definition importanceMatch (content : jsstring)
  : option (nat * jsstring * nat * jsstring) :=
  '(n1, r) ← upToTwoStars content;
  r1 ← expect LBRACKET (trimStart r);
  '(word, r2) ← matchTagWord r1;
  r3 ← expect RBRACKET r2;
  let r4 := trimStart r3 in
  let n3 := trailingStars r4 in
  Some (n1, word, n3, trimStart (drop n3 r4)).

(** [content.indexOf('**')] *)
Fixpoint indexOfTwoStars (s : jsstring) : option nat :=
  match s with
  | c :: s' =>
      if startsWith s [STAR; STAR] then Some 0%nat
      else S <$> indexOfTwoStars s'
  | [] => None
  end.

(** A list item of the rendered key points: its importance, if any, and
    its text before inline formatting. *)
Record rendered := Rendered { importance : option jsstring; itemContent : jsstring }.

(** The body of the loop of [renderKeyPointsWithImportance] for one
    line. *)
Definition renderLine (l : jsstring) : option rendered :=
  let trimmed := trim l in
  if negb (truthy trimmed) then None else
  content ← match listMatch trimmed with
            | Some g => Some g
            | None => if startsWithTag trimmed then Some trimmed else None
            end;
  match importanceMatch content with
  | Some (n1, word, n3, rest) =>
      let rewrapped :=
        if bool_decide (n1 = 2%nat) && bool_decide (n3 = 0%nat) then
          match indexOfTwoStars rest with
          | Some closeIdx =>
              [STAR; STAR] ++ take closeIdx rest ++ [STAR; STAR] ++ drop (closeIdx + 2) rest
          | None => rest
          end
        else rest in
      Some (Rendered (Some (toLowerCaseAscii word)) rewrapped)
  | None => Some (Rendered None content)
  end.

(** The list items [renderKeyPointsWithImportance] builds. *)
Definition renderedItems (text : jsstring) : list rendered :=
  omap renderLine (split LF (normalize text)).

End KeyPoints.
Export KeyPoints.

(* ===================================================================== *)
(** ** Translation helpers *)
(* ===================================================================== *)

Module Translation.
Section WithEnv.
Variable E : env.

(** [createTranslator(targetLang)]: whichever of the three translator
    interfaces is present, or a rejection when none is. *)
Definition createTranslator (targetLang : jsstring) : M translator :=
  if translatorApi E then
    sid ← create E TranslatorSession;
    mret (Translator sid (fst (translatorShape E sid)) (snd (translatorShape E sid)))
  else throw (Err (js "Error") (Some (js "No Translator API available"))).

(** [await translator.translate(input)] *)
Definition translate (t : translator) (input : jsstring) : M (option jsstring) := λ w,
  let n := translations w in
  let w1 := set_translations (S n) w in
  (translateResponse E n input, set_log (log w1 ++ [Translated (tSession t) input]) w1).

(** [translator.destroy()] *)
Definition destroyTranslator (t : translator) : M unit :=
  emit (Destroyed (tSession t)) ;;
  match tDestroyError t with
  | Some err => throw err
  | None => mret tt
  end.

(** [if (!pendingTranslator && translator.destroy) translator.destroy();] *)
Definition release (t : translator) : M unit :=
  pending ← gets pendingTranslator;
  if negb (bool_decide (is_Some pending)) && tHasDestroy t
  then destroyTranslator t
  else mret tt.

(** [translated && translated.trim()] *)
Definition usable (translated : option jsstring) : bool :=
  match translated with
  | Some t => truthy t && truthy (trim t)
  | None => false
  end.

(** The translator to use: the pending one if there is one, else one
    made on demand; [None] stands for the [return text] of the inner
    [catch]. *)
Definition obtainTranslator (targetLang : jsstring) : M (option translator) :=
  pending ← gets pendingTranslator;
  fromPending ← match pending with
                | Some p => await p
                | None => mret None
                end;
  match fromPending with
  | Some t => mret (Some t)
  | None =>
      tryCatch (t ← createTranslator targetLang; mret (Some t))
               (λ _, mret None)
  end.

(** [translateIfNeeded(text, targetLang)].  Inside the outer [try] a
    value [Some v] is a [return v]; [None] falls through to the last
    [return text]. *)
Definition translateIfNeeded (text targetLang : jsstring) : M jsstring :=
  if negb (truthy text) || bool_decide (targetLang = js "en") then mret text
  else
    returned ← tryCatch
      (obtained ← obtainTranslator targetLang;
       match obtained with
       | None => mret (Some text)
       | Some translator =>
           tryCatch
             (translated ← translate translator text;
              release translator ;;
              if usable translated then mret translated else mret None)
             (λ _, release translator ;; mret None)
       end)
      (λ _, mret None);
    match returned with
    | Some v => mret v
    | None => mret text
    end.

(** The promise chain of [translateKeyPointsPreservingFormat]: the
    items are translated one after the other. *)
Fixpoint translateEach (translator : translator) (items : list item)
  : M (list jsstring) :=
  match items with
  | [] => mret []
  | i :: later =>
      translated ← translate translator (body i);
      lines ← translateEach translator later;
      mret (rebuilt i translated :: lines)
  end.

(** [translateKeyPointsPreservingFormat(translator, keyPointsText)] *)
Definition translateKeyPointsPreservingFormat (translator : translator)
    (keyPointsText : jsstring) : M (option jsstring) :=
  let items := parseItems keyPointsText in
  if bool_decide (items = []) then translate translator keyPointsText
  else
    translatedItems ← translateEach translator items;
    mret (Some (join [LF] translatedItems)).

(** [translateKeyPointsIfNeeded(keyPointsText, targetLang)] *)
Definition translateKeyPointsIfNeeded (keyPointsText targetLang : jsstring)
  : M jsstring :=
  if negb (truthy keyPointsText) || bool_decide (targetLang = js "en")
  then mret keyPointsText
  else
    returned ← tryCatch
      (obtained ← obtainTranslator targetLang;
       match obtained with
       | None => mret (Some keyPointsText)
       | Some translator =>
           tryCatch
             (translated ← translateKeyPointsPreservingFormat translator keyPointsText;
              release translator ;;
              if usable translated then mret translated else mret None)
             (λ _, release translator ;; mret None)
       end)
      (λ _, mret None);
    match returned with
    | Some v => mret v
    | None => mret keyPointsText
    end.

End WithEnv.
End Translation.
Export Translation.

(* ===================================================================== *)
(** ** The tab cache *)
(* ===================================================================== *)

Module TabCache.

(** [if (tabId)] for a tab identifier that may be [null]. *)
Definition liveTab (tabId : option Z) : option Z :=
  match tabId with
  | Some t => if (t =? 0)%Z then None else Some t
  | None => None
  end.

(** [value || null] for a string that may be missing. *)
Definition orNull (s : option jsstring) : option jsstring :=
  match s with
  | Some v => if truthy v then Some v else None
  | None => None
  end.

(** [if (s)] for a string that may be [null]. *)
Definition present (s : option jsstring) : bool := bool_decide (is_Some (orNull s)).

(** The object literal with which an entry is created by the generation
    handlers. *)
Definition newEntry (w : world) : cacheEntry :=
  CacheEntry (extractedPageData w) (summaryType w) None None None None None None.

Definition withTldr (v : option jsstring) (c : cacheEntry) : cacheEntry :=
  CacheEntry (cPageData c) (cSummaryType c) v (cKeyPoints c) (cQuizHtml c)
             (cDialogueHtml c) (cChatHtml c) (cDialogue c).
Definition withKeyPoints (v : option jsstring) (c : cacheEntry) : cacheEntry :=
  CacheEntry (cPageData c) (cSummaryType c) (cTldr c) v (cQuizHtml c)
             (cDialogueHtml c) (cChatHtml c) (cDialogue c).
Definition withDialogue (v : option jsstring) (c : cacheEntry) : cacheEntry :=
  CacheEntry (cPageData c) (cSummaryType c) (cTldr c) (cKeyPoints c) (cQuizHtml c)
             (cDialogueHtml c) (cChatHtml c) v.
Definition withSnapshots (q d : option content) (h : option (list bubble))
    (c : cacheEntry) : cacheEntry :=
  CacheEntry (cPageData c) (cSummaryType c) (cTldr c) (cKeyPoints c) q d h (cDialogue c).

(** The [// Update cache] block of a generation handler:
    [if (currentTabId) { if (!tabCache[currentTabId]) { ... }
     tabCache[currentTabId].field = value; }] *)
Definition updateCache (field : cacheEntry → cacheEntry) : M unit :=
  modify (λ w,
    match liveTab (currentTabId w) with
    | Some tab =>
        let entry := default (newEntry w) (tabCache w !! tab) in
        set_tabCache (<[tab := field entry]> (tabCache w)) w
    | None => w
    end).

(** A bubble as [innerHTML] keeps it: without the script's reference. *)
Definition serialized (b : bubble) : bubble :=
  match b with
  | AssistantBubble _ e => AssistantBubble None e
  | UserBubble q => UserBubble q
  end.

(** [saveCurrentTabQuizChat(tabId)] *)
Definition saveCurrentTabQuizChat (tabId : option Z) : M unit :=
  match liveTab tabId with
  | None => mret tt
  | Some tab =>
      modify (λ w,
        let hasQuiz := hasChildNodes (shown (boxes w quizContent)) in
        let hasDialogue := hasChildNodes (shown (boxes w dialogueContent)) in
        let hasChat := negb (bool_decide (chatHistory w = [])) in
        if negb hasQuiz && negb hasDialogue && negb hasChat then w
        else
          let entry :=
            match tabCache w !! tab with
            | Some c => c
            | None =>
                CacheEntry (extractedPageData w) (summaryType w)
                           (orNull (rawText (boxes w tldrContent)))
                           (orNull (rawText (boxes w keyPointsContent)))
                           None None None None
            end in
          let entry' :=
            withSnapshots
              (if hasQuiz then Some (shown (boxes w quizContent)) else None)
              (if hasDialogue then Some (shown (boxes w dialogueContent)) else None)
              (if hasChat then Some (serialized <$> chatHistory w) else None)
              entry in
          set_tabCache (<[tab := entry']> (tabCache w)) w)
  end.

(** [elem.innerHTML = snapshot] for a box. *)
Definition setInnerHTML (b : box) (snapshot : content) : M unit :=
  modify (updTarget b (show snapshot)).

(** [restoreFromCache(tabId)] *)
Definition restoreFromCache (tabId : Z) : M bool :=
  cached ← gets (λ w, tabCache w !! tabId);
  match cached with
  | None => mret false
  | Some cached =>
      modify (set_extractedPageData (cPageData cached)) ;;
      showPageInfo (cPageData cached) ;;
      match orNull (cTldr cached) with
      | Some tldr => renderMarkdownSafe tldr tldrContent
      | None => clearElement tldrContent
      end ;;
      match orNull (cKeyPoints cached) with
      | Some kp => renderKeyPointsWithImportance kp keyPointsContent
      | None => clearElement keyPointsContent
      end ;;
      match cQuizHtml cached with
      | Some html => if hasChildNodes html then setInnerHTML quizContent html
                     else clearElement quizContent
      | None => clearElement quizContent
      end ;;
      match cDialogueHtml cached with
      | Some html => if hasChildNodes html then setInnerHTML dialogueContent html
                     else clearElement dialogueContent
      | None => clearElement dialogueContent
      end ;;
      match cChatHtml cached with
      | Some (b :: bs) => modify (set_chatHistory (b :: bs))
      | _ => modify (set_chatHistory [])
      end ;;
      mret true
  end.

(** [clearResults()] *)
Definition clearResults : M unit :=
  clearElement tldrContent ;;
  clearElement keyPointsContent ;;
  hideStatus.

(** [showFreshState()] *)
Definition showFreshState : M unit :=
  modify (set_extractedPageData None) ;;
  clearResults ;;
  modify (set_pageInfo None) ;;
  modify (set_chatHistory []) ;;
  clearElement quizContent ;;
  clearElement dialogueContent.

(** [isAccessibleUrl(url)] *)
Definition isAccessibleUrl (url : option jsstring) : bool :=
  match url with
  | Some u => truthy u && (startsWith u (js "http://") || startsWith u (js "https://"))
  | None => false
  end.

Section WithEnv.
Variable E : env.

Definition inaccessibleNotice : jsstring :=
  message E "inaccessiblePage"
    "Cannot access this page. Summary is not available for browser internal pages.".

(** [updateTabAccessibility(tabId)] *)
Definition updateTabAccessibility (tabId : Z) : M bool :=
  blocked ← tryCatch
    (tabUrlNow ← await (tabUrl E tabId);
     if negb (isAccessibleUrl tabUrlNow) then
       setDisabled TLDR true ;;
       setDisabled KEYPOINTS true ;;
       showStatus (js "info") inaccessibleNotice ;;
       mret true
     else mret false)
    (λ _, setDisabled TLDR true ;; setDisabled KEYPOINTS true ;; mret true);
  if blocked : bool then mret false
  else
    setDisabled TLDR false ;;
    setDisabled KEYPOINTS false ;;
    hideStatus ;;
    mret true.

(** The extraction that follows a fresh state: the page data are kept
    as they come, and shown when they have a text. *)
Definition extractForNewTab : M unit :=
  tryCatch
    (data ← extractText E;
     modify (set_extractedPageData data) ;;
     match data with
     | Some d => if truthy (text d) then showPageInfo (Some d) else mret tt
     | None => mret tt
     end)
    (λ _, mret tt).

(** [switchToTab(tabId)] *)
Definition switchToTab (tabId : Z) : M unit :=
  current ← gets currentTabId;
  if bool_decide (current = Some tabId) then mret tt
  else
    saveCurrentTabQuizChat current ;;
    modify (set_currentTabId (Some tabId)) ;;
    busy ← gets isSummarizing;
    if busy : bool then mret tt
    else
      accessible ← updateTabAccessibility tabId;
      if negb accessible then showFreshState
      else
        restored ← restoreFromCache tabId;
        if restored : bool then mret tt
        else showFreshState ;; extractForNewTab.

(** The [chrome.tabs.onUpdated] listener; [changedUrl] is
    [changeInfo.url]. *)
Definition onUpdated (tabId : Z) (changedUrl : option jsstring) : M unit :=
  if present changedUrl then
    modify (λ w, set_tabCache (delete tabId (tabCache w)) w) ;;
    current ← gets currentTabId;
    if bool_decide (current = Some tabId) then
      showFreshState ;;
      if negb (isAccessibleUrl changedUrl) then
        setDisabled TLDR true ;;
        setDisabled KEYPOINTS true ;;
        showStatus (js "info") inaccessibleNotice
      else
        setDisabled TLDR false ;;
        setDisabled KEYPOINTS false ;;
        hideStatus ;;
        tryCatch
          (data ← extractText E;
           match data with
           | Some d => if truthy (text d)
                       then modify (set_extractedPageData (Some d)) ;; showPageInfo (Some d)
                       else mret tt
           | None => mret tt
           end)
          (λ _, mret tt)
    else mret tt
  else mret tt.

(** The [chrome.tabs.onRemoved] listener. *)
Definition onRemoved (tabId : Z) : M unit :=
  modify (λ w, set_tabCache (delete tabId (tabCache w)) w).

End WithEnv.
End TabCache.
Export TabCache.

(* ===================================================================== *)
(** ** The generation handlers *)
(* ===================================================================== *)

Module Handlers.

(** [config.TEXT_LIMITS.PROMPT_API_MAX_CHARS] *)
Definition PROMPT_API_MAX_CHARS : nat := 4000.

(** A [replace] whose pattern is a bracketed alternative of literal
    words under the [g] and [i] flags: the length of the match at the
    head of [s]. *)
Definition bracketedAt (words : list jsstring) (s : jsstring) : option nat :=
  match s with
  | c :: r =>
      if c =? LBRACKET then
        (λ w, (length w + 2)%nat) <$>
          List.find (λ w, bool_decide (toUpperCaseAscii (take (length w) r) = toUpperCaseAscii w)
                          && bool_decide (take 1 (drop (length w) r) = [RBRACKET]))
                    words
      else None
  | [] => None
  end.

Fixpoint replaceBracketedFrom (words : list jsstring) (replacement : jsstring)
    (skip : nat) (s : jsstring) : jsstring :=
  match s with
  | [] => []
  | c :: s' =>
      match skip with
      | S k => replaceBracketedFrom words replacement k s'
      | O =>
          match bracketedAt words s with
          | Some len => replacement ++ replaceBracketedFrom words replacement (len - 1) s'
          | None => c :: replaceBracketedFrom words replacement 0 s'
          end
      end
  end.

Definition replaceBracketed (words : list jsstring) (replacement s : jsstring) : jsstring :=
  replaceBracketedFrom words replacement 0 s.

(** [repairImportanceTags(text)] *)
Definition repairImportanceTags (text : jsstring) : jsstring :=
  replaceBracketed [js "BAJO"; js "BAJA"] (js "[LOW]")
    (replaceBracketed [js "MEDIO"; js "MEDIA"] (js "[MEDIUM]")
      (replaceBracketed [js "ALTO"; js "ALTA"] (js "[HIGH]")
        (replaceBracketed [js "低"; js "低い"; js "ロー"; js "重要度低"; js "Low"] (js "[LOW]")
          (replaceBracketed [js "中"; js "中程度"; js "ミディアム"; js "標準"; js "重要度中"; js "Medium"]
                            (js "[MEDIUM]")
            (replaceBracketed [js "高"; js "高い"; js "ハイ"; js "重要"; js "重要度高"; js "High"]
                              (js "[HIGH]") text))))).

(** The text shown when a generation was cancelled. *)
Definition CANCELLED : jsstring := js "Generation cancelled".

(** [err.message || fallback] *)
Definition messageOr (err : error) (fallback : string) : jsstring :=
  match errMessage err with
  | Some m => if truthy m then m else js fallback
  | None => js fallback
  end.

(** [config.LANGUAGE_NAMES_FOR_PROMPT[lang] || 'English'] *)
Definition languageNameForPrompt (lang : jsstring) : jsstring :=
  if bool_decide (lang = js "ja") then js "Japanese"
  else if bool_decide (lang = js "es") then js "Spanish"
  else js "English".

(** The text cut for the prompt interface. *)
Definition promptTextOf (text : jsstring) : jsstring :=
  if (PROMPT_API_MAX_CHARS <? length text)%nat
  then substring0 text PROMPT_API_MAX_CHARS ++ TRUNCATION_SUFFIX
  else text.

Definition keyPointsPrompt (sharedContext promptText : jsstring) : jsstring :=
  js "Summarize the following text as key points (3-7 bullet points)." ++
  [LF] ++ js "Each bullet MUST start with an importance tag: [HIGH], [MEDIUM], or [LOW]." ++
  [LF] ++ js "Format: - [HIGH] Most important point here" ++ [LF; LF] ++
  sharedContext ++
  [LF; LF] ++ js "Text:" ++ [LF] ++ promptText.

Definition quizPrompt (quizLangEN pageText : jsstring) : jsstring :=
  js "Generate exactly 3 comprehension questions with short answers in " ++ quizLangEN ++
  js "." ++ [LF] ++
  js "Format each Q&A pair on its own line like this:" ++ [LF] ++
  js "Q1: [question]" ++ [LF] ++
  js "A1: [answer]" ++ [LF] ++
  js "Q2: [question]" ++ [LF] ++
  js "A2: [answer]" ++ [LF] ++
  js "Q3: [question]" ++ [LF] ++
  js "A3: [answer]" ++ [LF; LF] ++
  js "Text:" ++ [LF] ++ substring0 pageText 5000.

Definition langInstruction (resolvedLang : jsstring) : jsstring :=
  if bool_decide (resolvedLang = js "ja") then
    js "重要: すべての対話を日本語で生成してください。登場人物名も日本語の役割名（例: 開発者、批評家、記者）を使用してください。" ++ [LF; LF]
  else if bool_decide (resolvedLang = js "es") then
    js "Importante: Genera todo el diálogo en español. Usa nombres de roles en español (ejemplo: Desarrollador, Crítico, Periodista)." ++ [LF; LF]
  else
    js "Important: Generate all dialogue in English. Use role names in English (example: Developer, Critic, Reporter)." ++ [LF; LF].

Definition QUOTE : jsstring := [34].

Definition dialoguePrompt (resolvedLang pageTitle pageText : jsstring) : jsstring :=
  langInstruction resolvedLang ++
  js "Read the following page content and create a dialogue between 2 characters." ++ [LF; LF] ++
  js "【Character Selection - CRITICAL】" ++ [LF] ++
  js "1. FIRST: Extract ACTUAL PARTICIPANTS from the article (people, entities, or agents directly involved in the story)" ++ [LF] ++
  js "   - Personal experience/incident → " ++ QUOTE ++ js "筆者" ++ QUOTE ++ js " (Author) vs the other party mentioned" ++ [LF] ++
  js "   - Interview → " ++ QUOTE ++ js "インタビュアー" ++ QUOTE ++ js " vs " ++ QUOTE ++ js "被インタビュアー" ++ QUOTE ++ js " (or their actual names/roles)" ++ [LF] ++
  js "   - Debate/controversy → The two opposing parties by their actual roles" ++ [LF] ++
  js "   - AI incident → " ++ QUOTE ++ js "筆者" ++ QUOTE ++ js " vs " ++ QUOTE ++ js "AI" ++ QUOTE ++ js " (or specific AI agent name if mentioned)" ++ [LF] ++
  js "   - Company announcement → " ++ QUOTE ++ js "企業" ++ QUOTE ++ js " vs " ++ QUOTE ++ js "ユーザー" ++ QUOTE ++ js " (using actual company name if clear)" ++ [LF] ++
  [LF] ++
  js "2. ONLY if no clear participants exist (pure technical/analytical article):" ++ [LF] ++
  js "   - Fall back to observer roles: " ++ QUOTE ++ js "開発者" ++ QUOTE ++ js " vs " ++ QUOTE ++ js "批評家" ++ QUOTE ++ js ", " ++ QUOTE ++ js "記者" ++ QUOTE ++ js " vs " ++ QUOTE ++ js "専門家" ++ QUOTE ++ js ", etc." ++ [LF] ++
  [LF] ++
  js "3. Use SPECIFIC role names from the article context (NOT generic " ++ QUOTE ++ js "Kenji" ++ QUOTE ++ js " or " ++ QUOTE ++ js "Aiko" ++ QUOTE ++ js ")" ++ [LF] ++
  js "   - Example: If article mentions " ++ QUOTE ++ js "Scott" ++ QUOTE ++ js " and " ++ QUOTE ++ js "AI agent" ++ QUOTE ++ js ", use " ++ QUOTE ++ js "筆者" ++ QUOTE ++ js " and " ++ QUOTE ++ js "AI" ++ QUOTE ++ [LF] ++
  js "   - Example: If article is by a CEO, use " ++ QUOTE ++ js "CEO" ++ QUOTE ++ js " instead of generic " ++ QUOTE ++ js "筆者" ++ QUOTE ++ [LF; LF] ++
  js "【Dialogue Requirements】" ++ [LF] ++
  js "- 【Opening】First line must be an impactful statement that hooks the reader" ++ [LF] ++
  js "- Each line: short (1-2 sentences, max 50 chars)" ++ [LF] ++
  js "- Tempo: fast, comic" ++ [LF] ++
  js "- 10-15 exchanges" ++ [LF] ++
  js "- Cover all key points from the article" ++ [LF] ++
  js "- 【Ending】Close with humor or memorable conclusion" ++ [LF] ++
  js "- IMPORTANT: Characters should speak FROM THEIR PERSPECTIVE (not as third-party observers)" ++ [LF; LF] ++
  js "【Output Format】" ++ [LF] ++
  js "役割名1: [セリフ]" ++ [LF] ++
  js "役割名2: [セリフ]" ++ [LF] ++
  js "..." ++ [LF; LF] ++
  js "Page Title: " ++ pageTitle ++ [LF; LF] ++
  js "Page Content:" ++ [LF] ++ substring0 pageText 5000.

(** [String(err)] for an error without a message, and
    [getErrorMessage(err)]. *)
Section Messages.
Variable E : env.

Definition getErrorMessage (err : error) : jsstring :=
  let msg := match errMessage err with
             | Some m => if truthy m then m else errName err
             | None => errName err
             end in
  if bool_decide (msg = js "notEnoughText") then
    message E "notEnoughText" "This page does not have enough text to summarize."
  else if bool_decide (msg = js "inaccessiblePage") then
    message E "inaccessiblePage" "Cannot access this page."
  else if bool_decide (msg = js "noActiveTab") then
    message E "noActiveTab" "No active tab found."
  else if bool_decide (msg = js "extractionFailed") then js "Failed to extract page text."
  else msg.
End Messages.

End Handlers.
Export Handlers.

Module Generation.
Section WithEnv.
Variable E : env.

(** [getOutputLanguage(pageLang)] with the selector read from the
    document. *)
Definition outputLanguageFor (pageLang : option jsstring) : M jsstring :=
  selected ← gets langSelect;
  mret (getOutputLanguage selected pageLang).

(** [extractedPageData.field] where the variable may be [null]. *)
Definition currentPage : M pageData :=
  page ← gets extractedPageData;
  match page with
  | Some d => mret d
  | None => throw (Err (js "TypeError")
                       (Some (js "Cannot read properties of null")))
  end.

(** The first lines of a handler once it is not a cancellation: flag,
    controller, button and loading indicator. *)
Definition startSlot (s : slotId) (b : box) : M unit :=
  setGenerating s true ;;
  c ← newAbortController;
  setAbortController s (Some c) ;;
  setLabel s (message E "cancelBtn" "Cancel") ;;
  setDisabled s false ;;
  clearElement b ;;
  showSectionLoading b.

(** The [if (!pageData)] block of a handler. *)
Definition noPageData (s : slotId) (b : box) (idle : jsstring) : M unit :=
  clearElement b ;;
  setTextContent b (message E "notEnoughText" "Not enough text content.") ;;
  setLabel s idle ;;
  setDisabled s false ;;
  setGenerating s false ;;
  setAbortController s None.

(** The [finally] block of a handler. *)
Definition resetSlot (s : slotId) (idle : jsstring) : M unit :=
  setLabel s idle ;;
  setDisabled s false ;;
  setGenerating s false ;;
  setAbortController s None.

(** [if (controller) { controller.abort(); controller = null; }] *)
Definition abortSlot (s : slotId) : M unit :=
  c ← gets (λ w, abortController w s);
  match c with
  | Some c => abort c ;; setAbortController s None
  | None => mret tt
  end.

(** The branch of a handler taken while its generation runs, with the
    text it puts into the box. *)
Definition cancelSlot (s : slotId) (b : box) (shownText idle : jsstring) : M unit :=
  abortSlot s ;;
  clearElement b ;;
  setTextContent b shownText ;;
  setLabel s idle ;;
  setDisabled s false ;;
  setGenerating s false.

(** The [catch] block of a box handler: [recognise] is its
    cancellation test and [errorText] what it shows otherwise. *)
Definition catchSlot (recognise : error → bool) (b : box) (errorText : error → jsstring)
    (err : error) : M unit :=
  if recognise err then
    clearElement b ;;
    setTextContent b CANCELLED
  else
    clearElement b ;;
    setTextContent b (errorText err).

(** *** TL;DR *)

Definition tldrIdleLabel : jsstring := message E "generateTldrBtn" "Generate TL;DR".

(** The cancellation branch of [handleGenerateTldr]. *)
Definition cancelTldr : M unit :=
  cancelSlot TLDR tldrContent (message E "notEnoughText" "Generation cancelled")
             tldrIdleLabel.

(** The arguments of the [runSummarizer] call of [handleGenerateTldr],
    evaluated inside its [try]. *)
Definition tldrRequest (outputLang sharedContext : jsstring) : M (options * jsstring) :=
  controller ← gets tldrAbortController;
  signal ← signalOf controller;
  page ← currentPage;
  mret (Options (js "tldr") outputLang sharedContext (Some signal), text page).

Definition catchTldr : error → M unit :=
  catchSlot isAborted tldrContent
            (λ err, js "Error: " ++ messageOr err "Failed to generate TL;DR").

(** [try { body } catch (err) { ... } finally { ... }] of
    [handleGenerateTldr]. *)
Definition guardTldr (body : M unit) : M unit :=
  tryFinally (tryCatch body catchTldr) (resetSlot TLDR tldrIdleLabel).

(** What follows [await runSummarizer(...)] inside the [try]. *)
Definition storeTldr (tldrResult : option jsstring) : M unit :=
  updateCache (withTldr tldrResult).

Definition tldrBody (outputLang sharedContext : jsstring) : M unit :=
  request ← tldrRequest outputLang sharedContext;
  tldrResult ← runSummarizer E (fst request) (snd request) tldrContent;
  storeTldr tldrResult.

(** [handleGenerateTldr()] *)
Definition handleGenerateTldr : M unit :=
  running ← gets isSummarizingTldr;
  if running : bool then cancelTldr
  else
    startSlot TLDR tldrContent ;;
    pageData ← ensurePageData E;
    match pageData with
    | None => noPageData TLDR tldrContent tldrIdleLabel
    | Some _ =>
        page ← currentPage;
        outputLang ← outputLanguageFor (Some (lang page));
        guardTldr (tldrBody outputLang (js "Page title: " ++ title page))
    end.

(** *** Key points *)

Definition keyPointsIdleLabel : jsstring :=
  message E "generateKeyPointsBtn" "Generate Key Points".

Definition cancelKeyPoints : M unit :=
  cancelSlot KEYPOINTS keyPointsContent CANCELLED keyPointsIdleLabel.

(** The summarizer path of [handleGenerateKeyPoints]: the fallback of
    the inner [catch], and the branch without the prompt interface. *)
Definition keyPointsViaSummarizer (outputLang sharedContext : jsstring) : M unit :=
  controller ← gets keyPointsAbortController;
  page ← currentPage;
  kpResult ← runSummarizer E
               (Options (js "key-points") outputLang sharedContext controller)
               (text page) keyPointsContent;
  updateCache (withKeyPoints kpResult).

(** The optional translation of the key points. *)
Definition translateKeyPoints (outputLang keyPointsResult : jsstring) : M jsstring :=
  if bool_decide (outputLang ≠ js "en") && truthy keyPointsResult && translatorApi E then
    if looksLikeEnglish keyPointsResult then
      showTranslatingIndicator keyPointsContent ;;
      translateKeyPointsIfNeeded E keyPointsResult outputLang
    else mret keyPointsResult
  else mret keyPointsResult.

(** The body of the outer [try] of [handleGenerateKeyPoints]. *)
Definition keyPointsBody (outputLang sharedContext : jsstring) : M unit :=
  if hasLanguageModel E then
    page ← currentPage;
    let kpPrompt := keyPointsPrompt sharedContext (promptTextOf (text page)) in
    tryCatch
      (controller ← gets keyPointsAbortController;
       generated ← runPromptApi E (js "You are a summarization assistant.") kpPrompt
                     keyPointsContent (js "en") controller;
       translated ← translateKeyPoints outputLang generated;
       let keyPointsResult := repairImportanceTags translated in
       renderKeyPointsWithImportance keyPointsResult keyPointsContent ;;
       updateCache (withKeyPoints (Some keyPointsResult)))
      (λ err,
         if bool_decide (errMessage err = Some (js "AbortError")) then throw err
         else keyPointsViaSummarizer outputLang sharedContext)
  else keyPointsViaSummarizer outputLang sharedContext.

Definition catchKeyPoints : error → M unit :=
  catchSlot isAborted keyPointsContent
            (λ err, js "Error: " ++ messageOr err "Failed to generate key points").

Definition guardKeyPoints (body : M unit) : M unit :=
  tryFinally (tryCatch body catchKeyPoints) (resetSlot KEYPOINTS keyPointsIdleLabel).

(** [handleGenerateKeyPoints()] *)
Definition handleGenerateKeyPoints : M unit :=
  running ← gets isSummarizingKeyPoints;
  if running : bool then cancelKeyPoints
  else
    startSlot KEYPOINTS keyPointsContent ;;
    pageData ← ensurePageData E;
    match pageData with
    | None => noPageData KEYPOINTS keyPointsContent keyPointsIdleLabel
    | Some _ =>
        page ← currentPage;
        outputLang ← outputLanguageFor (Some (lang page));
        guardKeyPoints (keyPointsBody outputLang (js "Page title: " ++ title page))
    end.

(** *** Quiz *)

Definition quizIdleLabel : jsstring := message E "quizGenerateBtn" "Generate Quiz".

Definition cancelQuiz : M unit := cancelSlot QUIZ quizContent CANCELLED quizIdleLabel.

(** [extractedPageData.lang || null] *)
Definition pageLangOf (page : pageData) : option jsstring :=
  if truthy (lang page) then Some (lang page) else None.

(** The language named in the prompt. *)
Definition promptLanguage (resolvedLang : jsstring) : M jsstring :=
  selected ← gets langSelect;
  mret (if bool_decide (selected ≠ js "auto") then languageNameForPrompt resolvedLang
        else js "the same language as the text").

(** The body of the outer [try] of [handleGenerateQuiz]. *)
Definition quizBody (quizLangEN : jsstring) : M unit :=
  controller ← gets quizAbortController;
  _ ← signalOf controller;
  session ← create E LanguageModelSession;
  tryFinally
    (page ← currentPage;
     let question := quizPrompt quizLangEN (text page) in
     controller ← gets quizAbortController;
     _ ← signalOf controller;
     result ← prompt E session question;
     match result with
     | Some r => if truthy r then renderQuiz r else mret tt
     | None => mret tt
     end)
    (destroy session).

Definition catchQuiz : error → M unit :=
  catchSlot isAbortedByNameOrWording quizContent
            (λ err, js "Quiz generation failed: " ++ default (js "undefined") (errMessage err)).

Definition guardQuiz (body : M unit) : M unit :=
  tryFinally (tryCatch body catchQuiz) (resetSlot QUIZ quizIdleLabel).

(** [handleGenerateQuiz()] *)
Definition handleGenerateQuiz : M unit :=
  if negb (hasLanguageModel E) then mret tt
  else
    running ← gets isGeneratingQuiz;
    if running : bool then cancelQuiz
    else
      startSlot QUIZ quizContent ;;
      pageData ← ensurePageData E;
      match pageData with
      | None => noPageData QUIZ quizContent quizIdleLabel
      | Some _ =>
          page ← currentPage;
          resolvedLang ← outputLanguageFor (pageLangOf page);
          quizLangEN ← promptLanguage resolvedLang;
          guardQuiz (quizBody quizLangEN)
      end.

(** *** Dialogue *)

Definition dialogueIdleLabel : jsstring :=
  message E "dialogueGenerateBtn" "Generate Dialogue".

Definition cancelDialogue : M unit :=
  cancelSlot DIALOGUE dialogueContent CANCELLED dialogueIdleLabel.

(** [if (currentTabId && tabCache[currentTabId])
     tabCache[currentTabId].dialogue = result;] *)
Definition storeDialogue (result : jsstring) : M unit :=
  modify (λ w,
    match liveTab (currentTabId w) with
    | Some tab =>
        match tabCache w !! tab with
        | Some entry =>
            set_tabCache (<[tab := withDialogue (Some result) entry]> (tabCache w)) w
        | None => w
        end
    | None => w
    end).

Definition dialogueBody (resolvedLang : jsstring) : M unit :=
  controller ← gets dialogueAbortController;
  _ ← signalOf controller;
  session ← create E LanguageModelSession;
  tryFinally
    (page ← currentPage;
     let script := dialoguePrompt resolvedLang (title page) (text page) in
     controller ← gets dialogueAbortController;
     _ ← signalOf controller;
     result ← prompt E session script;
     match result with
     | Some r => if truthy r then renderDialogue r ;; storeDialogue r else mret tt
     | None => mret tt
     end)
    (destroy session).

Definition catchDialogue : error → M unit :=
  catchSlot isAbortedByNameOrWording dialogueContent
            (λ err, js "Dialogue generation failed: "
                    ++ default (js "undefined") (errMessage err)).

Definition guardDialogue (body : M unit) : M unit :=
  tryFinally (tryCatch body catchDialogue) (resetSlot DIALOGUE dialogueIdleLabel).

(** [handleGenerateDialogue()] *)
Definition handleGenerateDialogue : M unit :=
  if negb (hasLanguageModel E) then mret tt
  else
    running ← gets isGeneratingDialogue;
    if running : bool then cancelDialogue
    else
      startSlot DIALOGUE dialogueContent ;;
      pageData ← ensurePageData E;
      match pageData with
      | None => noPageData DIALOGUE dialogueContent dialogueIdleLabel
      | Some _ =>
          page ← currentPage;
          resolvedLang ← outputLanguageFor (pageLangOf page);
          guardDialogue (dialogueBody resolvedLang)
      end.

(** *** Chat *)

Definition askLabel : jsstring := message E "askButton" "Ask".

(** [el.chatHistory.removeChild(lastBubble)] when the last bubble is
    an assistant bubble. *)
Definition removeLastAssistant (history : list bubble) : list bubble :=
  match reverse history with
  | AssistantBubble _ _ :: before => reverse before
  | _ => history
  end.

Definition isBubble (ref : nat) (b : bubble) : bool :=
  match b with
  | AssistantBubble (Some r) _ => bool_decide (r = ref)
  | _ => false
  end.

(** [assistantBubble.parentNode.removeChild(assistantBubble)] when
    the bubble is still in the chat. *)
Definition removeBubble (ref : nat) : M unit :=
  modify (λ w, set_chatHistory (filter (λ b, isBubble ref b = false) (chatHistory w)) w).

(** The cancellation branch of [handleCustomPrompt]. *)
Definition cancelCustomPrompt : M unit :=
  abortSlot CHAT ;;
  modify (λ w, set_chatHistory (removeLastAssistant (chatHistory w)) w) ;;
  setLabel CHAT askLabel ;;
  setDisabled CHAT false ;;
  setGenerating CHAT false.

(** The context handed to the model with the question. *)
Definition contextParts (page : pageData) (isPageEnglish : bool)
    (tldrText kpText : option jsstring) : list jsstring :=
  let summaries :=
    match orNull tldrText with Some t => [js "Summary: " ++ t] | None => [] end ++
    match orNull kpText with Some k => [js "Key points: " ++ k] | None => [] end in
  if isPageEnglish then
    summaries ++ [js "Page content:" ++ [LF] ++ promptTextOf (text page)]
  else
    let excerptLen := if present tldrText || present kpText then 800%nat else 2000%nat in
    let excerpt := substring0 (text page) excerptLen in
    summaries ++ (if truthy excerpt then [js "Page excerpt:" ++ [LF] ++ excerpt] else []).

(** The answer path that translates: the inner [try] of the branch
    [needsTranslation]. *)
Definition answerTranslated (response outputLang : jsstring) (out : target) : M unit :=
  if negb (truthy response) then mret tt
  else if negb (looksLikeEnglish response) then renderMarkdownSafe response out
  else
    tryCatch
      (showTranslatingIndicator out ;;
       translated ← translateIfNeeded E response outputLang;
       if truthy translated && negb (bool_decide (translated = response))
       then renderMarkdownSafe translated out
       else renderMarkdownSafe response out)
      (λ _, renderMarkdownSafe response out).

(** The body of the [try] of [handleCustomPrompt]. *)
Definition customPromptBody (promptText : jsstring) (out : target) : M unit :=
  if negb (hasLanguageModel E) then
    setTextContent out (js "LanguageModel API is not available.")
  else
    pageData ← ensurePageData E;
    match pageData with
    | None => setTextContent out (message E "notEnoughText" "Not enough text content.")
    | Some page =>
        let pageLang := pageLangOf page in
        let pageLangBase := (λ l, toLowerCase (hd [] (split HYPHEN l))) <$> pageLang in
        outputLang ← outputLanguageFor pageLang;
        let isPageEnglish :=
          negb (present pageLangBase) || bool_decide (pageLangBase = Some (js "en")) in
        let systemPrompt :=
          js "You are a helpful assistant. Answer based on the provided web page content." in
        tldrText ← gets (λ w, rawText (boxes w tldrContent));
        kpText ← gets (λ w, rawText (boxes w keyPointsContent));
        let fullPrompt :=
          join [LF; LF] (contextParts page isPageEnglish tldrText kpText)
          ++ [LF; LF] ++ js "Question: " ++ promptText in
        let needsTranslation := bool_decide (outputLang ≠ js "en") && translatorApi E in
        controller ← gets customPromptAbortController;
        signal ← signalOf controller;
        if needsTranslation then
          response ← runPromptApi E systemPrompt fullPrompt out (js "en") (Some signal);
          answerTranslated response outputLang out
        else if bool_decide (outputLang ≠ js "en") && negb (translatorApi E) then
          _ ← runPromptApi E systemPrompt fullPrompt out outputLang (Some signal);
          mret tt
        else
          _ ← runPromptApi E systemPrompt fullPrompt out (js "en") (Some signal);
          mret tt
    end.

Definition catchCustomPrompt (assistantBubble : nat) (err : error) : M unit :=
  if isAbortedByNameOrWording err then removeBubble assistantBubble
  else setTextContent (responseContent assistantBubble) (getErrorMessage E err).

Definition guardCustomPrompt (assistantBubble : nat) (body : M unit) : M unit :=
  tryFinally (tryCatch body (catchCustomPrompt assistantBubble))
             (resetSlot CHAT askLabel).

(** [handleCustomPrompt()] *)
Definition handleCustomPrompt : M unit :=
  running ← gets isAnsweringCustomPrompt;
  if running : bool then cancelCustomPrompt
  else
    typed ← gets customPromptInput;
    let promptText := trim typed in
    if negb (truthy promptText) then mret tt
    else
      setGenerating CHAT true ;;
      c ← newAbortController;
      setAbortController CHAT (Some c) ;;
      modify (λ w, set_chatHistory (chatHistory w ++ [UserBubble promptText]) w) ;;
      modify (set_customPromptInput []) ;;
      setLabel CHAT (message E "cancelBtn" "Cancel") ;;
      setDisabled CHAT false ;;
      assistantBubble ← (λ w, (Ok (nodes w), set_nodes (S (nodes w)) w));
      modify (λ w, set_chatHistory
                     (chatHistory w ++ [AssistantBubble (Some assistantBubble)
                                                       (Elem Cleared None)]) w) ;;
      showSectionLoading (responseContent assistantBubble) ;;
      guardCustomPrompt assistantBubble
        (customPromptBody promptText (responseContent assistantBubble)).

End WithEnv.
End Generation.
Export Generation.

(* ===================================================================== *)
(** ** The rendering of answers: quiz, dialogue and markdown *)
(* ===================================================================== *)

Module Render.

Definition isDigit (c : N) : bool := (48 <=? c) && (c <=? 57).

(** The character class [[:：]]: the colon and the full-width colon. *)
Definition isColon (c : N) : bool := (c =? 58) || (c =? 65306).

(** [\s*(.+)] at the head of [s], to the end of the pattern: the
    group.  The white space is taken greedily and the group runs to
    the first line terminator; when nothing follows the white space,
    the white space is given back up to its last unit that is no line
    terminator, which is then the group. *)
Definition spacesThenSome (s : jsstring) : option jsstring :=
  let '(ws, r) := span isSpace s in
  match restOfLine r with
  | (_ :: _) as g => Some g
  | [] =>
      match List.find (λ c, negb (isLineTerminator c)) (reverse ws) with
      | Some c => Some [c]
      | None => None
      end
  end.

(** *** [renderQuiz] *)

(** [line.match(/^Q\d+[:：]\s*(.+)/i)] and the same with [A], for
    [letter] the capital: the group. *)
Definition labelled (letter : N) (line : jsstring) : option jsstring :=
  match line with
  | c :: r =>
      if (c =? letter) || (c =? letter + 32) then
        let '(digits, r1) := span isDigit r in
        if bool_decide (digits = []) then None
        else match r1 with
             | colon :: r2 => if isColon colon then spacesThenSome r2 else None
             | [] => None
             end
      else None
  | [] => None
  end.

Definition qMatch : jsstring → option jsstring := labelled 81.
Definition aMatch : jsstring → option jsstring := labelled 65.

(** [text.split('\n').map(function (l) { return l.trim(); }).filter(Boolean)] *)
Definition trimmedLines (text : jsstring) : list jsstring :=
  List.filter truthy (trim <$> split LF text).

(** An element of [questions]. *)
Record question := Question { questionText : jsstring; answerText : option jsstring }.

(** One turn of the first loop of [renderQuiz].  [currentQ] is the
    index in [questions] of the object the variable refers to. *)
Definition quizStep (st : list question * option nat) (line : jsstring)
  : list question * option nat :=
  let '(questions, currentQ) := st in
  match qMatch line with
  | Some q => (questions ++ [Question q None], Some (length questions))
  | None =>
      match aMatch line, currentQ with
      | Some a, Some i =>
          (alter (λ q, Question (questionText q) (Some a)) i questions, None)
      | _, _ => (questions, currentQ)
      end
  end.

Definition questionsOf (quizText : jsstring) : list question :=
  fst (fold_left quizStep (trimmedLines quizText) ([], None)).

(** A card of the quiz: the number shown, the question and the text of
    the answer ([questions[j].answer || '—']). *)
Record card := Card { cardNumber : nat; cardQuestion : jsstring; cardAnswer : jsstring }.

Definition cardOf (j : nat) (q : question) : card :=
  Card (S j) (questionText q)
       match answerText q with
       | Some a => if truthy a then a else js "—"
       | None => js "—"
       end.

(** What [renderQuiz] and [renderDialogue] leave in their box. *)
Inductive rendering (A : Type) :=
| CouldNotParse (notice : jsstring)
| Parsed (children : list A).
Arguments CouldNotParse {A} notice.
Arguments Parsed {A} children.

(** [renderQuiz(quizText)]: the children of the quiz box. *)
Definition quizCards (quizText : jsstring) : rendering card :=
  match questionsOf quizText with
  | [] => CouldNotParse (js "Could not parse quiz format.")
  | questions => Parsed (imap cardOf questions)
  end.

(** *** [renderDialogue] *)

(** [line.match(/^([^:：]+)[:：]\s*(.+)/)]: the two groups. *)
Definition speakerMatch (line : jsstring) : option (jsstring * jsstring) :=
  let '(name, r) := span (λ c, negb (isColon c)) line in
  if bool_decide (name = []) then None
  else match r with
       | _ :: r1 => (λ g, (name, g)) <$> spacesThenSome r1
       | [] => None
       end.

(** A bubble of the dialogue. *)
Record dialogueLine := DialogueLine { speakerText : jsstring; messageText : jsstring }.

(** [renderDialogue(dialogueText)]: the children of the dialogue box. *)
Definition dialogueBubbles (dialogueText : jsstring) : rendering dialogueLine :=
  match omap (λ l, (λ m, DialogueLine (trim (fst m)) (trim (snd m))) <$> speakerMatch l)
             (trimmedLines dialogueText) with
  | [] => CouldNotParse (js "Could not parse dialogue format.")
  | bubbles => Parsed bubbles
  end.

(** *** [renderMarkdownSafe] and [appendInlineFormatted] *)

(** A node appended by [appendInlineFormatted]. *)
Inductive inline :=
| TextNode (s : jsstring)
| Strong (s : jsstring)
| Em (s : jsstring).

(** The lazy group [(.+?)] followed by [close]. *)
Fixpoint lazyGroup (close s : jsstring) : option jsstring :=
  match s with
  | [] => None
  | c :: s' =>
      if isLineTerminator c then None
      else if startsWith s' close then Some [c]
      else (λ g, c :: g) <$> lazyGroup close s'
  end.

(** The pattern of [appendInlineFormatted] at the head of [s]: two
    stars, a lazy group and two stars, or else one star, a lazy group
    and one star.  The node made of the match and the length of the
    match. *)
Definition inlineAt (s : jsstring) : option (inline * nat) :=
  match s with
  | a :: r =>
      if a =? STAR then
        match match r with
              | b :: r' => if b =? STAR then lazyGroup [STAR; STAR] r' else None
              | [] => None
              end with
        | Some g => Some (Strong g, (length g + 4)%nat)
        | None =>
            match lazyGroup [STAR] r with
            | Some g => Some (Em g, (length g + 2)%nat)
            | None => None
            end
        end
      else None
  | [] => None
  end.

(** [document.createTextNode(text.substring(lastIndex, index))] when
    [index > lastIndex]. *)
Definition textNode (between : jsstring) : list inline :=
  if truthy between then [TextNode between] else [].

(** The loop of [appendInlineFormatted]: [skip] counts the code units
    of the current match still to pass, [between] is the text since
    [lastIndex]. *)
Fixpoint inlineFrom (skip : nat) (between s : jsstring) : list inline :=
  match s with
  | [] => textNode between
  | c :: s' =>
      match skip with
      | S k => inlineFrom k between s'
      | O =>
          match inlineAt s with
          | Some (node, len) => textNode between ++ node :: inlineFrom (len - 1) [] s'
          | None => inlineFrom 0 (between ++ [c]) s'
          end
      end
  end.

(** [appendInlineFormatted(parent, text)]: the children appended. *)
Definition inlineNodes (text : jsstring) : list inline := inlineFrom 0 [] text.

(** A child of the container of [renderMarkdownSafe]. *)
Inductive block :=
| Paragraph (nodes : list inline)
| BulletList (items : list (list inline)).

(** [if (currentList) { container.appendChild(currentList); }] *)
Definition flush (currentList : option (list (list inline))) : list block :=
  match currentList with
  | Some items => [BulletList items]
  | None => []
  end.

(** One turn of the loop of [renderMarkdownSafe]. *)
Definition blockStep (st : list block * option (list (list inline))) (l : jsstring)
  : list block * option (list (list inline)) :=
  let '(blocks, currentList) := st in
  let trimmed := trim l in
  if negb (truthy trimmed) then (blocks ++ flush currentList, None)
  else
    match listMatch trimmed with
    | Some g => (blocks, Some (default [] currentList ++ [inlineNodes g]))
    | None => (blocks ++ flush currentList ++ [Paragraph (inlineNodes trimmed)], None)
    end.

(** [renderMarkdownSafe(text, container)]: the children of the
    container. *)
Definition markdownBlocks (text : jsstring) : list block :=
  let '(blocks, currentList) := fold_left blockStep (split LF text) ([], None) in
  blocks ++ flush currentList.

End Render.
Export Render.

(* ===================================================================== *)
(** ** The content script: [src/content.js] *)
(* ===================================================================== *)

Module Content.

(** [config.TEXT_LIMITS.MAX_CHARS] and [config.TEXT_LIMITS.MIN_CHARS] *)
Definition MAX_CHARS : nat := 15 * 1000.
Definition MIN_CHARS : nat := 50.

Definition isLF (c : N) : bool := c =? LF.

(** The character class [[ \t]] *)
Definition isBlank (c : N) : bool := (c =? 32) || (c =? 9).

(** A [replace] under the [g] flag whose pattern is a run of at least
    [atLeast] units of a class, for [atLeast] not zero: [skip] counts
    the code units of the current match still to pass. *)
Fixpoint replaceRunsFrom (p : N → bool) (atLeast : nat) (replacement : jsstring)
    (skip : nat) (s : jsstring) : jsstring :=
  match s with
  | [] => []
  | c :: s' =>
      match skip with
      | S k => replaceRunsFrom p atLeast replacement k s'
      | O =>
          let run := length (fst (span p s)) in
          if (atLeast <=? run)%nat
          then replacement ++ replaceRunsFrom p atLeast replacement (run - 1) s'
          else c :: replaceRunsFrom p atLeast replacement 0 s'
      end
  end.

Definition replaceRuns (p : N → bool) (atLeast : nat) (replacement s : jsstring) : jsstring :=
  replaceRunsFrom p atLeast replacement 0 s.

(** The normalisation of white space in [extractPageText]: runs of
    three line feeds or more become two, runs of blanks and tabs become
    one blank, and the ends are trimmed. *)
Definition normalizeWhitespace (text : jsstring) : jsstring :=
  trim (replaceRuns isBlank 1 [32] (replaceRuns isLF 3 [LF; LF] text)).

(** [extractPageText()].  [innerText] is [clone.innerText || ''] once
    the excluded elements are removed; the other arguments are
    [document.title], [window.location.href] and
    [document.documentElement.lang || '']. *)
Definition extractPageText (innerText pageTitle address language : jsstring) : pageData :=
  let normalized := normalizeWhitespace innerText in
  let cut := (MAX_CHARS <? length normalized)%nat in
  let text := if cut then substring0 normalized MAX_CHARS ++ TRUNCATION_SUFFIX
              else normalized in
  PageData text pageTitle address language (length text) cut.

(** What the listener passes to [sendResponse]. *)
Inductive response :=
| Success (data : pageData)
| Failure (error : jsstring) (charCount : option nat) (message : option jsstring).

(** The listener, for a message of type [extractText]: [extracted] is
    what [extractPageText()] returns or throws. *)
Definition onExtractText (extracted : result pageData) : response :=
  match extracted with
  | Ok data =>
      if (length (text data) <? MIN_CHARS)%nat
      then Failure (js "notEnoughText") (Some (length (text data))) None
      else Success data
  | Thrown err => Failure (js "extractionFailed") None (errMessage err)
  end.

(** The callback of [extractText] in the side panel: what the promise
    settles to for a response ([None] when there is no response). *)
Definition settled (r : option response) : result (option pageData) :=
  match r with
  | None => Thrown (Err (js "Error") (Some (js "extractionFailed")))
  | Some (Failure error _ message) =>
      Thrown (Err (js "Error")
                  (Some (error ++ match orNull message with
                                  | Some m => js ": " ++ m
                                  | None => []
                                  end)))
  | Some (Success data) => Ok (Some data)
  end.

End Content.
Export Content.

(* ===================================================================== *)
(** ** Worlds and browsers used as examples *)
(* ===================================================================== *)

Module Scenario.

(** The panel when its script has just been loaded, with the default
    settings of [config.js]. *)
Definition loaded : world :=
  World (js "both") (js "medium") None false None ∅ None
        (λ _, false) (λ _, None)
        (js "ja") [] None None (λ _, Button [] false) (λ _, Elem Cleared None) []
        0 0 0 0 0 [] [].

(** A page in English. *)
Definition article : pageData :=
  PageData (js "The quick brown fox jumps over the lazy dog, again and again.")
           (js "Foxes") (js "https://example.org/foxes") (js "en-US") 61 false.

(** The panel showing that page in tab 1, the language selector on
    English. *)
Definition onTab1 : world :=
  World (js "both") (js "medium") (Some article) false (Some 1%Z) ∅ None
        (λ _, false) (λ _, None)
        (js "en") [] None (Some article) (λ _, Button [] false) (λ _, Elem Cleared None) []
        0 0 0 0 0 [] [].

Definition tooLarge : error :=
  Err (js "QuotaExceededError") (Some (js "The input is too large.")).

Definition aborted : error :=
  Err (js "AbortError") (Some (js "signal is aborted without reason")).

(** A browser in which every page is reachable, every session can be
    created and every call answers. *)
Definition willing : env :=
  Env (λ _, []) true true
      (λ _, Ok (Some (js "https://example.org/")))
      (λ _, Ok (Some article))
      (λ _, None)
      (λ _, (true, None))
      (λ _ _, Ok (Some (js "A")))
      (λ _ _, Ok (Stream [js "Hello"; js "Hello world"] None))
      (λ _ _, Ok (Some (js "Q1: Who jumps?")))
      (λ _ _, Ok (Some (js "T"))).

(** The same browser with a summarizer that answers per session. *)
Definition summarizing (answer : nat → jsstring → result (option jsstring)) : env :=
  Env (getMessage willing) (hasLanguageModel willing) (translatorApi willing)
      (tabUrl willing) (extractTextResponse willing) (createResponse willing)
      (translatorShape willing) answer (promptStreamingResponse willing)
      (promptResponse willing) (translateResponse willing).

(** The first two sessions report a too-large input, the third
    summarizes. *)
Definition tooLargeTwice : env :=
  summarizing (λ sid _, if (sid <? 2)%nat then Thrown tooLarge
                        else Ok (Some (js "Short summary."))).

(** Every session reports a too-large input. *)
Definition tooLargeAlways : env := summarizing (λ _ _, Thrown tooLarge).

(** A text of 6001 code units. *)
Definition longText : jsstring := replicate 6001 97.

Definition tldrOptions : options := Options (js "tldr") (js "en") (js "Page title: Foxes") None.

(** The same browser with a translator that answers per call. *)
Definition translating (answer : nat → jsstring → result (option jsstring)) : env :=
  Env (getMessage willing) (hasLanguageModel willing) (translatorApi willing)
      (tabUrl willing) (extractTextResponse willing) (createResponse willing)
      (translatorShape willing) (summarizeResponse willing)
      (promptStreamingResponse willing) (promptResponse willing) answer.

(** A translator that answers every call with the empty string. *)
Definition silentTranslator : env := translating (λ _ _, Ok (Some [])).

(** A summarizer that rejects every call as cancelled. *)
Definition cancelling : env := summarizing (λ _ _, Thrown aborted).

(** A prompt interface whose stream gives one chunk and is then
    cancelled; the summarizer answers. *)
Definition abortingStream : env :=
  Env (getMessage willing) (hasLanguageModel willing) (translatorApi willing)
      (tabUrl willing) (extractTextResponse willing) (createResponse willing)
      (translatorShape willing) (summarizeResponse willing)
      (λ _ _, Ok (Stream [js "- [HIGH] Par"] (Some aborted)))
      (promptResponse willing) (translateResponse willing).

(** The panel on tab 1 with a question typed. *)
Definition asking : world :=
  World (js "both") (js "medium") (Some article) false (Some 1%Z) ∅ None
        (λ _, false) (λ _, None)
        (js "en") (js "Why?") None (Some article) (λ _, Button [] false)
        (λ _, Elem Cleared None) []
        0 0 0 0 0 [] [].

(** A second page. *)
Definition owls : pageData :=
  PageData (js "Owls hunt at night and sleep by day.")
           (js "Owls") (js "https://example.org/owls") (js "en-GB") 36 false.

(** The browser whose content script answers with the second page. *)
Definition twoPages : env :=
  Env (getMessage willing) (hasLanguageModel willing) (translatorApi willing)
      (tabUrl willing) (λ _, Ok (Some owls)) (createResponse willing)
      (translatorShape willing) (summarizeResponse willing)
      (promptStreamingResponse willing)
      (promptResponse willing) (translateResponse willing).

End Scenario.

(* ===================================================================== *)
(** ** Pages that give no page data *)
(* ===================================================================== *)

Module Cases.

(** A browser whose content script cannot be reached: the message to it
    is rejected. *)
Definition unreadable : env :=
  Env (getMessage Scenario.willing) (hasLanguageModel Scenario.willing)
      (translatorApi Scenario.willing) (tabUrl Scenario.willing)
      (λ _, Thrown (Err (js "Error") (Some (js "Could not establish connection."))))
      (createResponse Scenario.willing) (translatorShape Scenario.willing)
      (summarizeResponse Scenario.willing) (promptStreamingResponse Scenario.willing)
      (promptResponse Scenario.willing) (translateResponse Scenario.willing).

(** A browser on a page of two words: what the panel receives is what
    the content script answers for it. *)
Definition twoWords : env :=
  Env (getMessage Scenario.willing) (hasLanguageModel Scenario.willing)
      (translatorApi Scenario.willing) (tabUrl Scenario.willing)
      (λ _, settled (Some (onExtractText
              (Ok (extractPageText (js "  Too   short. ") (js "Short")
                                   (js "https://example.org/short") (js "en"))))))
      (createResponse Scenario.willing) (translatorShape Scenario.willing)
      (summarizeResponse Scenario.willing) (promptStreamingResponse Scenario.willing)
      (promptResponse Scenario.willing) (translateResponse Scenario.willing).

End Cases.

(* ===================================================================== *)
(** ** A second click while the page text is awaited *)
(* ===================================================================== *)

Module TwoClicks.

(** The panel on tab 1 before the text of the page has been read, the
    language selector on English. *)
Definition unread : world :=
  World (js "both") (js "medium") None false (Some 1%Z) ∅ None
        (λ _, false) (λ _, None)
        (js "en") [] None None (λ _, Button [] false) (λ _, Elem Cleared None) []
        0 0 0 0 0 [] [].

(** The willing browser with a locale that defines [notEnoughText]. *)
Definition localised : env :=
  Env (λ key, if bool_decide (key = js "notEnoughText") then js "Not enough text content."
              else [])
      (hasLanguageModel Scenario.willing) (translatorApi Scenario.willing)
      (tabUrl Scenario.willing) (extractTextResponse Scenario.willing)
      (createResponse Scenario.willing) (translatorShape Scenario.willing)
      (summarizeResponse Scenario.willing) (promptStreamingResponse Scenario.willing)
      (promptResponse Scenario.willing) (translateResponse Scenario.willing).

End TwoClicks.

(* ===================================================================== *)
(** * The vocabulary of the statements *)
(* ===================================================================== *)

(** A lower-case ASCII letter other than [i] and [k]: the only strings
    that lower to a word of such letters are its ASCII spellings. *)
Definition plainLetter (y : N) : Prop := isLowerAscii y = true ∧ y ≠ 107 ∧ y ≠ 105.

(** The floating-point test of [looksLikeEnglish] on [k] code units
    above 127 among [n] sampled ones. *)
Definition belowThreshold (k n : nat) : bool :=
  PrimFloat.ltb (PrimFloat.div (number k) (number n)) 0x1.3333333333333p-3%float.

Definition exactlyBelow (k n : nat) : bool := (20 * Z.of_nat k <? 3 * Z.of_nat n)%Z.

(** A part of the world that a computation leaves as it is. *)
Definition preserves {X : Type} (part : world → X) {A} (m : M A) : Prop :=
  ∀ w, part (after m w) = part w.

(** The text cut to [1/d] of its length, with the truncation notice. *)
Definition truncatedTo (d : nat) (text : jsstring) : jsstring :=
  take (length text / d) text ++ TRUNCATION_SUFFIX.

(** What one attempt adds to the log: a session is created, asked once
    and destroyed. *)
Definition attemptTrace (sid : nat) (input : jsstring) : list event :=
  [Created SummarizerSession sid; Summarized sid input; Destroyed sid].

Fixpoint ladderTrace (sid : nat) (inputs : list jsstring) : list event :=
  match inputs with
  | [] => []
  | input :: later => attemptTrace sid input ++ ladderTrace (S sid) later
  end.

(** The sessions a list of events creates, and those it destroys, in
    order. *)
Definition createdIn (evs : list event) : list nat :=
  omap (λ e, match e with Created _ sid => Some sid | _ => None end) evs.

Definition destroyedIn (evs : list event) : list nat :=
  omap (λ e, match e with Destroyed sid => Some sid | _ => None end) evs.

(** Every session created is destroyed, once, and nothing else is. *)
Definition releasedOnce (evs : list event) : Prop :=
  destroyedIn evs = createdIn evs ∧ NoDup (createdIn evs).

(** The two helpers are one frame around a translation pass: the [translate]
    call of the translator for [translateIfNeeded], and
    [translateKeyPointsPreservingFormat] for [translateKeyPointsIfNeeded]. *)
Definition recovering (E : env) (pass : translator → jsstring → M (option jsstring))
    (text targetLang : jsstring) : M jsstring :=
  if negb (truthy text) || bool_decide (targetLang = js "en") then mret text
  else
    returned ← tryCatch
      (obtained ← obtainTranslator E targetLang;
       match obtained with
       | None => mret (Some text)
       | Some translator =>
           tryCatch
             (translated ← pass translator text;
              release translator ;;
              if usable translated then mret translated else mret None)
             (λ _, release translator ;; mret None)
       end)
      (λ _, mret None);
    match returned with
    | Some v => mret v
    | None => mret text
    end.

(** No translator can be had: the pending one is rejected, or there is
    none and none can be created. *)
Definition noTranslator (E : env) (w : world) : Prop :=
  (∃ e, pendingTranslator w = Some (Thrown e)) ∨
  ((pendingTranslator w = None ∨ pendingTranslator w = Some (Ok None)) ∧
   (translatorApi E = false ∨ is_Some (createResponse E (sessions w)))).

(** What the translator answers when it is given the whole text next,
    and when it is given the body of the item of index [i] after those
    before it. *)
Definition wholeAnswer (E : env) (w : world) (text : jsstring) : result (option jsstring) :=
  translateResponse E (translations w) text.

Definition itemAnswer (E : env) (w : world) (i : nat) (it : item) : result (option jsstring) :=
  translateResponse E (translations w + i) (body it).

(** The answers to the items in turn, from call [n] on, as lines. *)
Fixpoint eachAnswer (E : env) (n : nat) (items : list item) : result (list jsstring) :=
  match items with
  | [] => Ok []
  | i :: later =>
      match translateResponse E n (body i) with
      | Thrown e => Thrown e
      | Ok translated =>
          match eachAnswer E (S n) later with
          | Thrown e => Thrown e
          | Ok lines => Ok (rebuilt i translated :: lines)
          end
      end
  end.

(** The line of an item that keeps its own body. *)
Definition untranslated (i : item) : jsstring := js "- " ++ tag i ++ js " " ++ body i.

(** The tags an item can carry. *)
Definition canonicalTags : list jsstring := [js "[HIGH]"; js "[MEDIUM]"; js "[LOW]"].

(** The calls that ask for the bodies of items. *)
Definition asked (tr : translator) (items : list item) : list event :=
  (λ it, Translated (tSession tr) (body it)) <$> items.

(** The two lines of the example. *)
Definition twoPoints : jsstring :=
  js "- [HIGH] Point A" ++ [LF] ++ js "- [MEDIUM] Point B".

(** A part of the world that a computation leaves as it is whenever it
    throws. *)
Definition keptOnThrow {X : Type} (part : world → X) {A} (m : M A) : Prop :=
  ∀ w e, outcome m w = Thrown e → part (after m w) = part w.

(** A computation that always ends normally. *)
Definition neverThrows {A} (m : M A) : Prop := ∀ w, ∃ a, outcome m w = Ok a.

(** The error carries the name of a cancellation, or its wording. *)
Definition named (err : error) : Prop := errName err = js "AbortError".

Definition worded (err : error) : Prop :=
  ∃ m, errMessage err = Some m ∧ includes (toLowerCase m) (js "abort") = true.

(** A slot at rest: not generating, no controller, its button enabled
    under its idle label. *)
Definition idle (s : slotId) (label : jsstring) (w : world) : Prop :=
  generating w s = false ∧ abortController w s = None ∧ buttons w s = Button label false.

(** What a cancelled generation leaves: the run ends normally, the box
    holds the plain text of the cancellation, the tab cache is as it
    was, and the slot is at rest. *)
Definition cancelledAfter (s : slotId) (b : box) (label : jsstring)
    (m : M unit) (w : world) : Prop :=
  outcome m w = Ok tt ∧
  shown (boxes (after m w) b) = TextContent CANCELLED ∧
  tabCache (after m w) = tabCache w ∧
  idle s label (after m w).

(** What [switchToTab] does once the tab left has been saved and the
    new one is current. *)
Definition arrive (E : env) (tabId : Z) : M unit :=
  busy ← gets isSummarizing;
  if busy : bool then mret tt
  else
    accessible ← updateTabAccessibility E tabId;
    if negb accessible then showFreshState
    else
      restored ← restoreFromCache tabId;
      if restored : bool then mret tt
      else showFreshState ;; extractForNewTab E.

(** The user types a question into the chat input. *)
Definition typeQuestion (q : jsstring) : M unit := modify (set_customPromptInput q).

(** The calls of the summarizer in a log. *)
Definition summarizedIn (evs : list event) : list (nat * jsstring) :=
  omap (λ e, match e with Summarized sid input => Some (sid, input) | _ => None end) evs.

(** [handleGenerateTldr] up to its call of [runSummarizer], and from
    the answer on. *)
Definition tldrUntilAwait (E : env) : M (options * jsstring) :=
  startSlot E TLDR tldrContent ;;
  _ ← ensurePageData E;
  page ← currentPage;
  outputLang ← outputLanguageFor (Some (lang page));
  tldrRequest outputLang (js "Page title: " ++ title page).

Definition tldrAfterAwait (E : env) (request : options * jsstring) : M unit :=
  guardTldr E (tldrResult ← runSummarizer E (fst request) (snd request) tldrContent;
               storeTldr tldrResult).

(** [handleGenerateTldr] and [handleGenerateKeyPoints] from the answer
    of [await ensurePageData()] on. *)
Definition tldrAfterPageData (E : env) (pageData : option pageData) : M unit :=
  match pageData with
  | None => noPageData E TLDR tldrContent (tldrIdleLabel E)
  | Some _ =>
      page ← currentPage;
      outputLang ← outputLanguageFor (Some (lang page));
      guardTldr E (tldrBody E outputLang (js "Page title: " ++ title page))
  end.

Definition keyPointsAfterPageData (E : env) (pageData : option pageData) : M unit :=
  match pageData with
  | None => noPageData E KEYPOINTS keyPointsContent (keyPointsIdleLabel E)
  | Some _ =>
      page ← currentPage;
      outputLang ← outputLanguageFor (Some (lang page));
      guardKeyPoints E (keyPointsBody E outputLang (js "Page title: " ++ title page))
  end.

(** Two clicks on the button of a slot, the second one taken while the
    first handler awaits the text of the page: the first handler up to
    its [await], the handler of the second click from start to end,
    then the answer of the content script and the rest of the first
    handler. *)
Definition clickedWhileExtracting (E : env) (s : slotId) (b : box) (handler : M unit)
    (rest : option pageData → M unit) : M unit :=
  startSlot E s b ;;
  handler ;;
  pageData ← ensurePageData E;
  rest pageData.

(** What the content script's answer leaves as page data: a page with a
    text. *)
Definition usablePage (r : result (option pageData)) : option pageData :=
  match r with
  | Ok (Some d) => if truthy (text d) then Some d else None
  | _ => None
  end.

(** Whether the tab can be read: [chrome.tabs.get] answers with an
    [http] or [https] address. *)
Definition reachable (E : env) (tabId : Z) : bool :=
  match tabUrl E tabId with
  | Ok address => isAccessibleUrl address
  | Thrown _ => false
  end.

(** What a box shows once chunks have been rendered into it: the last
    rendering, or what it showed before when no chunk came. *)
Definition renderedInto (b : box) (cs : list jsstring) (w : world) : elem :=
  match cs with
  | [] => boxes w b
  | _ => Elem (MarkdownOf (streamedText cs)) (Some (streamedText cs))
  end.

(** The events of the translator: its creation and its calls. *)
Definition isTranslatorEvent (e : event) : bool :=
  match e with
  | Created TranslatorSession _ => true
  | Translated _ _ => true
  | _ => false
  end.

Definition translatorCalls (w : world) : list event := List.filter isTranslatorEvent (log w).

(** A computation that leaves a part of the world as it is whenever
    English is the selected output language. *)
Definition preservesInEnglish {X : Type} (part : world → X) {A} (m : M A) : Prop :=
  ∀ w, langSelect w = js "en" → part (after m w) = part w.

(** The [destroy] calls that follow the creation of a translator on
    demand and its [translate] call, by the shape of the translator
    (whether it has a [destroy] method, and whether that throws) and by
    whether the [translate] call returned. *)
Definition releases (shape : bool * option error) (answered : bool) (sid : nat) : list event :=
  match shape with
  | (false, _) => []
  | (true, None) => [Destroyed sid]
  | (true, Some _) => if answered then [Destroyed sid; Destroyed sid] else [Destroyed sid]
  end.

Definition answers {A} (r : result A) : bool :=
  match r with Ok _ => true | Thrown _ => false end.

(** The text a node was made from, with its markers. *)
Definition sourceOf (n : inline) : jsstring :=
  match n with
  | TextNode s => s
  | Strong s => [STAR; STAR] ++ s ++ [STAR; STAR]
  | Em s => [STAR] ++ s ++ [STAR]
  end.

(** The text a node shows. *)
Definition shownText (n : inline) : jsstring :=
  match n with
  | TextNode s | Strong s | Em s => s
  end.

(** The paragraphs and list items of a block, in order. *)
Definition blockEntries (b : block) : list (list inline) :=
  match b with
  | Paragraph nodes => [nodes]
  | BulletList items => items
  end.

(** What a line becomes in [renderMarkdownSafe]: the text of a list
    item, or the line itself. *)
Definition entryText (trimmed : jsstring) : jsstring := default trimmed (listMatch trimmed).

(** The entries collected by the loop of [renderMarkdownSafe] in a
    state: those of the blocks appended and those of the list being
    built; and the states in which no list is empty. *)
Definition collectedEntries (st : list block * option (list (list inline)))
  : list (list inline) :=
  concat (blockEntries <$> fst st) ++ default [] (snd st).

Definition noEmptyList (st : list block * option (list (list inline))) : Prop :=
  Forall (λ b, blockEntries b ≠ []) (fst st) ∧ snd st ≠ Some [].

(** A text that can stand on a line of its own: not empty, without
    white space at its ends and without a line terminator. *)
Definition plainText (s : jsstring) : Prop :=
  s ≠ [] ∧ trim s = s ∧ ∀ c, c ∈ s → isLineTerminator c = false.

(** A number as the model writes it: decimal digits. *)
Definition digits (n : jsstring) : Prop := n ≠ [] ∧ ∀ c, c ∈ n → isDigit c = true.

(** A quiz in the format the prompt asks for, a question line and an
    answer line per entry, and a dialogue with a line per bubble. *)
Definition quizEntryLines (e : jsstring * jsstring * jsstring) : list jsstring :=
  [js "Q" ++ e.1.1 ++ js ": " ++ e.1.2; js "A" ++ e.1.1 ++ js ": " ++ e.2].

Definition quizTextOf (entries : list (jsstring * jsstring * jsstring)) : jsstring :=
  join [LF] (entries ≫= quizEntryLines).

Definition dialogueTextOf (bubbles : list dialogueLine) : jsstring :=
  join [LF] ((λ b, speakerText b ++ js ": " ++ messageText b) <$> bubbles).

(** A text in the normal form of the content script: trimmed, without
    a tab, without two blanks in a row and without three line feeds in
    a row. *)
Definition normalForm (s : jsstring) : Prop :=
  trim s = s ∧ (9 ∉ s) ∧ includes s [32; 32] = false ∧ includes s [LF; LF; LF] = false.

(** The notice a handler shows when there is no page to work on. *)
Definition notEnoughNotice (E : env) : content :=
  TextContent (message E "notEnoughText" "Not enough text content.").

(** The tags that [repairImportanceTags] repairs, as they stand
    between the brackets, each with the tag it becomes. *)
Definition tagVariants : list (jsstring * jsstring) :=
  ((λ v, (v, js "[HIGH]")) <$> [js "高"; js "高い"; js "ハイ"; js "重要"; js "重要度高"; js "High"])
  ++ ((λ v, (v, js "[MEDIUM]")) <$>
        [js "中"; js "中程度"; js "ミディアム"; js "標準"; js "重要度中"; js "Medium"])
  ++ ((λ v, (v, js "[LOW]")) <$> [js "低"; js "低い"; js "ロー"; js "重要度低"; js "Low"])
  ++ ((λ v, (v, js "[HIGH]")) <$> [js "ALTO"; js "ALTA"])
  ++ ((λ v, (v, js "[MEDIUM]")) <$> [js "MEDIO"; js "MEDIA"])
  ++ ((λ v, (v, js "[LOW]")) <$> [js "BAJO"; js "BAJA"]).

(** The passes of [repairImportanceTags] in order: the words of the
    pattern and the word of the replacement. *)
Definition repairPasses : list (list jsstring * jsstring) :=
  [([js "高"; js "高い"; js "ハイ"; js "重要"; js "重要度高"; js "High"], js "HIGH");
   ([js "中"; js "中程度"; js "ミディアム"; js "標準"; js "重要度中"; js "Medium"], js "MEDIUM");
   ([js "低"; js "低い"; js "ロー"; js "重要度低"; js "Low"], js "LOW");
   ([js "ALTO"; js "ALTA"], js "HIGH");
   ([js "MEDIO"; js "MEDIA"], js "MEDIUM");
   ([js "BAJO"; js "BAJA"], js "LOW")].

(** Whether a word, given in upper case, is one of the words of a
    pattern up to the case of ASCII letters. *)
Definition hits (upper : jsstring) (words : list jsstring) : bool :=
  existsb (λ v, bool_decide (toUpperCaseAscii v = upper)) words.

(** What a pass makes of the word between the brackets, and what the
    passes make of a word that is given in upper case: the word of the
    first pass that hits, taken through the passes after it. *)
Definition repairStep (w : jsstring) (pass : list jsstring * jsstring) : jsstring :=
  if hits (toUpperCaseAscii w) pass.1 then pass.2 else w.

Fixpoint repaired (passes : list (list jsstring * jsstring)) (upper : jsstring)
  : option jsstring :=
  match passes with
  | [] => None
  | pass :: later =>
      if hits upper pass.1 then Some (fold_left repairStep later pass.2)
      else repaired later upper
  end.

(* ===================================================================== *)
(** * Properties *)
(* ===================================================================== *)

(** ** Strings *)

Section StringFacts.
Implicit Types s p b l : jsstring.

Lemma startsWith_app s p : startsWith (p ++ s) p = true.
Proof. induction p as [|x p IH]; [by destruct s|]. simpl. by rewrite N.eqb_refl. Qed.

Lemma startsWith_prefix s p : startsWith s p = true ↔ ∃ r, s = p ++ r.
Proof.
  revert s. induction p as [|x p IH]; intros s.
  - split; [intros _; by exists s | by destruct s].
  - destruct s as [|y s]; simpl.
    + split; [done | intros [r Hr]; discriminate].
    + rewrite andb_true_iff, N.eqb_eq, IH. split.
      * intros [-> [r ->]]. by exists r.
      * intros [r Hr]. injection Hr as -> ->. split; [done | by exists r].
Qed.

Lemma split_head_whole b : HYPHEN ∉ b → hd [] (split HYPHEN b) = b.
Proof.
  induction b as [|c b IH]; [done|]. intros Hnot. simpl.
  destruct (N.eqb_spec c HYPHEN) as [->|Hc]; [exfalso; apply Hnot; left|].
  assert (HYPHEN ∉ b) as Hb by (intros Hin; apply Hnot; by right).
  specialize (IH Hb). destruct (split HYPHEN b); simpl in *; by subst.
Qed.

Lemma split_head_region b region :
  HYPHEN ∉ b → hd [] (split HYPHEN (b ++ HYPHEN :: region)) = b.
Proof.
  induction b as [|c b IH]; intros Hnot; simpl.
  - done.
  - destruct (N.eqb_spec c HYPHEN) as [->|Hc]; [exfalso; apply Hnot; left|].
    assert (HYPHEN ∉ b) as Hb by (intros Hin; apply Hnot; by right).
    specialize (IH Hb). destruct (split HYPHEN (b ++ HYPHEN :: region)); simpl in *; by subst.
Qed.

Lemma baseSubtagOf_split p b : baseSubtagOf p b → hd [] (split HYPHEN p) = b.
Proof.
  intros [Hnot [->|[region ->]]]; [by apply split_head_whole | by apply split_head_region].
Qed.

Lemma lowerUnit_plain c y rest l :
  plainLetter y → lowerUnit c ++ rest = y :: l → sameLetter c y ∧ rest = l.
Proof.
  intros (Hlow & Hk & Hi). unfold lowerUnit, sameLetter.
  destruct (isUpperAscii c) eqn:Hup; simpl.
  { intros [= <- <-]. split; [right; left; done | done]. }
  destruct (N.eqb_spec c 8490); simpl; [intros [= <- _]; done|].
  destruct (N.eqb_spec c 304); simpl; [intros [= <- _]; done|].
  intros [= -> ->]. by split; [left|].
Qed.

Lemma sameLetter_lowerUnit c y : plainLetter y → sameLetter c y → lowerUnit c = [y].
Proof.
  intros (Hlow & Hk & Hi) [->|[[Hup ->]|[Hup ->]]]; unfold lowerUnit, isUpperAscii, isLowerAscii in *.
  - apply andb_true_iff in Hlow as [H1%N.leb_le H2%N.leb_le].
    replace (65 <=? y) with true by (symmetry; apply N.leb_le; lia).
    replace (y <=? 90) with false by (symmetry; apply N.leb_gt; lia). simpl.
    replace (y =? 8490) with false by (symmetry; apply N.eqb_neq; lia).
    by replace (y =? 304) with false by (symmetry; apply N.eqb_neq; lia).
  - by rewrite Hup.
  - apply andb_true_iff in Hlow as [H1%N.leb_le H2%N.leb_le].
    apply andb_true_iff in Hup as [H3%N.leb_le H4%N.leb_le]. lia.
Qed.

Lemma toLowerCase_plain b l :
  Forall plainLetter l → toLowerCase b = l ↔ sameIgnoringCase b l.
Proof.
  unfold toLowerCase, sameIgnoringCase. intros Hl. revert b.
  induction Hl as [|y l Hy Hl IH]; intros b.
  - split.
    + destruct b as [|c b]; [constructor|]. simpl. unfold lowerUnit.
      repeat case_match; discriminate.
    + by intros ->%Forall2_nil_inv_r.
  - split.
    + destruct b as [|c b]; [discriminate|]. simpl.
      intros [Hc Hrest]%lowerUnit_plain; [|done]. constructor; [done | by apply IH].
    + intros (c & b' & Hc & Hb' & ->)%Forall2_cons_inv_r. simpl.
      rewrite (sameLetter_lowerUnit c y Hy Hc). simpl. f_equal. by apply IH.
Qed.

Lemma supported_plain l : l ∈ supported → Forall plainLetter l.
Proof.
  unfold supported. rewrite !elem_of_cons, elem_of_nil.
  intros [->|[->|[->|[]]]]; repeat constructor; done.
Qed.

End StringFacts.

(** ** Language resolution *)

(** C6.  When the selection is not [auto], [getOutputLanguage] returns it
    as it is.  When it is [auto], the result is the supported language
    that the base subtag of the page language spells, letter case
    ignored, and [en] when the base subtag spells none of them or the
    page language is absent. *)
Theorem getOutputLanguage_resolves (selected : jsstring) (pageLang : option jsstring) :
  (selected ≠ js "auto" → getOutputLanguage selected pageLang = selected) ∧
  (selected = js "auto" →
     (pageLang = None → getOutputLanguage selected pageLang = js "en") ∧
     (∀ p b, pageLang = Some p → baseSubtagOf p b →
        (∀ l, l ∈ supported → sameIgnoringCase b l →
              getOutputLanguage selected pageLang = l) ∧
        ((∀ l, l ∈ supported → ¬ sameIgnoringCase b l) →
              getOutputLanguage selected pageLang = js "en"))).
Proof.
  unfold getOutputLanguage. split.
  - intros Hsel. by rewrite bool_decide_eq_true_2.
  - intros ->. rewrite bool_decide_eq_false_2 by (intros H; by apply H). split.
    + by intros ->.
    + intros p b -> Hbase. pose proof (baseSubtagOf_split p b Hbase) as Hhd.
      rewrite Hhd. split.
      * intros l Hl Hsame.
        apply (toLowerCase_plain b l (supported_plain l Hl)) in Hsame as Hlow.
        destruct p as [|c p]; simpl.
        { destruct Hbase as [_ [<-|[r Hr]]]; [|by destruct b].
          inversion Hsame; subst. unfold supported in Hl.
          rewrite !elem_of_cons, elem_of_nil in Hl. by destruct Hl as [?|[?|[?|[]]]]. }
        rewrite Hlow. unfold supported in Hl. rewrite !elem_of_cons, elem_of_nil in Hl.
        destruct Hl as [->|[->|[->|[]]]]; reflexivity.
      * intros Hnone. destruct (truthy p); [|done].
        assert (∀ l, l ∈ supported → toLowerCase b ≠ l) as Hne.
        { intros l Hl Heq. apply (Hnone l Hl). by apply toLowerCase_plain; [apply supported_plain|]. }
        rewrite !bool_decide_eq_false_2; [done | | |].
        -- apply Hne. unfold supported. set_solver.
        -- apply Hne. unfold supported. set_solver.
        -- apply Hne. unfold supported. set_solver.
Qed.

(** The page language [JA-jp] under the selection [auto] gives [ja]. *)
Lemma getOutputLanguage_resolves_witness :
  getOutputLanguage (js "auto") (Some (js "JA-jp")) = js "ja".
Proof.
  refine (proj1 (proj2 (proj2 (getOutputLanguage_resolves (js "auto") (Some (js "JA-jp")))
                          eq_refl) (js "JA-jp") (js "JA") eq_refl _) (js "ja") _ _).
  - split; [by vm_compute; intros H; repeat (apply elem_of_cons in H as [H|H]; [discriminate|]); inversion H
           | right; by exists (js "jp")].
  - unfold supported. by left.
  - repeat constructor; unfold sameLetter; vm_compute; by right; right.
Defined.

(** ** The English heuristic *)

Section EnglishFacts.

(** On every sample size up to 500 the binary64 quotient is below the
    binary64 constant exactly when the fraction is below 3/20: checked
    on all the pairs. *)
Lemma threshold_table :
  forallb (λ n, forallb (λ k, Bool.eqb (belowThreshold k n) (exactlyBelow k n))
                        (seq 0 (S n)))
          (seq 1 500) = true.
Proof. vm_compute. reflexivity. Qed.

Lemma belowThreshold_exact k n :
  (1 ≤ n ≤ 500)%nat → (k ≤ n)%nat → belowThreshold k n = exactlyBelow k n.
Proof.
  intros Hn Hk. pose proof threshold_table as T.
  rewrite forallb_forall in T. specialize (T n).
  rewrite forallb_forall in T. apply eqb_prop, T; apply in_seq; lia.
Qed.

Lemma countNonAscii_filter_from sample acc :
  fold_left (λ nonAscii c, if 127 <? c then S nonAscii else nonAscii) sample acc
  = (acc + length (filter (λ c : N, (127 < c)%N) sample))%nat.
Proof.
  revert acc. induction sample as [|c sample IH]; intros acc; simpl; [lia|].
  rewrite IH. rewrite filter_cons. destruct (N.ltb_spec 127 c); case_decide; simpl; lia.
Qed.

Lemma countNonAscii_filter sample :
  countNonAscii sample = length (filter (λ c, 127 < c) sample).
Proof. unfold countNonAscii. by rewrite countNonAscii_filter_from. Qed.

Lemma share_below text :
  text ≠ [] →
  (nonAsciiShare text < 15 # 100)%Q ↔
  exactlyBelow (length (filter (λ c, 127 < c) (take 500 text))) (length (take 500 text)) = true.
Proof.
  intros Hne. unfold nonAsciiShare, exactlyBelow, Qlt. simpl.
  assert (1 ≤ length (take 500 text))%nat as Hlen.
  { destruct text; [done|]. simpl. lia. }
  rewrite Z.ltb_lt. rewrite <- (Nat2Pos.id (length (take 500 text))) at 2 by lia.
  rewrite positive_nat_Z. lia.
Qed.

Lemma share_above text :
  (15 # 100 < nonAsciiShare text)%Q →
  text ≠ [] ∧
  exactlyBelow (length (filter (λ c, 127 < c) (take 500 text))) (length (take 500 text)) = false.
Proof.
  unfold nonAsciiShare, exactlyBelow, Qlt. simpl. intros H.
  assert (text ≠ []) as Hne by (intros ->; simpl in H; lia).
  split; [done|].
  assert (1 ≤ length (take 500 text))%nat as Hlen.
  { destruct text; [done|]. simpl. lia. }
  rewrite Z.ltb_ge. rewrite <- (Nat2Pos.id (length (take 500 text))) at 1 by lia.
  rewrite positive_nat_Z. lia.
Qed.

Lemma ascii_filter_nil (l : jsstring) :
  Forall (λ c, c ≤ 127) l → filter (λ c, 127 < c) l = [].
Proof.
  induction 1 as [|c l Hc _ IH]; [done|].
  rewrite filter_cons. case_decide; [lia | done].
Qed.

Lemma looksLikeEnglish_exact text :
  text ≠ [] →
  looksLikeEnglish text
  = exactlyBelow (length (filter (λ c, 127 < c) (take 500 text))) (length (take 500 text)).
Proof.
  intros Hne. unfold looksLikeEnglish, substring0. destruct text as [|c text]; [done|].
  cbn [truthy negb]. rewrite countNonAscii_filter.
  apply belowThreshold_exact.
  - rewrite length_take. cbn [length]. lia.
  - apply length_filter.
Qed.

End EnglishFacts.

(** C8.  [looksLikeEnglish] looks at the first 500 code units; on a
    non-empty text it answers [true] exactly when the share of the
    sampled code units above 127 is below 15 in 100.  It answers [true]
    on every non-empty text of ASCII code units, and [false] whenever
    more than 15 in 100 of the sampled code units are above 127. *)
Theorem looksLikeEnglish_threshold (text : jsstring) :
  (text ≠ [] → looksLikeEnglish text = true ↔ (nonAsciiShare text < 15 # 100)%Q) ∧
  (text ≠ [] → Forall (λ c, c ≤ 127) text → looksLikeEnglish text = true) ∧
  ((15 # 100 < nonAsciiShare text)%Q → looksLikeEnglish text = false).
Proof.
  split; [|split].
  - intros Hne. rewrite (looksLikeEnglish_exact text Hne). symmetry. by apply share_below.
  - intros Hne Hascii. rewrite (looksLikeEnglish_exact text Hne).
    rewrite (ascii_filter_nil (take 500 text)) by by apply Forall_take.
    unfold exactlyBelow. simpl. apply Z.ltb_lt.
    destruct text; [done|]. simpl. lia.
  - intros [Hne Hfalse]%share_above. by rewrite (looksLikeEnglish_exact text Hne).
Qed.

(** A text of five ASCII letters looks English. *)
Lemma looksLikeEnglish_threshold_witness : looksLikeEnglish (js "Hello") = true.
Proof.
  apply (proj1 (proj2 (looksLikeEnglish_threshold (js "Hello")))).
  - discriminate.
  - vm_compute. repeat constructor; discriminate.
Defined.

(** ** Chunk streams *)

Section StreamFacts.

Lemma consume_app seen later :
  consume (seen ++ later) = fold_left onChunk later (consume seen).
Proof. unfold consume. apply fold_left_app. Qed.

Lemma onChunk_cumulative t c : onChunk (Acc (Some true) t) c = Acc (Some true) c.
Proof. reflexivity. Qed.

Lemma onChunk_delta t c : onChunk (Acc (Some false) t) c = Acc (Some false) (t ++ c).
Proof. reflexivity. Qed.

Lemma last_cons (rest : list jsstring) c t : List.last (c :: rest) t = List.last rest c.
Proof.
  revert c t. induction rest as [|c' rest IH]; intros c t; [done|].
  change (List.last (c :: c' :: rest) t) with (List.last (c' :: rest) t).
  by rewrite !IH.
Qed.

Lemma fold_cumulative rest t :
  fold_left onChunk rest (Acc (Some true) t) = Acc (Some true) (List.last rest t).
Proof.
  revert t. induction rest as [|c rest IH]; intros t; [done|].
  cbn [fold_left]. by rewrite onChunk_cumulative, IH, last_cons.
Qed.

Lemma fold_delta rest t :
  fold_left onChunk rest (Acc (Some false) t) = Acc (Some false) (t ++ concat rest).
Proof.
  revert t. induction rest as [|c rest IH]; intros t; cbn [fold_left concat].
  - by rewrite app_nil_r.
  - rewrite onChunk_delta, IH. by rewrite <- app_assoc.
Qed.

Lemma fold_decided rest b t :
  isCumulative (fold_left onChunk rest (Acc (Some b) t)) = Some b.
Proof. destruct b; [by rewrite fold_cumulative | by rewrite fold_delta]. Qed.

Lemma fold_dropEmpty chunks :
  fold_left onChunk chunks initial = fold_left onChunk (dropEmpty chunks) initial.
Proof. induction chunks as [|[|x c] chunks IH]; simpl; done. Qed.

Lemma streamedText_rule chunks : streamedText chunks = secondChunkRule (dropEmpty chunks).
Proof.
  unfold streamedText, consume. rewrite fold_dropEmpty.
  destruct (dropEmpty chunks) as [|c1 rest] eqn:Hd; [done|].
  assert (c1 ≠ []) as Hc1.
  { intros ->. clear -Hd. induction chunks as [|[|x c] chunks IH]; simpl in Hd; try done. }
  destruct c1 as [|x c1]; [done|]. clear Hd Hc1.
  destruct rest as [|c2 rest]; [done|].
  cbn [fold_left].
  change (onChunk initial (x :: c1)) with (Acc None (x :: c1)).
  assert (onChunk (Acc None (x :: c1)) c2
          = if startsWith c2 (x :: c1) then Acc (Some true) c2
            else Acc (Some false) ((x :: c1) ++ c2)) as ->.
  { unfold onChunk. cbn [isCumulative fullText].
    change (0 <? length (x :: c1))%nat with true. cbv iota.
    by destruct (startsWith c2 (x :: c1)). }
  unfold secondChunkRule.
  destruct (startsWith c2 (x :: c1)).
  - by rewrite fold_cumulative.
  - rewrite fold_delta. cbn [fullText]. by rewrite <- app_assoc.
Qed.

End StreamFacts.

(** C1, as stated, fails on a stream whose first chunk is empty: the
    second chunk is then not compared with anything, the comparison is
    made on the third chunk, and the text differs from what comparing
    the second chunk with the first would give. *)
Lemma stream_second_chunk_counterexample :
  isCumulative (consume [[]; js "a"]) = None ∧
  streamedText [[]; js "a"; js "b"] = js "ab" ∧
  secondChunkRule [[]; js "a"; js "b"] = js "b" ∧
  ¬ (∀ chunks, streamedText chunks = secondChunkRule chunks).
Proof.
  split; [reflexivity|]. split; [reflexivity|]. split; [reflexivity|].
  intros H. specialize (H [[]; js "a"; js "b"]). vm_compute in H. discriminate.
Qed.

(** C1, amended.  The choice between cumulative and delta chunks is made
    at most once, on the first chunk that arrives while the accumulated
    text is not empty, by testing whether that chunk begins with the
    accumulated text; once made it is kept.  A cumulative chunk replaces
    the accumulated text, any other chunk is appended.  Hence the text
    of a stream is what the second-chunk rule gives on the stream
    without its leading empty chunks; the chunks [Hello], [Hello world]
    and the chunks [Hello], [ world] both give [Hello world]. *)
Theorem stream_mode_decided_once (chunks : list jsstring) :
  streamedText chunks = secondChunkRule (dropEmpty chunks) ∧
  (∀ seen later b,
     isCumulative (consume seen) = Some b →
     isCumulative (consume (seen ++ later)) = Some b) ∧
  (∀ seen chunk,
     isCumulative (consume seen) = None →
     isCumulative (consume (seen ++ [chunk]))
     = if truthy (fullText (consume seen))
       then Some (startsWith chunk (fullText (consume seen)))
       else None) ∧
  (∀ seen chunk,
     fullText (consume (seen ++ [chunk]))
     = match isCumulative (consume (seen ++ [chunk])) with
       | Some true => chunk
       | _ => fullText (consume seen) ++ chunk
       end) ∧
  streamedText [js "Hello"; js "Hello world"] = js "Hello world" ∧
  streamedText [js "Hello"; js " world"] = js "Hello world".
Proof.
  split; [apply streamedText_rule|]. split; [|split; [|split; [|split; reflexivity]]].
  - intros seen later b Hb. rewrite consume_app.
    destruct (consume seen) as [ic ft]. simpl in Hb. subst ic. apply fold_decided.
  - intros seen chunk Hnone. rewrite consume_app.
    destruct (consume seen) as [ic ft]. simpl in *. subst ic.
    unfold onChunk. simpl. destruct ft; simpl; [done|].
    by destruct (startsWith chunk (n :: ft)).
  - intros seen chunk. rewrite consume_app.
    destruct (consume seen) as [[[|]|] ft]; simpl; unfold onChunk; simpl; try done.
    destruct ft; simpl; [done|]. by destruct (startsWith chunk (n :: ft)).
Qed.

(** After [Hello] and [Hello world] the stream is cumulative, and stays
    so when a third chunk arrives. *)
Lemma stream_mode_decided_once_witness :
  isCumulative (consume ([js "Hello"; js "Hello world"] ++ [js "Hello world!"])) = Some true.
Proof.
  apply (proj1 (proj2 (stream_mode_decided_once []))). reflexivity.
Defined.

(** ** Reasoning about the script *)

Section Runs.
Context {A B : Type}.

Lemma run_bind (m : M A) (f : A → M B) w :
  (m ≫= f) w = match m w with
               | (Ok a, w') => f a w'
               | (Thrown e, w') => (Thrown e, w')
               end.
Proof. reflexivity. Qed.

Lemma run_ret (a : A) w : (mret a : M A) w = (Ok a, w).
Proof. reflexivity. Qed.

Lemma run_tryCatch (body : M A) (handler : error → M A) w :
  tryCatch body handler w = match body w with
                            | (Ok a, w') => (Ok a, w')
                            | (Thrown e, w') => handler e w'
                            end.
Proof. reflexivity. Qed.

Lemma run_tryFinally (body : M A) (cleanup : M unit) w :
  tryFinally body cleanup w
  = match cleanup (snd (body w)) with
    | (Ok _, w'') => (fst (body w), w'')
    | (Thrown e, w'') => (Thrown e, w'')
    end.
Proof. unfold tryFinally. by destruct (body w). Qed.

End Runs.

(** A part of the world that a computation leaves as it is. *)
Section Frames.
Context {X : Type} (part : world → X).

Lemma preserves_ret {A} (a : A) : preserves part (mret a : M A).
Proof. by intros w. Qed.

Lemma preserves_throw {A} e : preserves part (@throw A e).
Proof. by intros w. Qed.

Lemma preserves_gets {A} (f : world → A) : preserves part (gets f).
Proof. by intros w. Qed.

Lemma preserves_await {A} (r : result A) : preserves part (await r).
Proof. by intros w. Qed.

Lemma preserves_modify (f : world → world) :
  (∀ w, part (f w) = part w) → preserves part (modify f).
Proof. intros H w. apply H. Qed.

Lemma preserves_bind {A B} (m : M A) (f : A → M B) :
  preserves part m → (∀ a, preserves part (f a)) → preserves part (m ≫= f).
Proof.
  intros Hm Hf w. unfold after. rewrite run_bind.
  specialize (Hm w). unfold after in Hm.
  destruct (m w) as [[a|e] w']; simpl in *; [|done].
  rewrite <- Hm. apply Hf.
Qed.

Lemma preserves_tryCatch {A} (body : M A) handler :
  preserves part body → (∀ e, preserves part (handler e)) → preserves part (tryCatch body handler).
Proof.
  intros Hm Hf w. unfold after. rewrite run_tryCatch.
  specialize (Hm w). unfold after in Hm.
  destruct (body w) as [[a|e] w']; simpl in *; [done|].
  rewrite <- Hm. apply Hf.
Qed.

Lemma preserves_tryFinally {A} (body : M A) cleanup :
  preserves part body → preserves part cleanup → preserves part (tryFinally body cleanup).
Proof.
  intros Hm Hf w. unfold after. rewrite run_tryFinally.
  specialize (Hm w). specialize (Hf (snd (body w))). unfold after in *.
  destruct (cleanup (snd (body w))) as [[a|e] w']; simpl in *; congruence.
Qed.

End Frames.

Create HintDb frame discriminated.

(** The head constant of an applied term. *)
Ltac head_of t :=
  lazymatch t with
  | ?f _ => head_of f
  | _ => t
  end.

(** A leaf of a frame goal: a field read after a field update. *)
Ltac frame_leaf :=
  intros;
  repeat match goal with t : target |- _ => destruct t end;
  reflexivity.

(** Splits a frame goal along the structure of the computation. *)
Ltac frame_step :=
  lazymatch goal with
  | |- preserves _ (mret _) => apply preserves_ret
  | |- preserves _ (throw _) => apply preserves_throw
  | |- preserves _ (gets _) => apply preserves_gets
  | |- preserves _ (await _) => apply preserves_await
  | |- preserves _ (_ ≫= _) => apply preserves_bind; [|intros ?]
  | |- preserves _ (tryCatch _ _) => apply preserves_tryCatch; [|intros ?]
  | |- preserves _ (tryFinally _ _) => apply preserves_tryFinally
  | |- preserves _ (match ?x with _ => _ end) => destruct x
  | |- preserves _ (modify _) => apply preserves_modify; frame_leaf
  | |- preserves _ (let _ := _ in _) => cbv zeta
  | |- preserves _ ?m =>
      first [ solve [auto with frame]
            | let h := head_of m in unfold h ]
  end.

Ltac frame := repeat frame_step.

Section FrameFacts.
Variable E : env.

Lemma forAwait_log t cs failure a : preserves log (forAwait t cs failure a).
Proof. revert a. induction cs as [|c cs IH]; intros a; simpl; frame. Qed.

Lemma forAwait_sessions t cs failure a : preserves sessions (forAwait t cs failure a).
Proof. revert a. induction cs as [|c cs IH]; intros a; simpl; frame. Qed.

Lemma forAwait_tabCache t cs failure a : preserves tabCache (forAwait t cs failure a).
Proof. revert a. induction cs as [|c cs IH]; intros a; simpl; frame. Qed.

Lemma create_tabCache k : preserves tabCache (create E k).
Proof. intros w. unfold after, create. by destruct (createResponse E (sessions w)). Qed.

Lemma extractText_tabCache : preserves tabCache (extractText E).
Proof. by intros w. Qed.

Lemma translate_tabCache t input : preserves tabCache (translate E t input).
Proof. by intros w. Qed.

End FrameFacts.

#[local] Hint Resolve forAwait_log forAwait_sessions forAwait_tabCache
  create_tabCache extractText_tabCache translate_tabCache : frame.

Section FrameFacts2.
Variable E : env.

Lemma runPromptApi_tabCache sp p t l sg : preserves tabCache (runPromptApi E sp p t l sg).
Proof. frame. Qed.

Lemma runAttempts_tabCache opts t remaining : preserves tabCache (runAttempts E opts t remaining).
Proof. induction remaining as [|input later IH]; simpl; frame. Qed.

Lemma runSummarizer_tabCache opts text t : preserves tabCache (runSummarizer E opts text t).
Proof. apply runAttempts_tabCache. Qed.

End FrameFacts2.

#[local] Hint Resolve runPromptApi_tabCache runAttempts_tabCache runSummarizer_tabCache : frame.

(** Runs the script on a world given by its fields: the combinators, the
    document operations and the provider calls are unfolded, the string
    functions and the loops are not. *)
Tactic Notation "run" :=
  cbv beta iota zeta delta
      [mbind M_bind mret M_ret throw gets modify await tryCatch tryFinally emit
       after outcome fst snd
       updTarget show clearElement setTextContent showSectionLoading
       showTranslatingIndicator renderMarkdownSafe renderKeyPointsWithImportance
       renderQuiz renderDialogue showPageInfo showStatus hideStatus setButton setLabel
       setDisabled setGenerating setAbortController newAbortController abort signalOf
       create destroy summarize promptStreaming prompt extractText ensurePageData
       attempt onAttemptError runPromptApi
       createTranslator translate destroyTranslator release obtainTranslator
       liveTab updateCache saveCurrentTabQuizChat setInnerHTML restoreFromCache
       clearResults showFreshState updateTabAccessibility extractForNewTab switchToTab
       onUpdated onRemoved
       outputLanguageFor currentPage startSlot noPageData resetSlot abortSlot cancelSlot
       catchSlot cancelTldr tldrRequest catchTldr guardTldr storeTldr tldrBody
       handleGenerateTldr cancelKeyPoints keyPointsViaSummarizer translateKeyPoints
       keyPointsBody catchKeyPoints guardKeyPoints handleGenerateKeyPoints
       cancelQuiz promptLanguage quizBody catchQuiz guardQuiz handleGenerateQuiz
       cancelDialogue storeDialogue dialogueBody catchDialogue guardDialogue
       handleGenerateDialogue removeBubble cancelCustomPrompt answerTranslated
       customPromptBody catchCustomPrompt guardCustomPrompt handleCustomPrompt
       isSummarizingTldr isSummarizingKeyPoints isGeneratingQuiz isGeneratingDialogue
       isAnsweringCustomPrompt tldrAbortController keyPointsAbortController
       quizAbortController dialogueAbortController customPromptAbortController
       summaryType summaryLength extractedPageData isSummarizing currentTabId tabCache
       pendingTranslator generating abortController langSelect customPromptInput
       statusBanner pageInfo buttons boxes chatHistory sessions translations extractions
       signals nodes aborted log
       set_extractedPageData set_currentTabId set_tabCache set_generating
       set_abortController set_customPromptInput set_statusBanner set_pageInfo
       set_buttons set_boxes set_chatHistory set_sessions set_translations
       set_extractions set_signals set_nodes set_aborted set_log].

Tactic Notation "run" "in" hyp(H) :=
  cbv beta iota zeta delta
      [mbind M_bind mret M_ret throw gets modify await tryCatch tryFinally emit
       after outcome fst snd
       updTarget show clearElement setTextContent showSectionLoading
       showTranslatingIndicator renderMarkdownSafe renderKeyPointsWithImportance
       renderQuiz renderDialogue showPageInfo showStatus hideStatus setButton setLabel
       setDisabled setGenerating setAbortController newAbortController abort signalOf
       create destroy summarize promptStreaming prompt extractText ensurePageData
       attempt onAttemptError runPromptApi
       createTranslator translate destroyTranslator release obtainTranslator
       liveTab updateCache saveCurrentTabQuizChat setInnerHTML restoreFromCache
       clearResults showFreshState updateTabAccessibility extractForNewTab switchToTab
       onUpdated onRemoved
       outputLanguageFor currentPage startSlot noPageData resetSlot abortSlot cancelSlot
       catchSlot cancelTldr tldrRequest catchTldr guardTldr storeTldr tldrBody
       handleGenerateTldr cancelKeyPoints keyPointsViaSummarizer translateKeyPoints
       keyPointsBody catchKeyPoints guardKeyPoints handleGenerateKeyPoints
       cancelQuiz promptLanguage quizBody catchQuiz guardQuiz handleGenerateQuiz
       cancelDialogue storeDialogue dialogueBody catchDialogue guardDialogue
       handleGenerateDialogue removeBubble cancelCustomPrompt answerTranslated
       customPromptBody catchCustomPrompt guardCustomPrompt handleCustomPrompt
       isSummarizingTldr isSummarizingKeyPoints isGeneratingQuiz isGeneratingDialogue
       isAnsweringCustomPrompt tldrAbortController keyPointsAbortController
       quizAbortController dialogueAbortController customPromptAbortController
       summaryType summaryLength extractedPageData isSummarizing currentTabId tabCache
       pendingTranslator generating abortController langSelect customPromptInput
       statusBanner pageInfo buttons boxes chatHistory sessions translations extractions
       signals nodes aborted log
       set_extractedPageData set_currentTabId set_tabCache set_generating
       set_abortController set_customPromptInput set_statusBanner set_pageInfo
       set_buttons set_boxes set_chatHistory set_sessions set_translations
       set_extractions set_signals set_nodes set_aborted set_log] in H.

(** ** The summarizer retry ladder *)

Section LadderFacts.
Variable E : env.

Lemma attempts_long text :
  6000 < N.of_nat (length text) →
  attempts text = [text; truncatedTo 2 text; truncatedTo 4 text].
Proof.
  intros H. unfold attempts, truncatedTo, substring0.
  replace (6000 <? N.of_nat (length text)) with true by (symmetry; apply N.ltb_lt; lia).
  by replace (3000 <? N.of_nat (length text)) with true by (symmetry; apply N.ltb_lt; lia).
Qed.

Lemma attempts_medium text :
  3000 < N.of_nat (length text) ≤ 6000 → attempts text = [text; truncatedTo 4 text].
Proof.
  intros H. unfold attempts, truncatedTo, substring0.
  replace (6000 <? N.of_nat (length text)) with false by (symmetry; apply N.ltb_ge; lia).
  by replace (3000 <? N.of_nat (length text)) with true by (symmetry; apply N.ltb_lt; lia).
Qed.

Lemma attempts_short text : N.of_nat (length text) ≤ 3000 → attempts text = [text].
Proof.
  intros H. unfold attempts.
  replace (6000 <? N.of_nat (length text)) with false by (symmetry; apply N.ltb_ge; lia).
  by replace (3000 <? N.of_nat (length text)) with false by (symmetry; apply N.ltb_ge; lia).
Qed.

Lemma newEvents_app {A} (m : M A) w evs :
  log (after m w) = log w ++ evs → newEvents m w = evs.
Proof. intros H. unfold newEvents. rewrite H. apply drop_app_length. Qed.

(** A creation that is rejected ends the loop with the rejection; no
    session exists. *)
Lemma attempt_not_created opts t input later w e :
  createResponse E (sessions w) = Some e →
  outcome (runAttempts E opts t (input :: later)) w = Thrown e ∧
  log (after (runAttempts E opts t (input :: later)) w) = log w.
Proof.
  intros Hc. cbn [runAttempts]. destruct w, t; run in Hc; run; by rewrite Hc.
Qed.

(** One turn of the loop, by what the summarizer answers. *)
Lemma iteration opts t input later w :
  createResponse E (sessions w) = None →
  let m := runAttempts E opts t (input :: later) in
  match summarizeResponse E (sessions w) input with
  | Thrown err =>
      if isAborted err then
        outcome m w = Thrown err ∧
        log (after m w) = log w ++ attemptTrace (sessions w) input
      else if isTooLarge err && negb (bool_decide (later = [])) then
        ∃ w', m w = runAttempts E opts t later w' ∧
              log w' = log w ++ attemptTrace (sessions w) input ∧
              sessions w' = S (sessions w)
      else
        outcome m w = Ok None ∧
        log (after m w) = log w ++ attemptTrace (sessions w) input ∧
        ∀ b, t = BoxOf b → shown (boxes (after m w) b) = TextContent (errorLine err)
  | Ok summary =>
      outcome m w = Ok (orNull summary) ∧
      log (after m w) = log w ++ attemptTrace (sessions w) input
  end.
Proof.
  intros Hc m. subst m. cbn [runAttempts].
  destruct w, t; run in Hc; run; rewrite Hc; run.
  all: destruct (summarizeResponse E _ input) as [[s|]|err]; run; unfold orNull, attemptTrace.
  all: try destruct (truthy s); try destruct (isAborted err);
       try destruct (isTooLarge err && negb (bool_decide (later = [])));
       run; rewrite <- ?app_assoc; try done.
  all: try (eexists; (split; [reflexivity|]); run; by rewrite <- ?app_assoc).
  repeat split; try done. intros b' [= <-]. by rewrite fn_lookup_insert.
Qed.

(** The whole loop: some first attempts are made, each with a session
    of its own that is destroyed before the next one is created, and an
    attempt is followed by another one only after a too-large report
    that is not a cancellation. *)
Lemma runAttempts_trace opts t remaining w :
  ∃ n, (n ≤ length remaining)%nat ∧
    log (after (runAttempts E opts t remaining) w)
    = log w ++ ladderTrace (sessions w) (take n remaining) ∧
    ∀ i input, (S i < n)%nat → remaining !! i = Some input →
      ∃ err, summarizeResponse E (sessions w + i) input = Thrown err ∧
             isTooLarge err = true ∧ isAborted err = false.
Proof.
  revert w. induction remaining as [|input later IH]; intros w.
  - exists 0%nat. split; [done|]. split; [|intros; lia].
    cbn [runAttempts take ladderTrace]. rewrite app_nil_r. destruct w, t; by run.
  - destruct (createResponse E (sessions w)) as [e|] eqn:Hc.
    + exists 0%nat. split; [simpl; lia|]. split; [|intros; lia].
      cbn [take ladderTrace]. rewrite app_nil_r.
      by apply (attempt_not_created opts t input later w e).
    + pose proof (iteration opts t input later w Hc) as Hit. cbv zeta in Hit.
      destruct (summarizeResponse E (sessions w) input) as [summary|err] eqn:Hs.
      { exists 1%nat. split; [simpl; lia|]. split; [|intros; lia].
        cbn [take ladderTrace]. rewrite app_nil_r. apply Hit. }
      destruct (isAborted err) eqn:Ha.
      { exists 1%nat. split; [simpl; lia|]. split; [|intros; lia].
        cbn [take ladderTrace]. rewrite app_nil_r. apply Hit. }
      destruct (isTooLarge err && negb (bool_decide (later = []))) eqn:Hl.
      * destruct Hit as (w' & Hrun & Hlog & Hses).
        destruct (IH w') as (n & Hn & Hlog' & Hretry).
        exists (S n). split; [simpl; lia|]. split.
        -- unfold after. rewrite Hrun. fold (after (runAttempts E opts t later) w').
           rewrite Hlog', Hlog, Hses. cbn [take ladderTrace]. by rewrite <- app_assoc.
        -- intros [|i] input' Hi Hlook.
           ++ injection Hlook as <-. exists err. rewrite Nat.add_0_r.
              apply andb_true_iff in Hl as [Hl _]. done.
           ++ simpl in Hlook. destruct (Hretry i input') as (err' & He & Hrest); [lia|done|].
              exists err'. split; [|done]. rewrite <- He. f_equal. rewrite Hses. lia.
      * exists 1%nat. split; [simpl; lia|]. split; [|intros; lia].
        cbn [take ladderTrace]. rewrite app_nil_r. apply Hit.
Qed.

End LadderFacts.

Section LadderClaims.
Variable E : env.

Lemma attempts_sublist text :
  attempts text `sublist_of` [text; truncatedTo 2 text; truncatedTo 4 text].
Proof.
  destruct (N.ltb_spec 6000 (N.of_nat (length text))) as [H6|H6].
  { by rewrite attempts_long. }
  destruct (N.ltb_spec 3000 (N.of_nat (length text))) as [H3|H3].
  - rewrite attempts_medium by lia. apply sublist_skip, sublist_cons, sublist_skip, sublist_nil.
  - rewrite attempts_short by lia. apply sublist_skip, sublist_cons, sublist_cons, sublist_nil.
Qed.

Lemma other_error_ends opts t input later w err :
  createResponse E (sessions w) = None →
  summarizeResponse E (sessions w) input = Thrown err →
  isAborted err = false → isTooLarge err = false →
  outcome (runAttempts E opts t (input :: later)) w = Ok None ∧
  newEvents (runAttempts E opts t (input :: later)) w = attemptTrace (sessions w) input.
Proof.
  intros Hc Hs Ha Hl. pose proof (iteration E opts t input later w Hc) as Hit.
  cbv zeta in Hit. rewrite Hs, Ha, Hl in Hit. cbn [andb] in Hit.
  destruct Hit as (Hout & Hlog & _). split; [done | by apply newEvents_app].
Qed.

Lemma too_large_continues opts t input later w err :
  createResponse E (sessions w) = None →
  summarizeResponse E (sessions w) input = Thrown err →
  isAborted err = false → isTooLarge err = true → later ≠ [] →
  ∃ w', runAttempts E opts t (input :: later) w = runAttempts E opts t later w' ∧
        log w' = log w ++ attemptTrace (sessions w) input ∧
        sessions w' = S (sessions w).
Proof.
  intros Hc Hs Ha Hl Hlater. pose proof (iteration E opts t input later w Hc) as Hit.
  cbv zeta in Hit. rewrite Hs, Ha, Hl in Hit.
  by rewrite bool_decide_eq_false_2 in Hit.
Qed.

Lemma last_attempt_ends opts t input w :
  createResponse E (sessions w) = None →
  log (after (runAttempts E opts t [input]) w) = log w ++ attemptTrace (sessions w) input.
Proof.
  intros Hc. pose proof (iteration E opts t input [] w Hc) as Hit. cbv zeta in Hit.
  destruct (summarizeResponse E (sessions w) input) as [summary|err]; [apply Hit|].
  destruct (isAborted err); [apply Hit|].
  rewrite andb_false_r in Hit. apply Hit.
Qed.

End LadderClaims.

(** C3.  [runSummarizer] makes its attempts in the order full text, half,
    quarter.  Every attempt has a session of its own, created for it and
    destroyed before the next attempt starts, and an attempt is followed
    by another one only when the summarizer reported a too-large input
    with an error that is not a cancellation.  Any other error that is
    not a cancellation ends the sequence at once, with no result.  When
    the text is longer than 6000 code units and the full and the half
    text are reported too large while the quarter succeeds, the result of
    the quarter is returned after exactly three sessions, each
    destroyed. *)
Theorem summarizer_retry_on_too_large (E : env) (opts : options) (text : jsstring)
    (b : box) (w : world) :
  attempts text `sublist_of` [text; truncatedTo 2 text; truncatedTo 4 text] ∧
  (∃ n, (n ≤ length (attempts text))%nat ∧
     newEvents (runSummarizer E opts text b) w
     = ladderTrace (sessions w) (take n (attempts text)) ∧
     ∀ i input, (S i < n)%nat → attempts text !! i = Some input →
       ∃ err, summarizeResponse E (sessions w + i) input = Thrown err ∧
              isTooLarge err = true ∧ isAborted err = false) ∧
  (∀ input later w' err,
     createResponse E (sessions w') = None →
     summarizeResponse E (sessions w') input = Thrown err →
     isAborted err = false → isTooLarge err = false →
     outcome (runAttempts E opts b (input :: later)) w' = Ok None ∧
     newEvents (runAttempts E opts b (input :: later)) w' = attemptTrace (sessions w') input) ∧
  (∀ e1 e2 summary,
     6000 < N.of_nat (length text) →
     createResponse E (sessions w) = None →
     createResponse E (S (sessions w)) = None →
     createResponse E (S (S (sessions w))) = None →
     summarizeResponse E (sessions w) text = Thrown e1 →
     isTooLarge e1 = true → isAborted e1 = false →
     summarizeResponse E (S (sessions w)) (truncatedTo 2 text) = Thrown e2 →
     isTooLarge e2 = true → isAborted e2 = false →
     summarizeResponse E (S (S (sessions w))) (truncatedTo 4 text) = Ok (Some summary) →
     truthy summary = true →
     outcome (runSummarizer E opts text b) w = Ok (Some summary) ∧
     newEvents (runSummarizer E opts text b) w
     = ladderTrace (sessions w) [text; truncatedTo 2 text; truncatedTo 4 text]).
Proof.
  split; [apply attempts_sublist|]. split; [|split].
  - destruct (runAttempts_trace E opts b (attempts text) w) as (n & Hn & Hlog & Hretry).
    exists n. split; [done|]. split; [|done]. by apply newEvents_app.
  - intros input later w' err. apply other_error_ends.
  - intros e1 e2 summary Hlen Hc0 Hc1 Hc2 Hs0 Hl0 Ha0 Hs1 Hl1 Ha1 Hs2 Htruthy.
    unfold runSummarizer. rewrite (attempts_long text Hlen).
    destruct (too_large_continues E opts b text [truncatedTo 2 text; truncatedTo 4 text]
                w e1 Hc0 Hs0 Ha0 Hl0) as (w1 & Hrun1 & Hlog1 & Hses1); [done|].
    rewrite <- Hses1 in Hc1, Hs1, Hc2, Hs2.
    destruct (too_large_continues E opts b (truncatedTo 2 text) [truncatedTo 4 text]
                w1 e2 Hc1 Hs1 Ha1 Hl1) as (w2 & Hrun2 & Hlog2 & Hses2); [done|].
    rewrite <- Hses2 in Hc2, Hs2.
    pose proof (iteration E opts b (truncatedTo 4 text) [] w2 Hc2) as Hit.
    cbv zeta in Hit. rewrite Hs2 in Hit. destruct Hit as [Hout Hlog3].
    unfold outcome, after in *. rewrite Hrun1, Hrun2. split.
    + rewrite Hout. unfold orNull. by rewrite Htruthy.
    + apply newEvents_app. unfold after. rewrite Hrun1, Hrun2, Hlog3, Hlog2, Hlog1, Hses2, Hses1.
      cbn [ladderTrace]. by rewrite <- !app_assoc, app_nil_r.
Qed.

(** With a text of 6001 code units, too large reported twice and a
    summary on the third attempt, that summary is returned. *)
Lemma summarizer_retry_on_too_large_witness :
  outcome (runSummarizer Scenario.tooLargeTwice Scenario.tldrOptions Scenario.longText
                         tldrContent) Scenario.loaded
  = Ok (Some (js "Short summary.")).
Proof.
  refine (proj1 (proj2 (proj2 (proj2
            (summarizer_retry_on_too_large Scenario.tooLargeTwice Scenario.tldrOptions
               Scenario.longText tldrContent Scenario.loaded)))
            Scenario.tooLarge Scenario.tooLarge (js "Short summary.")
            _ _ _ _ _ _ _ _ _ _ _ _)); vm_compute; reflexivity.
Defined.

(** C10.  The half-length attempt exists only for a text longer than
    6000 code units and the quarter-length attempt only for one longer
    than 3000.  For a text of at most 3000 code units a too-large report
    is shown as an error at once, after the only attempt; for a text of
    more than 3000 and at most 6000 code units the attempt that follows a
    too-large report is the quarter-length one, and it is the last. *)
Theorem retry_ladder_is_length_gated (E : env) (opts : options) (text : jsstring)
    (b : box) (w : world) :
  (N.of_nat (length text) ≤ 3000 → attempts text = [text]) ∧
  (3000 < N.of_nat (length text) ≤ 6000 → attempts text = [text; truncatedTo 4 text]) ∧
  (6000 < N.of_nat (length text) →
     attempts text = [text; truncatedTo 2 text; truncatedTo 4 text]) ∧
  (N.of_nat (length text) ≤ 3000 →
     ∀ err,
       createResponse E (sessions w) = None →
       summarizeResponse E (sessions w) text = Thrown err →
       isTooLarge err = true → isAborted err = false →
       outcome (runSummarizer E opts text b) w = Ok None ∧
       newEvents (runSummarizer E opts text b) w = attemptTrace (sessions w) text ∧
       shown (boxes (after (runSummarizer E opts text b) w) b) = TextContent (errorLine err)) ∧
  (3000 < N.of_nat (length text) ≤ 6000 →
     ∀ err,
       createResponse E (sessions w) = None →
       createResponse E (S (sessions w)) = None →
       summarizeResponse E (sessions w) text = Thrown err →
       isTooLarge err = true → isAborted err = false →
       newEvents (runSummarizer E opts text b) w
       = ladderTrace (sessions w) [text; truncatedTo 4 text]).
Proof.
  split; [apply attempts_short|]. split; [apply attempts_medium|].
  split; [apply attempts_long|]. split.
  - intros Hlen err Hc Hs Hl Ha. unfold runSummarizer. rewrite (attempts_short text Hlen).
    pose proof (iteration E opts b text [] w Hc) as Hit. cbv zeta in Hit.
    rewrite Hs, Ha, Hl in Hit. cbn in Hit. destruct Hit as (Hout & Hlog & Hshown).
    split; [done|]. split; [by apply newEvents_app | by apply Hshown].
  - intros Hlen err Hc0 Hc1 Hs Hl Ha. unfold runSummarizer.
    rewrite (attempts_medium text Hlen).
    destruct (too_large_continues E opts b text [truncatedTo 4 text] w err Hc0 Hs Ha Hl)
      as (w1 & Hrun & Hlog & Hses); [done|].
    rewrite <- Hses in Hc1. apply newEvents_app. unfold after. rewrite Hrun.
    fold (after (runAttempts E opts b [truncatedTo 4 text]) w1).
    rewrite (last_attempt_ends E opts b _ w1 Hc1), Hlog, Hses.
    cbn [ladderTrace]. by rewrite <- app_assoc, app_nil_r.
Qed.

(** A short text whose summarizer reports a too-large input: no result,
    one attempt. *)
Lemma retry_ladder_is_length_gated_witness :
  outcome (runSummarizer Scenario.tooLargeAlways Scenario.tldrOptions (js "A short text.")
                         tldrContent) Scenario.loaded = Ok None.
Proof.
  refine (proj1 (proj1 (proj2 (proj2 (proj2
            (retry_ladder_is_length_gated Scenario.tooLargeAlways Scenario.tldrOptions
               (js "A short text.") tldrContent Scenario.loaded)))) _ Scenario.tooLarge
            _ _ _ _)); vm_compute; first [reflexivity | discriminate].
Defined.

(** ** Sessions are released exactly once *)

Section SessionFacts.
Variable E : env.

Lemma createdIn_app evs1 evs2 : createdIn (evs1 ++ evs2) = createdIn evs1 ++ createdIn evs2.
Proof. apply omap_app. Qed.

Lemma destroyedIn_app evs1 evs2 :
  destroyedIn (evs1 ++ evs2) = destroyedIn evs1 ++ destroyedIn evs2.
Proof. apply omap_app. Qed.

Lemma ladderTrace_created sid inputs :
  createdIn (ladderTrace sid inputs) = seq sid (length inputs) ∧
  destroyedIn (ladderTrace sid inputs) = seq sid (length inputs).
Proof.
  revert sid. induction inputs as [|input later IH]; intros sid; [done|].
  destruct (IH (S sid)) as [Hc Hd]. cbn [ladderTrace length seq].
  by rewrite createdIn_app, destroyedIn_app, Hc, Hd.
Qed.

Lemma ladder_releasedOnce sid inputs : releasedOnce (ladderTrace sid inputs).
Proof.
  destruct (ladderTrace_created sid inputs) as [Hc Hd].
  split; [congruence|]. rewrite Hc. apply NoDup_seq.
Qed.

Lemma runSummarizer_releasedOnce opts text t w :
  releasedOnce (newEvents (runSummarizer E opts text t) w).
Proof.
  destruct (runAttempts_trace E opts t (attempts text) w) as (n & _ & Hlog & _).
  unfold runSummarizer. rewrite (newEvents_app _ _ _ Hlog). apply ladder_releasedOnce.
Qed.

Lemma releasedOnce_nil : releasedOnce [].
Proof. split; [done | constructor]. Qed.

Lemma releasedOnce_one k sid mid :
  createdIn mid = [] → destroyedIn mid = [] →
  releasedOnce (Created k sid :: mid ++ [Destroyed sid]).
Proof.
  intros Hc Hd. unfold releasedOnce.
  change (Created k sid :: mid ++ [Destroyed sid])
    with ([Created k sid] ++ mid ++ [Destroyed sid]).
  rewrite !createdIn_app, !destroyedIn_app, Hc, Hd. split; [done|].
  apply NoDup_singleton.
Qed.

End SessionFacts.

(** Case analysis on what the script inspects next: a scrutinee that
    contains no other case analysis. *)
Ltac split_scrutinee :=
  match goal with
  | |- context [match ?x with _ => _ end] =>
      lazymatch x with
      | context [match _ with _ => _ end] => fail
      | _ => destruct x
      end
  end.

Ltac released :=
  first [ apply releasedOnce_nil
        | split; [reflexivity | first [apply NoDup_nil_2 | apply NoDup_singleton]] ].

Section SessionClaims.
Variable E : env.

Lemma runPromptApi_trace sp p t l sg w :
  newEvents (runPromptApi E sp p t l sg) w = []
  ∨ newEvents (runPromptApi E sp p t l sg) w
    = [Created LanguageModelSession (sessions w); Prompted (sessions w) p;
       Destroyed (sessions w)].
Proof.
  destruct w. destruct (createResponse E sessions0) eqn:Hc.
  - left. unfold newEvents. run. rewrite Hc. run. apply drop_all.
  - right. apply newEvents_app. run. rewrite Hc. run.
    destruct (promptStreamingResponse E sessions0 p) as [s|e]; run.
    + match goal with |- context [forAwait ?t ?cs ?f ?a ?W] =>
        pose proof (forAwait_log t cs f a W) as Hlog; unfold after in Hlog;
        destruct (forAwait t cs f a W) as [r w'] end.
      destruct w'. run in Hlog. subst. destruct r; run; by rewrite <- ?app_assoc.
    + by rewrite <- ?app_assoc.
Qed.

Lemma runPromptApi_releasedOnce sp p t l sg w :
  releasedOnce (newEvents (runPromptApi E sp p t l sg) w).
Proof. destruct (runPromptApi_trace sp p t l sg w) as [-> | ->]; released. Qed.

Lemma handleGenerateQuiz_releasedOnce w : releasedOnce (newEvents (handleGenerateQuiz E) w).
Proof.
  destruct w. unfold newEvents. run.
  repeat (split_scrutinee; cbn [negb]; run; rewrite ?fn_lookup_insert; run).
  all: rewrite <- ?app_assoc, ?drop_app_length, ?drop_all.
  all: released.
Qed.

Lemma handleGenerateDialogue_releasedOnce w :
  releasedOnce (newEvents (handleGenerateDialogue E) w).
Proof.
  destruct w. unfold newEvents. run.
  repeat (split_scrutinee; cbn [negb]; run; rewrite ?fn_lookup_insert; run).
  all: rewrite <- ?app_assoc, ?drop_app_length, ?drop_all.
  all: released.
Qed.

End SessionClaims.

(** C7.  Whatever the browser and the models answer, and whether the
    call ends with a result, an error or a cancellation, the sessions
    that [runSummarizer], [runPromptApi], [handleGenerateQuiz] and
    [handleGenerateDialogue] create are the sessions they destroy: each
    one once, none twice, none left. *)
Theorem sessions_destroyed_exactly_once (E : env) (w : world) :
  (∀ opts text t, releasedOnce (newEvents (runSummarizer E opts text t) w)) ∧
  (∀ systemPrompt prompt t outputLanguage signal,
     releasedOnce (newEvents (runPromptApi E systemPrompt prompt t outputLanguage signal) w)) ∧
  releasedOnce (newEvents (handleGenerateQuiz E) w) ∧
  releasedOnce (newEvents (handleGenerateDialogue E) w).
Proof.
  split; [|split; [|split]].
  - intros. apply runSummarizer_releasedOnce.
  - intros. apply runPromptApi_releasedOnce.
  - apply handleGenerateQuiz_releasedOnce.
  - apply handleGenerateDialogue_releasedOnce.
Qed.

(* ===================================================================== *)
(** ** The translation helpers *)
(* ===================================================================== *)

Ltac split_scrutinee_eq :=
  match goal with
  | |- context [match ?x with _ => _ end] =>
      lazymatch x with
      | context [match _ with _ => _ end] => fail
      | _ => destruct x eqn:?
      end
  end.

Section TranslationFacts.
Variable E : env.

Lemma translateIfNeeded_shape text lang :
  translateIfNeeded E text lang = recovering E (translate E) text lang.
Proof. reflexivity. Qed.

Lemma translateKeyPointsIfNeeded_shape text lang :
  translateKeyPointsIfNeeded E text lang
  = recovering E (translateKeyPointsPreservingFormat E) text lang.
Proof. reflexivity. Qed.

(** Whatever the pass does, the frame returns: the text it was given, or
    what the pass answered when that is usable. *)
Lemma recovering_outcome pass text lang w :
  ∃ v, outcome (recovering E pass text lang) w = Ok v ∧
    (v = text ∨
     ∃ tr w1 t, translations w1 = translations w ∧
                outcome (pass tr text) w1 = Ok (Some t) ∧
                usable (Some t) = true ∧ v = t).
Proof.
  unfold recovering. destruct w.
  destruct (negb (truthy text) || bool_decide (lang = js "en")); run.
  { eexists. split; [reflexivity|]. by left. }
  repeat (split_scrutinee_eq; run).
  all: try (eexists; split; [reflexivity|]; by left).
  all: eexists; (split; [reflexivity|]); right.
  all: match goal with
       | H : _ ?t _ ?W = (Ok (Some ?l), _) |- _ =>
           exists t, W, l; unfold outcome; rewrite H
       end.
  all: repeat split; try reflexivity.
  all: subst; try assumption.
Qed.

Lemma recovering_en_or_empty pass text lang w :
  lang = js "en" ∨ text = [] → outcome (recovering E pass text lang) w = Ok text.
Proof.
  intros [-> | ->]; unfold recovering.
  - rewrite bool_decide_eq_true_2 by reflexivity. rewrite orb_true_r. reflexivity.
  - reflexivity.
Qed.

Lemma recovering_noTranslator pass text lang w :
  noTranslator E w → outcome (recovering E pass text lang) w = Ok text.
Proof.
  unfold recovering. destruct w.
  destruct (negb (truthy text) || bool_decide (lang = js "en")); [reflexivity|].
  intros [[e H] | [H H']]; cbn in H; try cbn in H'.
  - subst. run. reflexivity.
  - destruct H as [-> | ->], H' as [H' | [e H']]; run;
      destruct (translatorApi E); try discriminate; run; rewrite ?H'; run; reflexivity.
Qed.

Lemma translate_outcome tr text w :
  outcome (translate E tr text) w = wholeAnswer E w text.
Proof. reflexivity. Qed.

(** The chain of [translateKeyPointsPreservingFormat] asks for the
    bodies in turn. *)
Lemma translateEach_run tr items : ∀ w,
  outcome (translateEach E tr items) w = eachAnswer E (translations w) items.
Proof.
  induction items as [|i later IH]; intros w; [reflexivity|].
  cbn [translateEach eachAnswer]. unfold outcome in *.
  rewrite run_bind. unfold translate at 1. cbn [fst snd].
  destruct (translateResponse E (translations w) (body i)); [|reflexivity].
  rewrite run_bind.
  match goal with |- context [translateEach E tr later ?W] =>
    specialize (IH W); destruct (translateEach E tr later W) as [r w'] end.
  cbn [fst] in IH. subst r. destruct w; cbn.
  match goal with |- context [eachAnswer E ?n later] =>
    destruct (eachAnswer E n later); reflexivity end.
Qed.

Lemma eachAnswer_thrown items : ∀ n i it e,
  items !! i = Some it →
  translateResponse E (n + i) (body it) = Thrown e →
  ∃ e', eachAnswer E n items = Thrown e'.
Proof.
  induction items as [|x later IH]; intros n i it e Hi He; [done|].
  cbn [eachAnswer]. destruct i as [|i]; cbn in Hi.
  - injection Hi as ->. rewrite Nat.add_0_r in He. rewrite He. eauto.
  - destruct (translateResponse E n (body x)); [|eauto].
    replace (n + S i)%nat with (S n + i)%nat in He by lia.
    destruct (IH (S n) i it e Hi He) as [e' ->]. eauto.
Qed.

Lemma eachAnswer_ok items : ∀ n lines,
  eachAnswer E n items = Ok lines →
  Forall2 (λ it line, ∃ r, line = rebuilt it r) items lines ∧
  ∀ i it, items !! i = Some it →
    ∃ r, translateResponse E (n + i) (body it) = Ok r ∧ lines !! i = Some (rebuilt it r).
Proof.
  induction items as [|x later IH]; intros n lines H; cbn [eachAnswer] in H.
  - injection H as <-. split; [constructor | done].
  - destruct (translateResponse E n (body x)) as [r|] eqn:Hr; [|done].
    destruct (eachAnswer E (S n) later) as [ls|] eqn:Hl; [|done].
    injection H as <-. destruct (IH _ _ Hl) as [F L]. split.
    + constructor; eauto.
    + intros [|i] it Hi; cbn in Hi.
      * injection Hi as ->. rewrite Nat.add_0_r. eauto.
      * replace (n + S i)%nat with (S n + i)%nat by lia. apply (L i it Hi).
Qed.

Lemma preservingFormat_outcome tr text w :
  outcome (translateKeyPointsPreservingFormat E tr text) w
  = if bool_decide (parseItems text = []) then wholeAnswer E w text
    else match eachAnswer E (translations w) (parseItems text) with
         | Ok lines => Ok (Some (join [LF] lines))
         | Thrown e => Thrown e
         end.
Proof.
  unfold translateKeyPointsPreservingFormat. cbv zeta.
  case_bool_decide; [reflexivity|].
  unfold outcome. rewrite run_bind.
  pose proof (translateEach_run tr (parseItems text) w) as Hrun. unfold outcome in Hrun.
  destruct (translateEach E tr (parseItems text) w) as [r w']. cbn [fst] in Hrun. subst r.
  destruct (eachAnswer E (translations w) (parseItems text)); reflexivity.
Qed.

Lemma rebuilt_unusable it r : usable r = false → rebuilt it r = untranslated it.
Proof.
  unfold usable, rebuilt, untranslated. destruct r as [t|]; [|done].
  intros ->. reflexivity.
Qed.

End TranslationFacts.

(** C9, as it is worded, fails on a key-points text whose items parse: a
    translator that answers every call with the empty string makes
    [translateKeyPointsIfNeeded] return the rebuilt line, which is not
    the text it was given. *)
Lemma translateKeyPointsIfNeeded_rebuilds_counterexample :
  translateResponse Scenario.silentTranslator 0 (js "Point A") = Ok (Some []) ∧
  usable (Some []) = false ∧
  outcome (translateKeyPointsIfNeeded Scenario.silentTranslator
             (js "* [high] Point A") (js "ja")) Scenario.loaded
  = Ok (js "- [HIGH] Point A") ∧
  js "- [HIGH] Point A" ≠ js "* [high] Point A".
Proof. vm_compute. repeat split; discriminate. Qed.

(** C9 (amended).  [translateIfNeeded] and [translateKeyPointsIfNeeded]
    never throw.  Each returns the text it was given when the target
    language is en, when the text is empty, when no translator can be
    had, when a translate call of its pass throws, and when the
    translation of the whole text (the only call of [translateIfNeeded],
    and the call [translateKeyPointsIfNeeded] makes when no line parses
    as an item) is empty or white space.  Otherwise it returns that
    translation, or, when items parse, the lines rebuilt from the items,
    where an item whose own translation is empty or white space keeps
    its untranslated body. *)
Theorem translation_helpers_recover (E : env) (text lang : jsstring) (w : world) :
  (∃ v, outcome (translateIfNeeded E text lang) w = Ok v ∧
        (v = text ∨ (wholeAnswer E w text = Ok (Some v) ∧ usable (Some v) = true))) ∧
  (∃ v, outcome (translateKeyPointsIfNeeded E text lang) w = Ok v ∧
        (v = text ∨
         (parseItems text = [] ∧ wholeAnswer E w text = Ok (Some v) ∧
          usable (Some v) = true) ∨
         (parseItems text ≠ [] ∧ ∃ lines, v = join [LF] lines ∧
            length lines = length (parseItems text) ∧
            ∀ i it, parseItems text !! i = Some it →
              ∃ r, itemAnswer E w i it = Ok r ∧
                   lines !! i = Some (rebuilt it r) ∧
                   (usable r = false → lines !! i = Some (untranslated it))))) ∧
  (lang = js "en" ∨ text = [] ∨ noTranslator E w →
     outcome (translateIfNeeded E text lang) w = Ok text ∧
     outcome (translateKeyPointsIfNeeded E text lang) w = Ok text) ∧
  ((∃ e, wholeAnswer E w text = Thrown e) ∨
   (∃ r, wholeAnswer E w text = Ok r ∧ usable r = false) →
     outcome (translateIfNeeded E text lang) w = Ok text ∧
     (parseItems text = [] → outcome (translateKeyPointsIfNeeded E text lang) w = Ok text)) ∧
  (∀ i it e, parseItems text !! i = Some it →
     itemAnswer E w i it = Thrown e →
     outcome (translateKeyPointsIfNeeded E text lang) w = Ok text).
Proof.
  unfold itemAnswer.
  rewrite translateIfNeeded_shape, translateKeyPointsIfNeeded_shape.
  pose proof (recovering_outcome E (translate E) text lang w) as (v1 & O1 & C1).
  pose proof (recovering_outcome E (translateKeyPointsPreservingFormat E) text lang w)
    as (v2 & O2 & C2).
  assert (K1 : v1 = text ∨ (wholeAnswer E w text = Ok (Some v1) ∧ usable (Some v1) = true)).
  { destruct C1 as [?|(tr & w1 & t & Hn & Ho & Hu & ->)]; [by left|right].
    rewrite translate_outcome in Ho. unfold wholeAnswer in *. rewrite Hn in Ho. done. }
  assert (K2 : v2 = text ∨
         (parseItems text = [] ∧ wholeAnswer E w text = Ok (Some v2) ∧
          usable (Some v2) = true) ∨
         (parseItems text ≠ [] ∧
          ∃ lines, eachAnswer E (translations w) (parseItems text) = Ok lines ∧
                   v2 = join [LF] lines)).
  { destruct C2 as [?|(tr & w1 & t & Hn & Ho & Hu & ->)]; [by left|right].
    rewrite preservingFormat_outcome in Ho. unfold wholeAnswer in *. rewrite Hn in Ho.
    case_bool_decide as Hi.
    - left. done.
    - right. split; [done|].
      destruct (eachAnswer E (translations w) (parseItems text)) as [lines|]; [|done].
      injection Ho as <-. eauto. }
  rewrite O1, O2. repeat split.
  - eauto.
  - exists v2. split; [done|].
    destruct K2 as [?|[?|(Hi & lines & Hl & ->)]]; [by left | by right; left |].
    right; right. split; [done|]. exists lines. split; [done|].
    destruct (eachAnswer_ok _ _ _ _ Hl) as [F L].
    split; [symmetry; by eapply Forall2_length|].
    intros i it Hit. destruct (L i it Hit) as (r & Hr & Hline).
    exists r. repeat split; try done.
    intros Hu. by rewrite <- (rebuilt_unusable it r Hu).
  - rewrite <- O1. destruct H as [H|[H|H]];
      [apply recovering_en_or_empty; by left
      |apply recovering_en_or_empty; by right
      |by apply recovering_noTranslator].
  - rewrite <- O2. destruct H as [H|[H|H]];
      [apply recovering_en_or_empty; by left
      |apply recovering_en_or_empty; by right
      |by apply recovering_noTranslator].
  - destruct K1 as [->|[Hw Hu]]; [done|].
    destruct H as [[e He]|(r & Hr & Hr')]; rewrite Hw in *; [done|].
    injection Hr as <-. congruence.
  - intros Hi. destruct K2 as [->|[(_ & Hw & Hu)|(Hn & _)]]; [done| |done].
    destruct H as [[e He]|(r & Hr & Hr')]; rewrite Hw in *; [done|].
    injection Hr as <-. congruence.
  - intros i it e Hit He.
    destruct K2 as [->|[(Hi & _)|(_ & lines & Hl & _)]]; [done| |].
    + rewrite Hi in Hit. done.
    + destruct (eachAnswer_thrown _ _ _ _ _ _ Hit He) as [e' He']. congruence.
Qed.

(** With en as the target both helpers hand back the text they were
    given. *)
Lemma translation_helpers_recover_witness :
  outcome (translateIfNeeded Scenario.willing (js "Hello") (js "en")) Scenario.loaded
  = Ok (js "Hello") ∧
  outcome (translateKeyPointsIfNeeded Scenario.willing (js "Hello") (js "en")) Scenario.loaded
  = Ok (js "Hello").
Proof.
  apply (translation_helpers_recover Scenario.willing (js "Hello") (js "en") Scenario.loaded).
  left. reflexivity.
Defined.

(* ===================================================================== *)
(** ** Key points, item by item *)
(* ===================================================================== *)

Section ItemFacts.
Variable E : env.

Lemma translateEach_log tr items : ∀ w,
  ∃ k, log (after (translateEach E tr items) w) = log w ++ asked tr (take k items) ∧
       (∀ lines, outcome (translateEach E tr items) w = Ok lines → k = length items).
Proof.
  induction items as [|i later IH]; intros w.
  - exists 0%nat. cbn. rewrite app_nil_r. done.
  - cbn [translateEach]. unfold after, outcome in *. rewrite run_bind.
    unfold translate. cbn [fst snd].
    destruct (translateResponse E (translations w) (body i)).
    + rewrite run_bind.
      match goal with |- context [translateEach E tr later ?W] =>
        destruct (IH W) as (k & Hlog & Hk); destruct (translateEach E tr later W) as [r w'] end.
      cbn [fst snd] in *. exists (S k). destruct r; cbn [fst snd].
      * split.
        -- change (log w' = log w ++ asked tr (take (S k) (i :: later))).
           rewrite Hlog. destruct w; cbn. by rewrite <- app_assoc.
        -- intros _ _. cbn [length]. f_equal. by eapply Hk.
      * split; [|done].
        change (log w' = log w ++ asked tr (take (S k) (i :: later))).
        rewrite Hlog. destruct w; cbn. by rewrite <- app_assoc.
    + exists 1%nat. split; [|done]. destruct w; cbn. by rewrite take_0.
Qed.

Lemma parseItems_tags text it :
  it ∈ parseItems text → tag it ∈ canonicalTags.
Proof.
  unfold parseItems. rewrite list_elem_of_omap. intros (l & _ & H).
  destruct (truthy (trim l)); [|done].
  unfold matchItem in H. destruct (trim l) as [|c r]; [done|].
  destruct (isBullet c); [|done].
  destruct (matchTagWord _) as [[word rest]|] eqn:Hm; [|done].
  injection H as <-. cbn [tag].
  unfold matchTagWord in Hm.
  destruct (find _ tagWords) as [x|] eqn:Hf; [|done].
  injection Hm as <- <-.
  apply find_some in Hf as [Hin Heq]. apply bool_decide_eq_true in Heq. rewrite Heq.
  cbn in Hin. destruct Hin as [<-|[<-|[<-|[]]]]; set_solver.
Qed.

End ItemFacts.
Section RoundTrip.

Lemma split_single p : LF ∉ p → split LF p = [p].
Proof.
  induction p as [|c p IH]; intros H; [reflexivity|].
  cbn [split]. apply not_elem_of_cons in H as [Hc Hp].
  destruct (N.eqb_spec c LF); [congruence|]. by rewrite IH.
Qed.

Lemma split_app p s : LF ∉ p → split LF (p ++ LF :: s) = p :: split LF s.
Proof.
  induction p as [|c p IH]; intros H.
  - reflexivity.
  - apply not_elem_of_cons in H as [Hc Hp].
    cbn [app split]. destruct (N.eqb_spec c LF); [congruence|]. by rewrite IH.
Qed.

Lemma split_join lines :
  lines ≠ [] → (∀ l, l ∈ lines → LF ∉ l) → split LF (join [LF] lines) = lines.
Proof.
  induction lines as [|l rest IH]; intros Hne H; [done|].
  destruct rest as [|l' rest].
  - cbn. apply split_single, H. left.
  - change (join [LF] (l :: l' :: rest)) with (l ++ LF :: join [LF] (l' :: rest)).
    rewrite split_app by (apply H; left). f_equal. apply IH; [done|].
    intros x Hx. apply H. by right.
Qed.

Lemma trimStart_elem x s : x ∈ trimStart s → x ∈ s.
Proof.
  induction s as [|c s IH]; [done|]. cbn [trimStart].
  destruct (isSpace c); [|done]. intros H. right. by apply IH.
Qed.

Lemma trim_elem x s : x ∈ trim s → x ∈ s.
Proof.
  unfold trim, trimEnd. rewrite elem_of_reverse. intros H.
  apply trimStart_elem in H. rewrite elem_of_reverse in H. by apply trimStart_elem.
Qed.

Lemma restOfLine_LF s : LF ∉ restOfLine s.
Proof.
  induction s as [|c s IH]; cbn [restOfLine]; [set_solver|].
  destruct (isLineTerminator c) eqn:Hc; [set_solver|].
  apply not_elem_of_cons. split; [|done].
  intros <-. discriminate.
Qed.

Lemma parseItems_body_LF text it : it ∈ parseItems text → LF ∉ body it.
Proof.
  unfold parseItems. rewrite list_elem_of_omap. intros (l & _ & H).
  destruct (truthy (trim l)); [|done].
  unfold matchItem in H. destruct (trim l) as [|c r]; [done|].
  destruct (isBullet c); [|done].
  destruct (matchTagWord _) as [[word rest]|] eqn:Hm; [|done].
  injection H as <-. cbn [body]. apply restOfLine_LF.
Qed.

(** trimStart stops at a unit that is no white space. *)
Lemma trimStart_stops a c b :
  isSpace c = false → ∃ a', trimStart (a ++ c :: b) = a' ++ c :: b.
Proof.
  intros Hc. induction a as [|x a IH].
  - exists []. cbn. by rewrite Hc.
  - cbn [app trimStart]. destruct (isSpace x); [done|]. by exists (x :: a).
Qed.

Lemma trimEnd_keeps p c s :
  isSpace c = false → ∃ s', trimEnd (p ++ c :: s) = p ++ c :: s'.
Proof.
  intros Hc. unfold trimEnd. rewrite reverse_app, reverse_cons, <- app_assoc. cbn [app].
  destruct (trimStart_stops (reverse s) c (reverse p) Hc) as [a' ->].
  exists (reverse a'). rewrite reverse_app, reverse_cons, reverse_involutive, <- app_assoc.
  reflexivity.
Qed.


Lemma matchItem_rebuilt t x :
  t ∈ canonicalTags →
  ∃ b, truthy (trim (js "- " ++ t ++ js " " ++ x)) = true ∧
       matchItem (trim (js "- " ++ t ++ js " " ++ x)) = Some (Item t b).
Proof.
  intros Ht.
  assert (∃ p, js "- " ++ t = [HYPHEN; 32] ++ t ∧ t = p ++ [RBRACKET]
               ∧ ∀ s', matchItem (HYPHEN :: 32 :: p ++ RBRACKET :: s')
                       = Some (Item t (restOfLine (trimStart s')))) as (p & Hd & Hp & Hm).
  { unfold canonicalTags in Ht.
    apply elem_of_cons in Ht as [->|Ht]; [|apply elem_of_cons in Ht as [->|Ht]];
      [| |apply list_elem_of_singleton in Ht as ->].
    - exists (js "[HIGH"). repeat split.
    - exists (js "[MEDIUM"). repeat split.
    - exists (js "[LOW"). repeat split. }
  rewrite app_assoc, Hd, Hp. unfold trim.
  replace (([HYPHEN; 32] ++ p ++ [RBRACKET]) ++ js " " ++ x)
    with (HYPHEN :: (32 :: p) ++ RBRACKET :: js " " ++ x)
    by (cbn [app]; by rewrite <- app_assoc).
  change (trimStart (HYPHEN :: (32 :: p) ++ RBRACKET :: js " " ++ x))
    with (([HYPHEN; 32] ++ p) ++ RBRACKET :: js " " ++ x).
  destruct (trimEnd_keeps ([HYPHEN; 32] ++ p) RBRACKET (js " " ++ x) eq_refl) as [s' ->].
  exists (restOfLine (trimStart s')). split; [reflexivity|].
  rewrite <- Hp. apply Hm.
Qed.

Lemma rebuilt_line it r :
  ∃ x, rebuilt it r = js "- " ++ tag it ++ js " " ++ x ∧
       (LF ∉ body it → (∀ t, r = Some t → LF ∉ t) → LF ∉ x).
Proof.
  unfold rebuilt. eexists. split; [reflexivity|]. intros Hb Hr.
  destruct r as [t|]; [|done].
  destruct (truthy t && truthy (trim t)); [|done].
  intros H. apply trim_elem in H. by eapply Hr.
Qed.

Lemma tag_LF t : t ∈ canonicalTags → LF ∉ js "- " ++ t ++ js " ".
Proof.
  unfold canonicalTags. intros Ht.
  apply elem_of_cons in Ht as [->|Ht]; [|apply elem_of_cons in Ht as [->|Ht]];
    [| |apply list_elem_of_singleton in Ht as ->].
  all: vm_compute; intros H; repeat (apply elem_of_cons in H as [H|H]; [discriminate|]);
       by apply elem_of_nil in H.
Qed.

Lemma parse_rebuilt items lines :
  (∀ it, it ∈ items → tag it ∈ canonicalTags) →
  Forall2 (λ it line, ∃ x, line = js "- " ++ tag it ++ js " " ++ x ∧ LF ∉ x) items lines →
  tag <$> omap (λ l, if truthy (trim l) then matchItem (trim l) else None) lines
  = tag <$> items.
Proof.
  intros Ht H. induction H as [|it line items lines (x & -> & _) H IH]; [reflexivity|].
  destruct (matchItem_rebuilt (tag it) x) as (b & Htr & Hm); [apply Ht; left|].
  cbn [omap list_omap]. rewrite Htr, Hm. cbn [fmap list_fmap tag]. f_equal.
  apply IH. intros it' Hit'. apply Ht. by right.
Qed.
End RoundTrip.

Section ItemClaims.
Variable E : env.

Lemma eachAnswer_total items : ∀ n,
  (∀ i it, items !! i = Some it → ∃ r, translateResponse E (n + i) (body it) = Ok r) →
  ∃ lines, eachAnswer E n items = Ok lines.
Proof.
  induction items as [|x later IH]; intros n H; [by exists []|].
  cbn [eachAnswer]. destruct (H 0%nat x eq_refl) as [r Hr].
  rewrite Nat.add_0_r in Hr. rewrite Hr.
  destruct (IH (S n)) as [lines ->]; [|eauto].
  intros i it Hi. replace (S n + i)%nat with (n + S i)%nat by lia. by apply (H (S i)).
Qed.

Lemma preservingFormat_events tr text w :
  parseItems text ≠ [] →
  ∃ k, newEvents (translateKeyPointsPreservingFormat E tr text) w
       = asked tr (take k (parseItems text)) ∧
       (∀ out, outcome (translateKeyPointsPreservingFormat E tr text) w = Ok out →
               k = length (parseItems text)).
Proof.
  intros Hne. unfold translateKeyPointsPreservingFormat. cbv zeta.
  rewrite bool_decide_eq_false_2 by done.
  destruct (translateEach_log E tr (parseItems text) w) as (k & Hlog & Hk).
  exists k. unfold newEvents, after, outcome in *. rewrite run_bind.
  destruct (translateEach E tr (parseItems text) w) as [[lines|e] w']; cbn [fst snd] in *.
  - split; [|intros; by eapply Hk].
    change (drop (length (log w)) (log w') = asked tr (take k (parseItems text))).
    by rewrite Hlog, drop_app_length.
  - split; [|done]. by rewrite Hlog, drop_app_length.
Qed.

End ItemClaims.

(** C5.  [translateKeyPointsPreservingFormat] works on the items
    [parseItems] finds in the lines of the text, each a tag in capitals
    between brackets and a body.  When there is an item, the translator
    is asked for the bodies alone, in the order of the items; when every
    call answers the pass returns one line per item, in that order, made
    of the item's own tag and the translation of its body (the body
    itself when the translation is empty or white space), and reading
    those lines again gives the same tags in the same order as long as no
    translation holds a line feed.  When there is no item the pass is the
    translation of the whole text.  The two lines "- [HIGH] Point A" and
    "- [MEDIUM] Point B" are read as the items HIGH with "Point A" and
    MEDIUM with "Point B", and rendered as high with "Point A" and
    medium with "Point B". *)
Theorem keyPoints_translated_item_by_item (E : env) (tr : translator)
    (text : jsstring) (w : world) :
  (∀ it, it ∈ parseItems text → tag it ∈ canonicalTags) ∧
  (parseItems text ≠ [] →
     (∃ k, newEvents (translateKeyPointsPreservingFormat E tr text) w
           = asked tr (take k (parseItems text)) ∧
           (∀ out, outcome (translateKeyPointsPreservingFormat E tr text) w = Ok out →
                   k = length (parseItems text))) ∧
     ((∀ i it, parseItems text !! i = Some it → ∃ r, itemAnswer E w i it = Ok r) →
        ∃ out, outcome (translateKeyPointsPreservingFormat E tr text) w = Ok out) ∧
     (∀ out, outcome (translateKeyPointsPreservingFormat E tr text) w = Ok out →
        ∃ lines, out = Some (join [LF] lines) ∧
          length lines = length (parseItems text) ∧
          (∀ i it, parseItems text !! i = Some it →
             ∃ r, itemAnswer E w i it = Ok r ∧
                  lines !! i = Some (js "- " ++ tag it ++ js " " ++
                                     if usable r then trim (default [] r) else body it)) ∧
          ((∀ i it t, parseItems text !! i = Some it →
                      itemAnswer E w i it = Ok (Some t) → LF ∉ t) →
             tag <$> parseItems (join [LF] lines) = tag <$> parseItems text))) ∧
  (parseItems text = [] →
     translateKeyPointsPreservingFormat E tr text = translate E tr text) ∧
  parseItems twoPoints
  = [Item (js "[HIGH]") (js "Point A"); Item (js "[MEDIUM]") (js "Point B")] ∧
  renderedItems twoPoints
  = [Rendered (Some (js "high")) (js "Point A"); Rendered (Some (js "medium")) (js "Point B")].
Proof.
  split; [intros it; apply parseItems_tags|].
  split; [|split; [|split; reflexivity]].
  - intros Hne. split; [by apply preservingFormat_events|].
    pose proof (preservingFormat_outcome E tr text w) as Ho.
    rewrite bool_decide_eq_false_2 in Ho by done. split.
    + intros Hall. rewrite Ho.
      destruct (eachAnswer_total E (parseItems text) (translations w) Hall) as [lines ->].
      eauto.
    + intros out Hout. rewrite Ho in Hout.
      destruct (eachAnswer E (translations w) (parseItems text)) as [lines|] eqn:Hl; [|done].
      injection Hout as <-. exists lines. split; [done|].
      destruct (eachAnswer_ok _ _ _ _ Hl) as [F L].
      split; [symmetry; by eapply Forall2_length|]. split.
      * intros i it Hit. destruct (L i it Hit) as (r & Hr & Hline).
        exists r. split; [done|]. rewrite Hline. f_equal.
        unfold rebuilt, usable. destruct r as [t|]; [|done].
        by destruct (truthy t && truthy (trim t)).
      * intros Hclean.
        assert (Forall2 (λ it line, ∃ x, line = js "- " ++ tag it ++ js " " ++ x ∧ LF ∉ x)
                  (parseItems text) lines) as F'.
        { apply Forall2_same_length_lookup. split; [by eapply Forall2_length|].
          intros i it line Hit Hline.
          destruct (L i it Hit) as (r & Hr & Hline'). 
          rewrite Hline in Hline'. injection Hline' as ->.
          destruct (rebuilt_line it r) as (x & -> & Hx). exists x. split; [done|].
          apply Hx.
          - apply (parseItems_body_LF text). by eapply list_elem_of_lookup_2.
          - intros t ->. by eapply Hclean. }
        unfold parseItems at 1. rewrite split_join.
        -- apply parse_rebuilt; [|exact F'].
           intros it Hit. by eapply parseItems_tags.
        -- intros ->. apply Forall2_length in F. cbn in F.
           by destruct (parseItems text).
        -- intros line Hline.
           apply list_elem_of_lookup in Hline as [i Hi].
           destruct (Forall2_lookup_r _ _ _ _ _ F' Hi) as (it & Hit & x & -> & Hx).
           intros Hin. rewrite !app_assoc in Hin. apply elem_of_app in Hin as [Hin|Hin]; [|done].
           revert Hin. rewrite <- app_assoc.
           apply tag_LF. eapply parseItems_tags. by eapply list_elem_of_lookup_2.
  - intros Hnil. unfold translateKeyPointsPreservingFormat. cbv zeta.
    by rewrite bool_decide_eq_true_2.
Qed.

(** With a translator that answers "T" to every call the pass returns on
    the two example lines. *)
Lemma keyPoints_translated_item_by_item_witness :
  ∃ out, outcome (translateKeyPointsPreservingFormat Scenario.willing
                    (Translator 0 true None) twoPoints) Scenario.loaded = Ok out.
Proof.
  apply (keyPoints_translated_item_by_item Scenario.willing (Translator 0 true None)
           twoPoints Scenario.loaded).
  - vm_compute. discriminate.
  - intros i it _. eexists. reflexivity.
Defined.

(* ===================================================================== *)
(** ** Cancellation *)
(* ===================================================================== *)

(** A part of the world that a computation leaves as it is whenever it
    throws. *)
Section ThrowFrames.
Context {X : Type} (part : world → X).

Lemma kept_preserves {A} (m : M A) : preserves part m → keptOnThrow part m.
Proof. intros H w e _. apply H. Qed.

Lemma kept_neverThrows {A} (m : M A) : neverThrows m → keptOnThrow part m.
Proof. intros H w e He. destruct (H w) as [a Ha]. congruence. Qed.

Lemma kept_bind {A B} (m : M A) (f : A → M B) :
  preserves part m → (∀ a, keptOnThrow part (f a)) → keptOnThrow part (m ≫= f).
Proof.
  intros Hm Hf w e. unfold after, outcome. rewrite run_bind.
  specialize (Hm w). unfold after in Hm.
  destruct (m w) as [[a|e'] w']; cbn [fst snd] in *; [|done].
  intros He. rewrite <- Hm. by eapply Hf.
Qed.

Lemma kept_tryCatch {A} (body : M A) handler :
  keptOnThrow part body → (∀ e, keptOnThrow part (handler e)) → keptOnThrow part (tryCatch body handler).
Proof.
  intros Hm Hf w e. unfold after, outcome. rewrite run_tryCatch.
  specialize (Hm w). unfold after, outcome in Hm.
  destruct (body w) as [[a|e'] w']; cbn [fst snd] in *; [done|].
  intros He. rewrite <- (Hm e' eq_refl). by eapply Hf.
Qed.

Lemma kept_tryFinally {A} (body : M A) cleanup :
  keptOnThrow part body → preserves part cleanup → neverThrows cleanup →
  keptOnThrow part (tryFinally body cleanup).
Proof.
  intros Hm Hc Hn w e. unfold after, outcome. rewrite run_tryFinally.
  specialize (Hm w). specialize (Hc (snd (body w))). specialize (Hn (snd (body w))).
  unfold after, outcome in *. destruct Hn as [u Hu].
  destruct (cleanup (snd (body w))) as [[a|e'] w']; cbn [fst snd] in *; [|done].
  intros He. rewrite Hc. by eapply Hm.
Qed.

End ThrowFrames.

Lemma neverThrows_modify f : neverThrows (modify f).
Proof. intros w. by exists tt. Qed.

Ltac kept_step :=
  lazymatch goal with
  | |- keptOnThrow _ (_ ≫= _) => apply kept_bind; [solve [frame] | intros ?]
  | |- keptOnThrow _ (tryCatch _ _) => apply kept_tryCatch; [|intros ?]
  | |- keptOnThrow _ (tryFinally _ _) =>
      apply kept_tryFinally; [|solve [frame]|apply neverThrows_modify]
  | |- keptOnThrow _ (match ?x with _ => _ end) => destruct x
  | |- keptOnThrow _ (let _ := _ in _) => cbv zeta
  | |- keptOnThrow _ (modify _) => apply kept_neverThrows, neverThrows_modify
  | |- keptOnThrow _ ?m =>
      first [ apply kept_preserves; solve [frame]
            | let h := head_of m in unfold h ]
  end.

Ltac kept := repeat kept_step.

Section TranslationFrames.
Variable E : env.

Lemma translateEach_tabCache tr items : preserves tabCache (translateEach E tr items).
Proof. induction items as [|i later IH]; simpl; frame. Qed.

End TranslationFrames.

#[local] Hint Resolve translateEach_tabCache : frame.

Section BodyFrames.
Variable E : env.

Lemma translateIfNeeded_tabCache text lang : preserves tabCache (translateIfNeeded E text lang).
Proof. frame. Qed.

Lemma translateKeyPointsIfNeeded_tabCache text lang :
  preserves tabCache (translateKeyPointsIfNeeded E text lang).
Proof. frame. Qed.

Lemma ensurePageData_tabCache : preserves tabCache (ensurePageData E).
Proof. frame. Qed.

End BodyFrames.

#[local] Hint Resolve translateIfNeeded_tabCache translateKeyPointsIfNeeded_tabCache
  ensurePageData_tabCache : frame.

Section Bodies.
Variable E : env.

Lemma tldrBody_kept lang ctx : keptOnThrow tabCache (tldrBody E lang ctx).
Proof. kept. Qed.

Lemma keyPointsBody_kept lang ctx : keptOnThrow tabCache (keyPointsBody E lang ctx).
Proof. kept. Qed.

Lemma quizBody_tabCache lang : preserves tabCache (quizBody E lang).
Proof. frame. Qed.

Lemma dialogueBody_kept lang : keptOnThrow tabCache (dialogueBody E lang).
Proof. kept. Qed.

Lemma customPromptBody_tabCache q out : preserves tabCache (customPromptBody E q out).
Proof. frame. Qed.

End Bodies.

Section Guards.
Variable E : env.

Lemma isAborted_spec err :
  isAborted err = true ↔ named err ∨ errMessage err = Some (js "AbortError") ∨ worded err.
Proof.
  unfold isAborted, named, worded. rewrite !orb_true_iff, !bool_decide_eq_true.
  split.
  - intros [[H|H]|H]; [by left|by right; left|right; right].
    destruct (errMessage err) as [m|]; [|done].
    apply andb_true_iff in H as [_ H]. eauto.
  - intros [H|[H|(m & Hm & H)]]; [by left; left|by left; right|right].
    rewrite Hm. apply andb_true_iff. split; [|done].
    destruct m; [|done]. discriminate.
Qed.

Lemma isAbortedByNameOrWording_spec err :
  isAbortedByNameOrWording err = true ↔ named err ∨ worded err.
Proof.
  unfold isAbortedByNameOrWording, named, worded. rewrite !orb_true_iff, !bool_decide_eq_true.
  split.
  - intros [H|H]; [by left|right].
    destruct (errMessage err) as [m|]; [|done].
    apply andb_true_iff in H as [_ H]. eauto.
  - intros [H|(m & Hm & H)]; [by left|right].
    rewrite Hm. apply andb_true_iff. split; [|done].
    destruct m; [|done]. discriminate.
Qed.

(** The [catch] and [finally] of a box handler on a recognised error. *)
Lemma guard_cancelled recognise s b errorText label (body : M unit) w err :
  outcome body w = Thrown err → recognise err = true →
  keptOnThrow tabCache body →
  cancelledAfter s b label
    (tryFinally (tryCatch body (catchSlot recognise b errorText)) (resetSlot s label)) w.
Proof.
  intros Hthrown Hrec Hkept. specialize (Hkept w err Hthrown).
  unfold cancelledAfter, idle, outcome, after in *.
  rewrite run_tryFinally, run_tryCatch.
  destruct (body w) as [[a|e] w1]; cbn [fst snd] in *; [done|].
  injection Hthrown as ->. rewrite <- Hkept. clear Hkept.
  unfold catchSlot. rewrite Hrec. destruct w1. run.
  rewrite !fn_lookup_insert. done.
Qed.

End Guards.

Section Clicks.
Variable E : env.

(** The chat handler on a recognised error: the pending bubble goes. *)
Lemma guardCustomPrompt_cancelled ref (body : M unit) w err :
  outcome body w = Thrown err → isAbortedByNameOrWording err = true →
  preserves tabCache body →
  outcome (guardCustomPrompt E ref body) w = Ok tt ∧
  chatHistory (after (guardCustomPrompt E ref body) w)
  = filter (λ b, isBubble ref b = false) (chatHistory (after body w)) ∧
  tabCache (after (guardCustomPrompt E ref body) w) = tabCache w ∧
  idle CHAT (askLabel E) (after (guardCustomPrompt E ref body) w).
Proof.
  intros Hthrown Hrec Hkept. specialize (Hkept w).
  unfold guardCustomPrompt, idle, outcome, after in *.
  rewrite run_tryFinally, run_tryCatch.
  destruct (body w) as [[a|e] w1]; cbn [fst snd] in *; [done|].
  injection Hthrown as ->. rewrite <- Hkept. clear Hkept.
  unfold catchCustomPrompt. rewrite Hrec. destruct w1. run.
  rewrite !fn_lookup_insert. done.
Qed.

(** The click on the button of a box while its generation runs. *)
Lemma cancelSlot_clicked s b shownText label w :
  let m := cancelSlot s b shownText label in
  outcome m w = Ok tt ∧
  shown (boxes (after m w) b) = TextContent shownText ∧
  tabCache (after m w) = tabCache w ∧
  idle s label (after m w) ∧
  (∀ c, abortController w s = Some c → c ∈ aborted (after m w)).
Proof.
  cbv zeta. unfold idle. destruct w. run.
  destruct (abortController0 s) as [c|] eqn:Hc; run.
  - rewrite !fn_lookup_insert. repeat split; try done.
    intros c' [= <-]. set_solver.
  - rewrite !fn_lookup_insert. repeat split; try done.
Qed.

Lemma cancelCustomPrompt_clicked w :
  let m := cancelCustomPrompt E in
  outcome m w = Ok tt ∧
  chatHistory (after m w) = removeLastAssistant (chatHistory w) ∧
  tabCache (after m w) = tabCache w ∧
  idle CHAT (askLabel E) (after m w) ∧
  (∀ c, abortController w CHAT = Some c → c ∈ aborted (after m w)).
Proof.
  cbv zeta. unfold idle. destruct w. run.
  destruct (abortController0 CHAT) as [c|] eqn:Hc; run.
  - rewrite !fn_lookup_insert. repeat split; try done.
    intros c' [= <-]. set_solver.
  - rewrite !fn_lookup_insert. repeat split; try done.
Qed.

End Clicks.

(** The chat slot shows no indicator of a cancellation: when the answer
    is cancelled the pending bubble is taken out of the chat, as the
    comment of the handler says, and no element of the panel shows the
    cancellation text. *)
Lemma chat_cancel_shows_no_indicator_counterexample :
  isAbortedByNameOrWording Scenario.aborted = true ∧
  outcome (handleCustomPrompt Scenario.abortingStream) Scenario.asking = Ok tt ∧
  chatHistory (after (handleCustomPrompt Scenario.abortingStream) Scenario.asking)
  = [UserBubble (js "Why?")] ∧
  statusBanner (after (handleCustomPrompt Scenario.abortingStream) Scenario.asking) = None ∧
  ∀ b, shown (boxes (after (handleCustomPrompt Scenario.abortingStream) Scenario.asking) b)
       ≠ TextContent CANCELLED.
Proof.
  repeat split; try (vm_compute; reflexivity).
  intros []; vm_compute; discriminate.
Qed.

(** What the handlers do with a cancellation that reaches them.  A
    cancellation is recognised by the name AbortError or by a message
    that contains abort in any letter case (the TL;DR and key-points
    handlers also take a message equal to AbortError).  If the body of
    the TL;DR, key-points, quiz or dialogue handler ends with a
    recognised error, the handler ends normally, the box of the slot
    holds the plain text Generation cancelled, the tab cache is as it
    was when the body started, and the slot is at rest; in the chat slot
    the pending answer bubble is removed instead.  A click on the button
    of a running slot aborts its controller, leaves the tab cache as it
    is and puts the slot at rest; in the key-points, quiz and dialogue
    slots it writes Generation cancelled into the box, and in the chat
    slot it removes the last answer bubble.  Nothing is said here of a
    body that does not end with such an error: see
    [keyPoints_cancel_by_name_falls_back] and
    [tldr_cancel_before_summarizer_shows_error]. *)
Theorem cancellation_resets_slot (E : env) (w : world) (err : error) :
  (isAborted err = true ↔ named err ∨ errMessage err = Some (js "AbortError") ∨ worded err) ∧
  (isAbortedByNameOrWording err = true ↔ named err ∨ worded err) ∧
  (∀ lang ctx,
     outcome (tldrBody E lang ctx) w = Thrown err → isAborted err = true →
     cancelledAfter TLDR tldrContent (tldrIdleLabel E) (guardTldr E (tldrBody E lang ctx)) w) ∧
  (∀ lang ctx,
     outcome (keyPointsBody E lang ctx) w = Thrown err → isAborted err = true →
     cancelledAfter KEYPOINTS keyPointsContent (keyPointsIdleLabel E)
       (guardKeyPoints E (keyPointsBody E lang ctx)) w) ∧
  (∀ lang,
     outcome (quizBody E lang) w = Thrown err → isAbortedByNameOrWording err = true →
     cancelledAfter QUIZ quizContent (quizIdleLabel E) (guardQuiz E (quizBody E lang)) w) ∧
  (∀ lang,
     outcome (dialogueBody E lang) w = Thrown err → isAbortedByNameOrWording err = true →
     cancelledAfter DIALOGUE dialogueContent (dialogueIdleLabel E)
       (guardDialogue E (dialogueBody E lang)) w) ∧
  (∀ question ref,
     outcome (customPromptBody E question (responseContent ref)) w = Thrown err →
     isAbortedByNameOrWording err = true →
     outcome (guardCustomPrompt E ref (customPromptBody E question (responseContent ref))) w
     = Ok tt ∧
     (∀ b, b ∈ chatHistory (after (guardCustomPrompt E ref
                                     (customPromptBody E question (responseContent ref))) w) →
           isBubble ref b = false) ∧
     tabCache (after (guardCustomPrompt E ref
                        (customPromptBody E question (responseContent ref))) w)
     = tabCache w ∧
     idle CHAT (askLabel E)
          (after (guardCustomPrompt E ref
                    (customPromptBody E question (responseContent ref))) w)) ∧
  (generating w TLDR = true →
     tabCache (after (handleGenerateTldr E) w) = tabCache w ∧
     idle TLDR (tldrIdleLabel E) (after (handleGenerateTldr E) w) ∧
     ∀ c, abortController w TLDR = Some c → c ∈ aborted (after (handleGenerateTldr E) w)) ∧
  (generating w KEYPOINTS = true →
     cancelledAfter KEYPOINTS keyPointsContent (keyPointsIdleLabel E)
       (handleGenerateKeyPoints E) w ∧
     ∀ c, abortController w KEYPOINTS = Some c →
          c ∈ aborted (after (handleGenerateKeyPoints E) w)) ∧
  (hasLanguageModel E = true → generating w QUIZ = true →
     cancelledAfter QUIZ quizContent (quizIdleLabel E) (handleGenerateQuiz E) w ∧
     ∀ c, abortController w QUIZ = Some c → c ∈ aborted (after (handleGenerateQuiz E) w)) ∧
  (hasLanguageModel E = true → generating w DIALOGUE = true →
     cancelledAfter DIALOGUE dialogueContent (dialogueIdleLabel E) (handleGenerateDialogue E) w ∧
     ∀ c, abortController w DIALOGUE = Some c →
          c ∈ aborted (after (handleGenerateDialogue E) w)) ∧
  (generating w CHAT = true →
     chatHistory (after (handleCustomPrompt E) w) = removeLastAssistant (chatHistory w) ∧
     tabCache (after (handleCustomPrompt E) w) = tabCache w ∧
     idle CHAT (askLabel E) (after (handleCustomPrompt E) w) ∧
     ∀ c, abortController w CHAT = Some c → c ∈ aborted (after (handleCustomPrompt E) w)).
Proof.
  split; [apply isAborted_spec|]. split; [apply isAbortedByNameOrWording_spec|].
  split; [|split; [|split; [|split; [|split]]]].
  - intros lang ctx Ht Hr. apply (guard_cancelled _ _ _ _ _ _ _ _ Ht Hr), tldrBody_kept.
  - intros lang ctx Ht Hr. apply (guard_cancelled _ _ _ _ _ _ _ _ Ht Hr), keyPointsBody_kept.
  - intros lang Ht Hr. apply (guard_cancelled _ _ _ _ _ _ _ _ Ht Hr), kept_preserves,
      quizBody_tabCache.
  - intros lang Ht Hr. apply (guard_cancelled _ _ _ _ _ _ _ _ Ht Hr), dialogueBody_kept.
  - intros question ref Ht Hr.
    destruct (guardCustomPrompt_cancelled E ref _ w err Ht Hr
                (customPromptBody_tabCache E question (responseContent ref)))
      as (Ho & Hc & Hk & Hi).
    split; [done|]. split; [|done].
    intros b Hb. rewrite Hc in Hb. by apply list_elem_of_filter in Hb as [Hb _].
  - split; [|split; [|split; [|split]]].
    + intros Hg.
      assert (handleGenerateTldr E w = cancelTldr E w) as Heq.
      { unfold handleGenerateTldr. rewrite run_bind. unfold gets, isSummarizingTldr.
        cbn [fst snd]. by rewrite Hg. }
      unfold after. rewrite Heq.
      pose proof (cancelSlot_clicked TLDR tldrContent
                    (message E "notEnoughText" "Generation cancelled") (tldrIdleLabel E) w)
        as Hclick.
      cbv zeta in Hclick. unfold after in Hclick.
      destruct Hclick as (_ & _ & Hk & Hi & Ha). done.
    + intros Hg.
      assert (handleGenerateKeyPoints E w = cancelKeyPoints E w) as Heq.
      { unfold handleGenerateKeyPoints. rewrite run_bind. unfold gets, isSummarizingKeyPoints.
        cbn [fst snd]. by rewrite Hg. }
      unfold cancelledAfter, outcome, after. rewrite Heq.
      pose proof (cancelSlot_clicked KEYPOINTS keyPointsContent CANCELLED
                    (keyPointsIdleLabel E) w) as Hclick.
      cbv zeta in Hclick. unfold outcome, after in Hclick.
      destruct Hclick as (Ho & Hs & Hk & Hi & Ha). done.
    + intros Hm Hg.
      assert (handleGenerateQuiz E w = cancelQuiz E w) as Heq.
      { unfold handleGenerateQuiz. rewrite Hm. cbn [negb]. rewrite run_bind.
        unfold gets, isGeneratingQuiz. cbn [fst snd]. by rewrite Hg. }
      unfold cancelledAfter, outcome, after. rewrite Heq.
      pose proof (cancelSlot_clicked QUIZ quizContent CANCELLED (quizIdleLabel E) w)
        as Hclick.
      cbv zeta in Hclick. unfold outcome, after in Hclick.
      destruct Hclick as (Ho & Hs & Hk & Hi & Ha). done.
    + intros Hm Hg.
      assert (handleGenerateDialogue E w = cancelDialogue E w) as Heq.
      { unfold handleGenerateDialogue. rewrite Hm. cbn [negb]. rewrite run_bind.
        unfold gets, isGeneratingDialogue. cbn [fst snd]. by rewrite Hg. }
      unfold cancelledAfter, outcome, after. rewrite Heq.
      pose proof (cancelSlot_clicked DIALOGUE dialogueContent CANCELLED
                    (dialogueIdleLabel E) w) as Hclick.
      cbv zeta in Hclick. unfold outcome, after in Hclick.
      destruct Hclick as (Ho & Hs & Hk & Hi & Ha). done.
    + intros Hg.
      assert (handleCustomPrompt E w = cancelCustomPrompt E w) as Heq.
      { unfold handleCustomPrompt. rewrite run_bind. unfold gets, isAnsweringCustomPrompt.
        cbn [fst snd]. by rewrite Hg. }
      unfold after. rewrite Heq.
      pose proof (cancelCustomPrompt_clicked E w) as Hclick.
      cbv zeta in Hclick. unfold outcome, after in Hclick.
      destruct Hclick as (Ho & Hs & Hk & Hi & Ha). done.
Qed.

(** The TL;DR handler in flight on tab 1 with a summarizer that rejects
    the call as cancelled. *)
Lemma cancellation_resets_slot_witness :
  cancelledAfter TLDR tldrContent (tldrIdleLabel Scenario.cancelling)
    (guardTldr Scenario.cancelling
       (tldrBody Scenario.cancelling (js "en") (js "Page title: Foxes")))
    (after (startSlot Scenario.cancelling TLDR tldrContent) Scenario.onTab1).
Proof.
  refine (proj1 (proj2 (proj2
            (cancellation_resets_slot Scenario.cancelling
               (after (startSlot Scenario.cancelling TLDR tldrContent) Scenario.onTab1)
               Scenario.aborted)))
            (js "en") (js "Page title: Foxes") _ _); vm_compute; reflexivity.
Defined.

(** The inner [catch] of the key-points handler takes a cancellation
    for one only when the message of the error is AbortError.  With the
    click taken while the stream is awaited (it drops the controller) and
    the stream then rejected under the name AbortError, the handler goes
    on to the summarizer without a signal, shows its answer and stores it
    in the tab cache. *)
Lemma keyPoints_cancel_by_name_falls_back :
  let E := Scenario.abortingStream in
  let inFlight := after (startSlot E KEYPOINTS keyPointsContent) Scenario.onTab1 in
  let clicked := after (handleGenerateKeyPoints E) inFlight in
  let settled := after (guardKeyPoints E (keyPointsBody E (js "en") (js "Page title: Foxes")))
                       clicked in
  shown (boxes clicked keyPointsContent) = TextContent CANCELLED ∧
  abortController clicked KEYPOINTS = None ∧
  isAborted Scenario.aborted = true ∧
  shown (boxes settled keyPointsContent) = MarkdownOf (js "A") ∧
  cKeyPoints <$> (tabCache settled !! 1%Z) = Some (Some (js "A")).
Proof. vm_compute. repeat split. Qed.

Section SecondClick.
Variable E : env.

(** The handlers are their first lines, the await of the page text and
    the rest. *)
Lemma handleGenerateTldr_resumes w :
  generating w TLDR = false →
  handleGenerateTldr E w
  = (startSlot E TLDR tldrContent ;;
     pageData ← ensurePageData E; tldrAfterPageData E pageData) w.
Proof.
  intros Hg. unfold handleGenerateTldr. rewrite run_bind. unfold gets at 1, isSummarizingTldr.
  cbn [fst snd]. rewrite Hg. reflexivity.
Qed.

Lemma handleGenerateKeyPoints_resumes w :
  generating w KEYPOINTS = false →
  handleGenerateKeyPoints E w
  = (startSlot E KEYPOINTS keyPointsContent ;;
     pageData ← ensurePageData E; keyPointsAfterPageData E pageData) w.
Proof.
  intros Hg. unfold handleGenerateKeyPoints. rewrite run_bind.
  unfold gets at 1, isSummarizingKeyPoints. cbn [fst snd]. rewrite Hg. reflexivity.
Qed.

(** The cancelling click and the arrival of the page text touch
    different parts of the panel: it makes no difference which of the
    two comes first. *)
Lemma cancel_click_commutes_with_page_text w :
  (generating w TLDR = true →
   (pageData ← ensurePageData E; handleGenerateTldr E ;; mret pageData) w
   = (handleGenerateTldr E ;; ensurePageData E) w) ∧
  (generating w KEYPOINTS = true →
   (pageData ← ensurePageData E; handleGenerateKeyPoints E ;; mret pageData) w
   = (handleGenerateKeyPoints E ;; ensurePageData E) w).
Proof.
  destruct w. split; intros Hg; cbn in Hg.
  - destruct (abortController0 TLDR) eqn:Hc, extractedPageData0 as [d|];
      destruct (extractTextResponse E extractions0) as [[d'|]|e] eqn:Hr;
      try destruct (truthy (text d')) eqn:Ht;
      run; repeat (first [rewrite Hg | rewrite Hc | rewrite Hr | rewrite Ht]; run);
      reflexivity.
  - destruct (abortController0 KEYPOINTS) eqn:Hc, extractedPageData0 as [d|];
      destruct (extractTextResponse E extractions0) as [[d'|]|e] eqn:Hr;
      try destruct (truthy (text d')) eqn:Ht;
      run; repeat (first [rewrite Hg | rewrite Hc | rewrite Hr | rewrite Ht]; run);
      reflexivity.
Qed.

(** In every browser and every state of the panel in which the TL;DR
    slot is at rest and the page text has still to be read: a click on
    the TL;DR button followed by a second click while the content script
    is awaited ends, once a page with a text has arrived, with the line
    of a type error in the box.  The controller of the first click has
    been aborted, and no session has been created. *)
Lemma tldr_cancel_before_summarizer_shows_error w page :
  generating w TLDR = false →
  extractedPageData w = None →
  usablePage (extractTextResponse E (extractions w)) = Some page →
  let m := clickedWhileExtracting E TLDR tldrContent (handleGenerateTldr E)
             (tldrAfterPageData E) in
  outcome m w = Ok tt ∧
  shown (boxes (after m w) tldrContent)
  = TextContent (js "Error: Cannot read properties of null (reading 'signal')") ∧
  signals w ∈ aborted (after m w) ∧
  idle TLDR (tldrIdleLabel E) (after m w) ∧
  tabCache (after m w) = tabCache w ∧
  newEvents m w = [Extracted].
Proof.
  intros Hg Hd Hp. cbv zeta.
  unfold clickedWhileExtracting, tldrAfterPageData, newEvents, idle, usablePage in *.
  destruct w. cbn in Hg, Hd, Hp. subst.
  destruct (extractTextResponse E extractions0) as [[d|]|e] eqn:Hr; try done.
  destruct (truthy (text d)) eqn:Ht; [|done]. injection Hp as ->.
  run. rewrite ?fn_lookup_insert. run. rewrite Hr. run. rewrite Ht. run.
  rewrite ?fn_lookup_insert. run.
  match goal with |- context [isAborted ?e] =>
    replace (isAborted e) with false by (vm_compute; reflexivity) end.
  run. rewrite ?fn_lookup_insert, ?drop_app_length.
  split; [reflexivity|]. split; [vm_compute; reflexivity|]. split; [set_solver|].
  split; [done|]. split; reflexivity.
Qed.

End SecondClick.

(** C2 fails in the code when the cancellation is taken before the
    generation has reached the model.  The panel is on tab 1
    and the text of the page has not been read yet; the TL;DR button is
    clicked, and clicked again while the first handler awaits the
    content script.  The second click finds the slot generating, aborts
    the controller and drops it.  When the page text has arrived the
    first handler goes on, reads the signal of the controller that is no
    longer there, and its [catch] writes the line of that type error
    into the box: the slot is at rest, but what it shows is an error and
    not the cancellation text.  The key-points handler guards that read;
    on the same two clicks it generates without a signal, and the key
    points are shown and written to the entry of tab 1 although the
    generation was cancelled.  In a browser whose locale defines
    [notEnoughText], the cancelling click on the TL;DR button shows that
    notice in place of the cancellation text.  The first two equations
    say that the steps taken here are those of the handlers. *)
Theorem cancel_while_page_text_is_awaited :
  let E := Scenario.willing in
  let start := TwoClicks.unread in
  let started := after (startSlot E TLDR tldrContent) start in
  let tldr := clickedWhileExtracting E TLDR tldrContent (handleGenerateTldr E)
                (tldrAfterPageData E) in
  let keyPoints := clickedWhileExtracting E KEYPOINTS keyPointsContent
                     (handleGenerateKeyPoints E) (keyPointsAfterPageData E) in
  let clicked := after (handleGenerateTldr TwoClicks.localised)
                       (after (startSlot TwoClicks.localised TLDR tldrContent) start) in
  handleGenerateTldr E start
  = (startSlot E TLDR tldrContent ;;
     pageData ← ensurePageData E; tldrAfterPageData E pageData) start ∧
  handleGenerateKeyPoints E start
  = (startSlot E KEYPOINTS keyPointsContent ;;
     pageData ← ensurePageData E; keyPointsAfterPageData E pageData) start ∧
  (generating started TLDR = true ∧ abortController started TLDR = Some 0%nat) ∧
  (outcome tldr start = Ok tt ∧
   aborted (after tldr start) = [0%nat] ∧
   generating (after tldr start) TLDR = false ∧
   shown (boxes (after tldr start) tldrContent)
   = TextContent (js "Error: Cannot read properties of null (reading 'signal')") ∧
   log (after tldr start) = [Extracted]) ∧
  (outcome keyPoints start = Ok tt ∧
   aborted (after keyPoints start) = [0%nat] ∧
   boxes (after keyPoints start) keyPointsContent
   = Elem (KeyPointsOf (js "Hello world")) (Some (js "Hello world")) ∧
   tabCache start !! 1%Z = None ∧
   cKeyPoints <$> tabCache (after keyPoints start) !! 1%Z
   = Some (Some (js "Hello world"))) ∧
  shown (boxes clicked tldrContent) = TextContent (js "Not enough text content.") ∧
  shown (boxes clicked tldrContent) ≠ TextContent CANCELLED.
Proof.
  cbv zeta. split; [reflexivity|]. split; [reflexivity|].
  vm_compute. repeat split. discriminate.
Qed.

(* ===================================================================== *)
(** ** The tab cache *)
(* ===================================================================== *)

Section ExtractFrames.
Variable E : env.

Lemma extractText_isSummarizing : preserves isSummarizing (extractText E).
Proof. by intros w. Qed.

Lemma extractText_currentTabId : preserves currentTabId (extractText E).
Proof. by intros w. Qed.

End ExtractFrames.

#[local] Hint Resolve extractText_isSummarizing extractText_currentTabId : frame.

Section TabFacts.
Variable E : env.

Lemma switchToTab_steps tabId w :
  currentTabId w ≠ Some tabId →
  switchToTab E tabId w
  = (saveCurrentTabQuizChat (currentTabId w) ;;
     modify (set_currentTabId (Some tabId)) ;;
     arrive E tabId) w.
Proof.
  intros Hne. unfold switchToTab. rewrite run_bind. unfold gets at 1. cbn [fst snd].
  by rewrite bool_decide_eq_false_2.
Qed.

Lemma arrive_tabCache tabId : preserves tabCache (arrive E tabId).
Proof. frame. Qed.

Lemma arrive_isSummarizing tabId : preserves isSummarizing (arrive E tabId).
Proof. frame. Qed.

Lemma arrive_currentTabId tabId : preserves currentTabId (arrive E tabId).
Proof. frame. Qed.

End TabFacts.

Section TabClaims.
Variable E : env.

Lemma liveTab_Some tab t : liveTab tab = Some t → tab = Some t.
Proof.
  unfold liveTab. destruct tab as [c|]; [|done]. by destruct (c =? 0)%Z; intros [= ->].
Qed.

(** Leaving a tab writes under the key of that tab alone, and keeps the
    summaries of its entry. *)
Lemma save_writes_own_key tab w :
  (∀ t, tab ≠ Some t →
        tabCache (after (saveCurrentTabQuizChat tab) w) !! t = tabCache w !! t) ∧
  (∀ t entry, tab = Some t → tabCache w !! t = Some entry →
        ∃ entry', tabCache (after (saveCurrentTabQuizChat tab) w) !! t = Some entry' ∧
                  cPageData entry' = cPageData entry ∧
                  cTldr entry' = cTldr entry ∧ cKeyPoints entry' = cKeyPoints entry).
Proof.
  unfold saveCurrentTabQuizChat. destruct (liveTab tab) as [c|] eqn:Hlive.
  - apply liveTab_Some in Hlive as ->. destruct w. run.
    destruct (negb _ && negb _ && negb _); run.
    + split; [done|]. intros t entry [= <-] H. eauto.
    + split.
      * intros t Hne. rewrite lookup_insert_ne; [done|]. congruence.
      * intros t entry [= <-] H. rewrite lookup_insert_eq. rewrite H.
        eexists. split; [reflexivity|]. done.
  - split; [done|]. intros t entry -> H. eauto.
Qed.

Lemma save_frames tab w :
  isSummarizing (after (saveCurrentTabQuizChat tab) w) = isSummarizing w ∧
  log (after (saveCurrentTabQuizChat tab) w) = log w ∧
  currentTabId (after (saveCurrentTabQuizChat tab) w) = currentTabId w.
Proof.
  unfold saveCurrentTabQuizChat. destruct (liveTab tab) as [c|]; [|done].
  destruct w. run. by destruct (negb _ && negb _ && negb _).
Qed.

(** Arriving at an accessible tab that has an entry with a TL;DR. *)
Lemma arrive_restores t w entry a u :
  isSummarizing w = false →
  tabUrl E t = Ok (Some u) → isAccessibleUrl (Some u) = true →
  tabCache w !! t = Some entry → orNull (cTldr entry) = Some a →
  outcome (arrive E t) w = Ok tt ∧
  shown (boxes (after (arrive E t) w) tldrContent) = MarkdownOf a ∧
  extractedPageData (after (arrive E t) w) = cPageData entry ∧
  log (after (arrive E t) w) = log w.
Proof.
  intros Hs Hu Ha Hc Ht. unfold arrive. destruct w. cbn in Hs, Hc. subst.
  run. rewrite Hu. run. rewrite Ha. cbn [negb]. run. rewrite Hc. run. rewrite Ht.
  repeat (split_scrutinee_eq; run).
  all: rewrite ?fn_lookup_insert; repeat split; try done.
Qed.

Lemma save_run tab w :
  saveCurrentTabQuizChat tab w = (Ok tt, after (saveCurrentTabQuizChat tab) w).
Proof. unfold saveCurrentTabQuizChat, after. by destruct (liveTab tab). Qed.

Lemma switchToTab_run t w :
  currentTabId w ≠ Some t →
  switchToTab E t w
  = arrive E t (set_currentTabId (Some t) (after (saveCurrentTabQuizChat (currentTabId w)) w)).
Proof.
  intros Hne. rewrite switchToTab_steps by done.
  rewrite run_bind, save_run. by rewrite run_bind.
Qed.

(** Arriving at a tab never throws, and asks at most for the text of
    the page. *)
Lemma arrive_quiet t w :
  outcome (arrive E t) w = Ok tt ∧
  (log (after (arrive E t) w) = log w ∨ log (after (arrive E t) w) = log w ++ [Extracted]).
Proof.
  unfold arrive. destruct w. run.
  repeat (split_scrutinee_eq; cbn [negb]; run).
  all: split; [done|]; first [by left | by right].
Qed.

(** The first part of C4: with a TL;DR in the entry of the current tab,
    going to another tab and coming back shows it again, and no model is
    asked. *)
Lemma switch_away_and_back_restores t1 t2 w entry a u :
  t1 ≠ t2 → currentTabId w = Some t1 → isSummarizing w = false →
  tabUrl E t1 = Ok (Some u) → isAccessibleUrl (Some u) = true →
  tabCache w !! t1 = Some entry → orNull (cTldr entry) = Some a →
  outcome (switchToTab E t2 ;; switchToTab E t1) w = Ok tt ∧
  currentTabId (after (switchToTab E t2 ;; switchToTab E t1) w) = Some t1 ∧
  shown (boxes (after (switchToTab E t2 ;; switchToTab E t1) w) tldrContent) = MarkdownOf a ∧
  (∀ e, e ∈ newEvents (switchToTab E t2 ;; switchToTab E t1) w → e = Extracted).
Proof.
  intros Hne Hcur Hs Hu Hacc Hentry Ha.
  unfold newEvents, outcome, after. rewrite run_bind.
  rewrite (switchToTab_run t2 w) by (rewrite Hcur; congruence).
  rewrite Hcur.
  destruct (save_writes_own_key (Some t1) w) as [_ Hown].
  destruct (Hown t1 entry eq_refl Hentry) as (entry' & Hentry' & _ & Htldr & _).
  destruct (save_frames (Some t1) w) as (Hs1 & Hl1 & _).
  set (w1 := set_currentTabId (Some t2) (after (saveCurrentTabQuizChat (Some t1)) w)) in *.
  assert (tabCache w1 !! t1 = Some entry' ∧ isSummarizing w1 = false ∧ log w1 = log w
          ∧ currentTabId w1 = Some t2) as (Hc1 & Hs1' & Hl1' & Hcur1).
  { subst w1. destruct (after (saveCurrentTabQuizChat (Some t1)) w). cbn in *.
    repeat split; congruence. }
  destruct (arrive_quiet t2 w1) as [Hout2 Hlog2].
  pose proof (arrive_tabCache E t2 w1) as Hc2.
  pose proof (arrive_isSummarizing E t2 w1) as Hs2.
  pose proof (arrive_currentTabId E t2 w1) as Hcur2.
  unfold outcome, after in *.
  destruct (arrive E t2 w1) as [r2 w2]. cbn [fst snd] in *. subst r2.
  rewrite (switchToTab_run t1 w2) by (rewrite Hcur2, Hcur1; congruence).
  rewrite Hcur2, Hcur1.
  destruct (save_writes_own_key (Some t2) w2) as [Hother _].
  assert (Some t2 ≠ Some t1) as Hne' by congruence.
  specialize (Hother t1 Hne').
  destruct (save_frames (Some t2) w2) as (Hs3 & Hl3 & _).
  set (w3 := set_currentTabId (Some t1) (after (saveCurrentTabQuizChat (Some t2)) w2)) in *.
  assert (tabCache w3 !! t1 = Some entry' ∧ isSummarizing w3 = false ∧ log w3 = log w2)
    as (Hc3 & Hs3' & Hl3').
  { subst w3. unfold after in *.
    destruct (saveCurrentTabQuizChat (Some t2) w2) as [r w']. cbn in *.
    destruct w'. cbn in *. repeat split; congruence. }
  assert (orNull (cTldr entry') = Some a) as Ha' by congruence.
  destruct (arrive_restores t1 w3 entry' a u Hs3' Hu Hacc Hc3 Ha')
    as (Hout & Hshown & _ & Hlog).
  pose proof (arrive_currentTabId E t1 w3) as Hcur3.
  unfold outcome, after in *.
  destruct (arrive E t1 w3) as [r4 w4]. cbn [fst snd] in *.
  split; [done|]. split.
  { rewrite Hcur3. subst w3. by destruct (snd (saveCurrentTabQuizChat (Some t2) w2)). }
  split; [done|].
  intros e. rewrite Hlog, Hl3'.
  destruct Hlog2 as [-> | ->]; rewrite Hl1'.
  - rewrite drop_all. intros H. by apply elem_of_nil in H.
  - rewrite drop_app_length. intros H. by apply list_elem_of_singleton in H.
Qed.

Lemma after_modify_bind {A} f (k : unit → M A) w :
  after (modify f ≫= k) w = after (k tt) (f w).
Proof. reflexivity. Qed.

Lemma onUpdated_tabCache t url w :
  tabCache (after (onUpdated E t url) w)
  = if present url then delete t (tabCache w) else tabCache w.
Proof.
  unfold onUpdated. destruct (present url); [|done].
  rewrite after_modify_bind.
  match goal with
  | |- tabCache (after ?k ?W) = _ =>
      assert (preserves tabCache k) as Hk by frame; rewrite Hk
  end.
  by destruct w.
Qed.

(** The second part of C4: a navigation of a tab deletes its entry, and
    so does closing it; the other entries stay. *)
Lemma navigation_and_closing_delete_entry t url w :
  present (Some url) = true →
  tabCache (after (onUpdated E t (Some url)) w) = delete t (tabCache w) ∧
  tabCache (after (onRemoved t) w) = delete t (tabCache w).
Proof.
  intros Hp. rewrite onUpdated_tabCache, Hp. split; [done|]. by destruct w.
Qed.

(** Switching to a tab that has no entry shows the fresh state. *)
Lemma switch_to_uncached_is_fresh t w :
  currentTabId w ≠ Some t → isSummarizing w = false → tabCache w !! t = None →
  (∀ b, shown (boxes (after (switchToTab E t) w) b) = Cleared) ∧
  chatHistory (after (switchToTab E t) w) = [].
Proof.
  intros Hne Hs Hc. unfold after. rewrite switchToTab_run by done.
  destruct (save_writes_own_key (currentTabId w) w) as [Hother _].
  specialize (Hother t Hne).
  destruct (save_frames (currentTabId w) w) as (Hs1 & _ & _).
  set (w1 := set_currentTabId (Some t) (after (saveCurrentTabQuizChat (currentTabId w)) w)).
  assert (tabCache w1 !! t = None ∧ isSummarizing w1 = false) as [Hc1 Hs1'].
  { subst w1. destruct (after (saveCurrentTabQuizChat (currentTabId w)) w). cbn in *.
    split; congruence. }
  clearbody w1. clear - Hc1 Hs1'. unfold arrive. destruct w1. cbn in Hc1, Hs1'. subst.
  run. repeat (split_scrutinee_eq; cbn [negb]; run; rewrite ?Hc1; run).
  all: split; [intros []; by rewrite ?fn_lookup_insert | done].
Qed.

End TabClaims.


Section Schedules.
Variable E : env.

(** With nothing in between, the two halves are the handler. *)
Lemma handleGenerateTldr_halves w page :
  generating w TLDR = false → extractedPageData w = Some page →
  handleGenerateTldr E w = (request ← tldrUntilAwait E; tldrAfterAwait E request) w.
Proof.
  intros Hg Hp. destruct w. cbn in Hg, Hp. subst.
  unfold handleGenerateTldr, tldrUntilAwait, tldrAfterAwait. run.
  rewrite Hg. run. rewrite !fn_lookup_insert. reflexivity.
Qed.

End Schedules.

(** C4 fails in the code.  The TL;DR of tab 1 stays in the
    [data-raw-text] attribute of its box when the box is cleared.  After
    a question asked on tab 2, leaving tab 2 creates its entry with that
    attribute as its TL;DR: the entry of tab 2 holds the summary of the
    page of tab 1, and coming back to tab 2 shows it, although the
    summarizer was asked once, for the text of tab 1. *)
Theorem tab_entry_takes_tldr_of_other_tab :
  let E := Scenario.twoPages in
  let story :=
    handleGenerateTldr E ;;
    switchToTab E 2 ;;
    typeQuestion (js "Why?") ;;
    handleCustomPrompt E ;;
    switchToTab E 1 ;;
    switchToTab E 2 in
  outcome story Scenario.onTab1 = Ok tt ∧
  summarizedIn (log (after story Scenario.onTab1)) = [(0%nat, text Scenario.article)] ∧
  currentTabId (after story Scenario.onTab1) = Some 2%Z ∧
  extractedPageData (after story Scenario.onTab1) = Some Scenario.owls ∧
  cTldr <$> (tabCache (after story Scenario.onTab1) !! 1%Z) = Some (Some (js "A")) ∧
  cTldr <$> (tabCache (after story Scenario.onTab1) !! 2%Z) = Some (Some (js "A")) ∧
  cPageData <$> (tabCache (after story Scenario.onTab1) !! 2%Z) = Some (Some Scenario.owls) ∧
  shown (boxes (after story Scenario.onTab1) tldrContent) = MarkdownOf (js "A").
Proof. vm_compute. repeat split. Qed.

(** The same happens without the chat when the user changes tab while
    the summarizer is awaited: the answer is stored under the tab that is
    current when it arrives. *)
Lemma tldr_stored_under_tab_current_at_completion :
  let E := Scenario.twoPages in
  let story := request ← tldrUntilAwait E; switchToTab E 2 ;; tldrAfterAwait E request in
  outcome story Scenario.onTab1 = Ok tt ∧
  summarizedIn (log (after story Scenario.onTab1)) = [(0%nat, text Scenario.article)] ∧
  tabCache (after story Scenario.onTab1) !! 1%Z = None ∧
  cTldr <$> (tabCache (after story Scenario.onTab1) !! 2%Z) = Some (Some (js "A")) ∧
  cPageData <$> (tabCache (after story Scenario.onTab1) !! 2%Z) = Some (Some Scenario.owls).
Proof. vm_compute. repeat split. Qed.

(* ===================================================================== *)
(** * Further properties of the code *)
(* ===================================================================== *)

(** ** The handlers always come to rest *)

Ltac settle :=
  repeat (split_scrutinee_eq; cbn [negb]; run; rewrite ?fn_lookup_insert; run);
  try done.

Section Settle.
Variable E : env.

Lemma handleGenerateTldr_settles w :
  outcome (handleGenerateTldr E) w = Ok tt ∧
  idle TLDR (tldrIdleLabel E) (after (handleGenerateTldr E) w).
Proof. unfold handleGenerateTldr, idle. destruct w. run. settle. Qed.

Lemma handleGenerateKeyPoints_settles w :
  outcome (handleGenerateKeyPoints E) w = Ok tt ∧
  idle KEYPOINTS (keyPointsIdleLabel E) (after (handleGenerateKeyPoints E) w).
Proof. unfold handleGenerateKeyPoints, idle. destruct w. run. settle. Qed.

Lemma handleGenerateQuiz_settles w :
  hasLanguageModel E = true →
  outcome (handleGenerateQuiz E) w = Ok tt ∧
  idle QUIZ (quizIdleLabel E) (after (handleGenerateQuiz E) w).
Proof. intros Hm. unfold handleGenerateQuiz, idle. rewrite Hm. destruct w. run. settle. Qed.

Lemma handleGenerateDialogue_settles w :
  hasLanguageModel E = true →
  outcome (handleGenerateDialogue E) w = Ok tt ∧
  idle DIALOGUE (dialogueIdleLabel E) (after (handleGenerateDialogue E) w).
Proof. intros Hm. unfold handleGenerateDialogue, idle. rewrite Hm. destruct w. run. settle. Qed.

Lemma handleGenerateQuiz_without_model w :
  hasLanguageModel E = false → handleGenerateQuiz E w = (Ok tt, w).
Proof. intros Hm. unfold handleGenerateQuiz. by rewrite Hm. Qed.

Lemma handleGenerateDialogue_without_model w :
  hasLanguageModel E = false → handleGenerateDialogue E w = (Ok tt, w).
Proof. intros Hm. unfold handleGenerateDialogue. by rewrite Hm. Qed.

End Settle.

(** X1.  A click on one of the four generate buttons is handled to the
    end without an error escaping, whatever the state of the panel and
    whatever the page and the providers answer: a click that starts a
    generation, a click that cancels one, a page without text, a
    provider that rejects.  Afterwards the slot of the button is at
    rest: its flag is off, its controller is null and its button is
    enabled under its idle label.  Without the prompt interface the
    quiz and dialogue handlers return at once and change nothing. *)
Theorem generation_handlers_settle (E : env) (w : world) :
  (outcome (handleGenerateTldr E) w = Ok tt ∧
   idle TLDR (tldrIdleLabel E) (after (handleGenerateTldr E) w)) ∧
  (outcome (handleGenerateKeyPoints E) w = Ok tt ∧
   idle KEYPOINTS (keyPointsIdleLabel E) (after (handleGenerateKeyPoints E) w)) ∧
  outcome (handleGenerateQuiz E) w = Ok tt ∧
  outcome (handleGenerateDialogue E) w = Ok tt ∧
  (hasLanguageModel E = true →
     idle QUIZ (quizIdleLabel E) (after (handleGenerateQuiz E) w) ∧
     idle DIALOGUE (dialogueIdleLabel E) (after (handleGenerateDialogue E) w)) ∧
  (hasLanguageModel E = false →
     after (handleGenerateQuiz E) w = w ∧ after (handleGenerateDialogue E) w = w).
Proof.
  split; [apply handleGenerateTldr_settles|].
  split; [apply handleGenerateKeyPoints_settles|].
  destruct (hasLanguageModel E) eqn:Hm.
  - destruct (handleGenerateQuiz_settles E w Hm) as [Hq Hqi].
    destruct (handleGenerateDialogue_settles E w Hm) as [Hd Hdi].
    split; [done|]. split; [done|]. split; [done|]. intros [=].
  - unfold outcome, after.
    rewrite (handleGenerateQuiz_without_model E w Hm).
    rewrite (handleGenerateDialogue_without_model E w Hm).
    split; [done|]. split; [done|]. split; [intros [=]|done].
Qed.

(** With the prompt interface and a page in tab 1, the quiz and the
    dialogue slots are at rest after their handlers. *)
Lemma generation_handlers_settle_witness :
  idle QUIZ (quizIdleLabel Scenario.willing)
       (after (handleGenerateQuiz Scenario.willing) Scenario.onTab1) ∧
  idle DIALOGUE (dialogueIdleLabel Scenario.willing)
       (after (handleGenerateDialogue Scenario.willing) Scenario.onTab1).
Proof.
  refine (proj1 (proj2 (proj2 (proj2 (proj2
            (generation_handlers_settle Scenario.willing Scenario.onTab1))))) _).
  reflexivity.
Defined.

(** X2.  [handleCustomPrompt] never lets an error escape.  When no
    answer is being generated and the question typed is empty or made of
    white space only, it changes nothing at all: no bubble is added and
    the input keeps its content.  In every other case (a question is
    asked, or a running answer is cancelled) the chat slot is at rest
    afterwards: flag off, controller null, button enabled under the
    label of the ask button. *)
Theorem chat_handler_settles (E : env) (w : world) :
  outcome (handleCustomPrompt E) w = Ok tt ∧
  (generating w CHAT = false → trim (customPromptInput w) = [] →
     after (handleCustomPrompt E) w = w) ∧
  (generating w CHAT = true ∨ trim (customPromptInput w) ≠ [] →
     idle CHAT (askLabel E) (after (handleCustomPrompt E) w)).
Proof.
  unfold handleCustomPrompt, idle. destruct w. run.
  destruct (generating0 CHAT) eqn:Hg; run.
  - settle.
  - destruct (trim customPromptInput0) eqn:Ht; cbn [truthy negb].
    + split; [done|]. split; [done|]. intros [?|?]; done.
    + settle. all: repeat split; try done.
Qed.

(** A question made of blanks changes nothing; the question [Why?]
    leaves the chat slot at rest. *)
Lemma chat_handler_settles_witness :
  after (handleCustomPrompt Scenario.willing) (typeQuestion (js "  ") Scenario.onTab1).2
  = (typeQuestion (js "  ") Scenario.onTab1).2 ∧
  idle CHAT (askLabel Scenario.willing)
       (after (handleCustomPrompt Scenario.willing) Scenario.asking).
Proof.
  split.
  - refine (proj1 (proj2 (chat_handler_settles Scenario.willing _)) _ _); reflexivity.
  - refine (proj2 (proj2 (chat_handler_settles Scenario.willing _)) _).
    right. vm_compute. discriminate.
Defined.

(** ** Page data and tabs *)

Section PageData.
Variable E : env.

Lemma ensurePageData_cached w d :
  extractedPageData w = Some d → ensurePageData E w = (Ok (Some d), w).
Proof. intros H. destruct w. cbn in H. subst. reflexivity. Qed.

Lemma ensurePageData_asks w :
  extractedPageData w = None →
  outcome (ensurePageData E) w = Ok (usablePage (extractTextResponse E (extractions w))) ∧
  extractedPageData (after (ensurePageData E) w)
  = usablePage (extractTextResponse E (extractions w)) ∧
  newEvents (ensurePageData E) w = [Extracted] ∧
  extractions (after (ensurePageData E) w) = S (extractions w) ∧
  (∀ d, usablePage (extractTextResponse E (extractions w)) = Some d →
        pageInfo (after (ensurePageData E) w) = Some d) ∧
  (usablePage (extractTextResponse E (extractions w)) = None →
        pageInfo (after (ensurePageData E) w) = pageInfo w).
Proof.
  intros H. destruct w. cbn in H. subst. unfold newEvents, usablePage. run.
  destruct (extractTextResponse E extractions0) as [[d|]|e]; run.
  - destruct (truthy (text d)); run; rewrite drop_app_length; repeat split; try done;
      by intros ? [= <-].
  - rewrite drop_app_length. repeat split; done.
  - rewrite drop_app_length. repeat split; done.
Qed.

End PageData.

(** X3.  [ensurePageData] never throws and returns what it leaves in
    [extractedPageData].  With page data already there it returns them
    and changes nothing: the content script is not asked.  Without, it
    asks the content script once and keeps the answer only when it is a
    page with a non-empty text, which it then shows in the page info;
    any other answer, and a rejection, leave [extractedPageData] null
    and the page info as it was. *)
Theorem ensurePageData_extracts_once (E : env) (w : world) :
  (∃ r, outcome (ensurePageData E) w = Ok r ∧
        extractedPageData (after (ensurePageData E) w) = r ∧
        (∀ d, r = Some d → truthy (text d) = true ∨ extractedPageData w = Some d)) ∧
  (∀ d, extractedPageData w = Some d → ensurePageData E w = (Ok (Some d), w)) ∧
  (extractedPageData w = None →
     outcome (ensurePageData E) w = Ok (usablePage (extractTextResponse E (extractions w))) ∧
     newEvents (ensurePageData E) w = [Extracted] ∧
     (∀ d, usablePage (extractTextResponse E (extractions w)) = Some d →
           pageInfo (after (ensurePageData E) w) = Some d) ∧
     (usablePage (extractTextResponse E (extractions w)) = None →
           pageInfo (after (ensurePageData E) w) = pageInfo w)).
Proof.
  split; [|split].
  - destruct (extractedPageData w) as [d|] eqn:Hd.
    + exists (Some d). unfold outcome, after. rewrite (ensurePageData_cached E w d Hd).
      cbn [fst snd]. repeat split; try done. intros ? [= <-]. by right.
    + destruct (ensurePageData_asks E w Hd) as (Ho & He & _).
      eexists. split; [exact Ho|]. split; [exact He|].
      intros d Hu. left. unfold usablePage in Hu.
      destruct (extractTextResponse E (extractions w)) as [[d'|]|]; try done.
      destruct (truthy (text d')) eqn:Ht; [|done]. by injection Hu as <-.
  - apply ensurePageData_cached.
  - intros Hd. destruct (ensurePageData_asks E w Hd) as (Ho & _ & Hl & _ & Hp & Hn). done.
Qed.

(** X4.  [updateTabAccessibility] never throws.  It answers [true]
    exactly when [chrome.tabs.get] gives an address that starts with
    [http://] or [https://]; the TL;DR and key-points buttons are then
    enabled and the status banner is hidden.  In every other case, a
    rejection of [chrome.tabs.get] included, it answers [false] and both
    buttons are disabled.  It touches nothing but these two buttons and
    the banner. *)
Theorem updateTabAccessibility_gates_buttons (E : env) (tabId : Z) (w : world) :
  outcome (updateTabAccessibility E tabId) w = Ok (reachable E tabId) ∧
  (reachable E tabId = true ↔
     ∃ address, tabUrl E tabId = Ok (Some address) ∧
                (startsWith address (js "http://") = true ∨
                 startsWith address (js "https://") = true)) ∧
  buttons (after (updateTabAccessibility E tabId) w) TLDR
  = Button (label (buttons w TLDR)) (negb (reachable E tabId)) ∧
  buttons (after (updateTabAccessibility E tabId) w) KEYPOINTS
  = Button (label (buttons w KEYPOINTS)) (negb (reachable E tabId)) ∧
  (∀ s, s ≠ TLDR → s ≠ KEYPOINTS →
        buttons (after (updateTabAccessibility E tabId) w) s = buttons w s) ∧
  (reachable E tabId = true →
     statusBanner (after (updateTabAccessibility E tabId) w) = None) ∧
  boxes (after (updateTabAccessibility E tabId) w) = boxes w ∧
  tabCache (after (updateTabAccessibility E tabId) w) = tabCache w ∧
  extractedPageData (after (updateTabAccessibility E tabId) w) = extractedPageData w ∧
  log (after (updateTabAccessibility E tabId) w) = log w.
Proof.
  split; [|split].
  - unfold reachable. destruct w. run. destruct (tabUrl E tabId) as [u|e]; run; [|done].
    by destruct (isAccessibleUrl u).
  - unfold reachable, isAccessibleUrl. split.
    + destruct (tabUrl E tabId) as [[u|]|]; try done.
      intros H. apply andb_true_iff in H as [_ H]. apply orb_true_iff in H. eauto.
    + intros (u & -> & H). apply andb_true_iff. split.
      * destruct u; [|done]. by destruct H.
      * by apply orb_true_iff.
  - unfold reachable. destruct w. run. destruct (tabUrl E tabId) as [u|e]; run.
    + destruct (isAccessibleUrl u); run; rewrite ?fn_lookup_insert; repeat split; try done.
      all: intros []; done.
    + rewrite ?fn_lookup_insert. repeat split; try done. intros []; done.
Qed.

(** X5.  The [chrome.tabs.onUpdated] listener does nothing when the
    change carries no address.  When it does, the entry of the tab is
    deleted from the cache and no other entry changes; if the tab is not
    the current one, nothing else changes; if it is, the panel goes to
    the fresh state (the four boxes and the chat are emptied) and the
    TL;DR and key-points buttons are disabled exactly when the new
    address is not an [http] or [https] one, in which case the content
    script is not asked; otherwise the content script is asked once and
    its answer is kept as page data only when it is a page with a
    non-empty text.  The listener never throws. *)
Theorem onUpdated_invalidates (E : env) (tabId : Z) (changedUrl : option jsstring)
    (w : world) :
  outcome (onUpdated E tabId changedUrl) w = Ok tt ∧
  (present changedUrl = false → after (onUpdated E tabId changedUrl) w = w) ∧
  (present changedUrl = true →
     tabCache (after (onUpdated E tabId changedUrl) w) = delete tabId (tabCache w) ∧
     (currentTabId w ≠ Some tabId →
        after (onUpdated E tabId changedUrl) w
        = set_tabCache (delete tabId (tabCache w)) w) ∧
     (currentTabId w = Some tabId →
        (∀ b, shown (boxes (after (onUpdated E tabId changedUrl) w) b) = Cleared) ∧
        chatHistory (after (onUpdated E tabId changedUrl) w) = [] ∧
        disabled (buttons (after (onUpdated E tabId changedUrl) w) TLDR)
        = negb (isAccessibleUrl changedUrl) ∧
        disabled (buttons (after (onUpdated E tabId changedUrl) w) KEYPOINTS)
        = negb (isAccessibleUrl changedUrl) ∧
        extractedPageData (after (onUpdated E tabId changedUrl) w)
        = (if isAccessibleUrl changedUrl
           then usablePage (extractTextResponse E (extractions w)) else None) ∧
        newEvents (onUpdated E tabId changedUrl) w
        = (if isAccessibleUrl changedUrl then [Extracted] else []))).
Proof.
  unfold onUpdated, newEvents, usablePage. destruct (present changedUrl) eqn:Hp.
  - destruct w. run. destruct (bool_decide (currentTabId0 = Some tabId)) eqn:Hc; run.
    + apply bool_decide_eq_true in Hc. subst.
      destruct (isAccessibleUrl changedUrl); cbn [negb]; run.
      * destruct (extractTextResponse E extractions0) as [[d|]|e]; run.
        -- destruct (truthy (text d)); run; rewrite ?drop_app_length, ?fn_lookup_insert;
             repeat split; try done; by intros [].
        -- rewrite ?drop_app_length, ?fn_lookup_insert. repeat split; try done; by intros [].
        -- rewrite ?drop_app_length, ?fn_lookup_insert. repeat split; try done; by intros [].
      * rewrite ?drop_all, ?fn_lookup_insert. repeat split; try done; by intros [].
    + apply bool_decide_eq_false in Hc. repeat split; try done.
  - repeat split; try done.
Qed.

(** ** What the prompt call shows *)

Section Streaming.
Variable E : env.

Lemma forAwait_cons (t : target) c cs failure a w :
  forAwait t (c :: cs) failure a w
  = forAwait t cs failure (onChunk a c)
      (updTarget t (λ _, Elem (MarkdownOf (fullText (onChunk a c)))
                              (Some (fullText (onChunk a c)))) w).
Proof. reflexivity. Qed.

Lemma forAwait_run (b : box) cs failure : ∀ a w,
  outcome (forAwait b cs failure a) w
  = match failure with
    | Some err => Thrown err
    | None => Ok (fold_left onChunk cs a)
    end ∧
  boxes (after (forAwait b cs failure a) w) b
  = match cs with
    | [] => boxes w b
    | _ => Elem (MarkdownOf (fullText (fold_left onChunk cs a)))
                (Some (fullText (fold_left onChunk cs a)))
    end ∧
  (∀ b', b' ≠ b → boxes (after (forAwait b cs failure a) w) b' = boxes w b').
Proof.
  induction cs as [|c cs IH]; intros a w.
  - cbn [forAwait fold_left]. by destruct failure.
  - unfold outcome, after in *. rewrite forAwait_cons. cbn [fold_left].
    match goal with |- context [forAwait _ cs failure ?A ?W] =>
      pose proof (IH A W) as IH' end.
    destruct IH' as (Ho & Hb & Hother).
    rewrite Ho. split; [done|]. split.
    + rewrite Hb. destruct cs; [|done]. cbn [fold_left]. destruct w. cbn.
      by rewrite fn_lookup_insert.
    + intros b' Hne. rewrite (Hother b' Hne). destruct w. cbn.
      by rewrite fn_lookup_insert_ne.
Qed.

End Streaming.

(** X6.  When the session is created and the stream ends normally,
    [runPromptApi] returns the text accumulated over the chunks, and the
    target box shows that same text (its last rendering); with no chunk
    at all it returns the empty string and the box keeps what it showed.
    When the stream fails after some chunks, the error is thrown, and
    the box keeps the text accumulated so far.  No other box changes,
    and in both cases the session is asked once and destroyed. *)
Theorem runPromptApi_shows_what_it_returns (E : env) (systemPrompt prompt : jsstring)
    (b : box) (outputLanguage : jsstring) (signal : option nat) (w : world)
    (cs : list jsstring) (ending : option error) :
  createResponse E (sessions w) = None →
  promptStreamingResponse E (sessions w) prompt = Ok (Stream cs ending) →
  outcome (runPromptApi E systemPrompt prompt b outputLanguage signal) w
  = match ending with
    | Some err => Thrown err
    | None => Ok (streamedText cs)
    end ∧
  boxes (after (runPromptApi E systemPrompt prompt b outputLanguage signal) w) b
  = renderedInto b cs w ∧
  (∀ b', b' ≠ b →
     boxes (after (runPromptApi E systemPrompt prompt b outputLanguage signal) w) b'
     = boxes w b') ∧
  newEvents (runPromptApi E systemPrompt prompt b outputLanguage signal) w
  = [Created LanguageModelSession (sessions w); Prompted (sessions w) prompt;
     Destroyed (sessions w)].
Proof.
  intros Hc Hs. split; [|split; [|split]].
  4: { destruct (runPromptApi_trace E systemPrompt prompt b outputLanguage signal w)
         as [H|H]; [|done].
       exfalso. revert H. unfold newEvents. destruct w. cbn in Hc, Hs. run.
       rewrite Hc. run. rewrite Hs. run. cbn [chunks failure].
       match goal with |- context [forAwait ?t ?cs ?f ?a ?W] =>
         pose proof (forAwait_log t cs f a W) as Hlog; unfold after in Hlog;
         destruct (forAwait t cs f a W) as [r w'] end.
       destruct w'. run in Hlog. subst. destruct r; run;
         rewrite <- ?app_assoc, drop_app_length; done. }
  all: destruct w; cbn in Hc, Hs; unfold renderedInto, streamedText, consume; run;
    rewrite Hc; run; rewrite Hs; run; cbn [chunks failure].
  all: match goal with |- context [forAwait ?t ?cs ?f ?a ?W] =>
         destruct (forAwait_run b cs f a W) as (Ho & Hb & Hother);
         unfold outcome, after in Ho, Hb, Hother;
         destruct (forAwait t cs f a W) as [r w'] end.
  all: cbn [fst snd] in *; subst r; destruct w'; cbn in Hb, Hother.
  - destruct ending; run; done.
  - destruct ending; run; rewrite Hb; by destruct cs.
  - intros b' Hne. specialize (Hother b' Hne). destruct ending; run; by rewrite Hother.
Qed.

(** A stream of the two chunks [Hello] and [Hello world]: the call
    returns [Hello world]. *)
Lemma runPromptApi_shows_what_it_returns_witness :
  outcome (runPromptApi Scenario.willing (js "Be brief.") (js "Say hello.") tldrContent
                        (js "en") None) Scenario.loaded
  = Ok (js "Hello world").
Proof.
  refine (proj1 (runPromptApi_shows_what_it_returns Scenario.willing (js "Be brief.")
                   (js "Say hello.") tldrContent (js "en") None Scenario.loaded
                   [js "Hello"; js "Hello world"] None _ _)); reflexivity.
Defined.

(** ** When the translator is left alone *)

Section TranslatorFrames.
Variable E : env.

Lemma emit_translatorCalls e :
  isTranslatorEvent e = false → preserves translatorCalls (emit e).
Proof.
  intros He w. destruct w. unfold translatorCalls. cbn.
  rewrite List.filter_app. cbn. rewrite He. apply app_nil_r.
Qed.

Lemma create_translatorCalls k :
  k ≠ TranslatorSession → preserves translatorCalls (create E k).
Proof.
  intros Hk w. destruct w. unfold translatorCalls, after, create. cbn.
  destruct (createResponse E sessions0); cbn; [done|].
  rewrite List.filter_app. cbn. destruct k; try done; apply app_nil_r.
Qed.

Lemma extractText_translatorCalls : preserves translatorCalls (extractText E).
Proof.
  intros w. destruct w. unfold translatorCalls. cbn.
  rewrite List.filter_app. apply app_nil_r.
Qed.

Lemma newAbortController_translatorCalls : preserves translatorCalls newAbortController.
Proof. by intros w. Qed.

Lemma updateCache_translatorCalls field : preserves translatorCalls (updateCache field).
Proof. intros w. unfold after, updateCache, modify. cbn. by destruct (liveTab (currentTabId w)). Qed.

Lemma storeDialogue_translatorCalls r : preserves translatorCalls (storeDialogue r).
Proof.
  intros w. unfold after, storeDialogue, modify. cbn.
  destruct (liveTab (currentTabId w)); [|done]. by destruct (tabCache w !! _).
Qed.

Lemma forAwait_translatorCalls t cs failure a :
  preserves translatorCalls (forAwait t cs failure a).
Proof. revert a. induction cs as [|c cs IH]; intros a; simpl; frame. Qed.

End TranslatorFrames.

#[local] Hint Extern 1 (preserves translatorCalls (emit _)) =>
  apply emit_translatorCalls; reflexivity : frame.
#[local] Hint Extern 1 (preserves translatorCalls (create _ _)) =>
  apply create_translatorCalls; discriminate : frame.
#[local] Hint Resolve extractText_translatorCalls forAwait_translatorCalls
  newAbortController_translatorCalls updateCache_translatorCalls
  storeDialogue_translatorCalls : frame.

Section TranslatorFrames2.
Variable E : env.

Lemma runAttempts_translatorCalls opts t remaining :
  preserves translatorCalls (runAttempts E opts t remaining).
Proof. induction remaining as [|input later IH]; simpl; frame. Qed.

Lemma runSummarizer_translatorCalls opts text t :
  preserves translatorCalls (runSummarizer E opts text t).
Proof. apply runAttempts_translatorCalls. Qed.

Lemma runPromptApi_translatorCalls sp p t l sg :
  preserves translatorCalls (runPromptApi E sp p t l sg).
Proof. frame. Qed.

Lemma translateKeyPoints_en r : translateKeyPoints E (js "en") r = mret r.
Proof. reflexivity. Qed.

End TranslatorFrames2.

#[local] Hint Resolve runAttempts_translatorCalls runSummarizer_translatorCalls
  runPromptApi_translatorCalls : frame.

Section NoTranslation.
Variable E : env.

Lemma handleGenerateTldr_translatorCalls : preserves translatorCalls (handleGenerateTldr E).
Proof. frame. Qed.

Lemma handleGenerateQuiz_translatorCalls : preserves translatorCalls (handleGenerateQuiz E).
Proof. frame. Qed.

Lemma handleGenerateDialogue_translatorCalls :
  preserves translatorCalls (handleGenerateDialogue E).
Proof. frame. Qed.

End NoTranslation.

Section InEnglish.
Context {X : Type} (part : world → X).

Lemma inEnglish_preserves {A} (m : M A) : preserves part m → preservesInEnglish part m.
Proof. intros H w _. apply H. Qed.

Lemma inEnglish_bind {A B} (m : M A) (f : A → M B) :
  preserves langSelect m → preservesInEnglish part m →
  (∀ a, preservesInEnglish part (f a)) → preservesInEnglish part (m ≫= f).
Proof.
  intros Hl Hm Hf w Hw. unfold after. rewrite run_bind.
  specialize (Hm w Hw). specialize (Hl w). unfold after in Hm, Hl.
  destruct (m w) as [[a|e] w']; simpl in *; [|done].
  rewrite <- Hm. apply Hf. congruence.
Qed.

Lemma inEnglish_tryCatch {A} (body : M A) handler :
  preserves langSelect body → preservesInEnglish part body →
  (∀ e, preservesInEnglish part (handler e)) → preservesInEnglish part (tryCatch body handler).
Proof.
  intros Hl Hm Hf w Hw. unfold after. rewrite run_tryCatch.
  specialize (Hm w Hw). specialize (Hl w). unfold after in Hm, Hl.
  destruct (body w) as [[a|e] w']; simpl in *; [done|].
  rewrite <- Hm. apply Hf. congruence.
Qed.

Lemma inEnglish_tryFinally {A} (body : M A) cleanup :
  preserves langSelect body → preservesInEnglish part body →
  preservesInEnglish part cleanup → preservesInEnglish part (tryFinally body cleanup).
Proof.
  intros Hl Hm Hf w Hw. unfold after. rewrite run_tryFinally.
  specialize (Hm w Hw). specialize (Hl w).
  specialize (Hf (snd (body w))). unfold after in *.
  rewrite Hl in Hf. specialize (Hf Hw).
  destruct (cleanup (snd (body w))) as [[a|e] w']; simpl in *; congruence.
Qed.

Lemma inEnglish_outputLanguageFor {B} pageLang (f : jsstring → M B) :
  preservesInEnglish part (f (js "en")) →
  preservesInEnglish part (outputLanguageFor pageLang ≫= f).
Proof.
  intros Hf w Hw. specialize (Hf w Hw). unfold after in *.
  unfold outputLanguageFor. rewrite !run_bind. unfold gets. rewrite Hw. exact Hf.
Qed.

End InEnglish.

Section EnglishSelected.
Variable E : env.

Lemma translateKeyPoints_en_calls r : preserves translatorCalls (translateKeyPoints E (js "en") r).
Proof. rewrite translateKeyPoints_en. apply preserves_ret. Qed.

End EnglishSelected.

#[local] Hint Resolve translateKeyPoints_en_calls : frame.


Section LanguageFrames.
Variable E : env.

Lemma newAbortController_langSelect : preserves langSelect newAbortController.
Proof. by intros w. Qed.

Lemma extractText_langSelect : preserves langSelect (extractText E).
Proof. by intros w. Qed.

Lemma create_langSelect k : preserves langSelect (create E k).
Proof. intros w. unfold after, create. by destruct (createResponse E (sessions w)). Qed.

Lemma updateCache_langSelect field : preserves langSelect (updateCache field).
Proof. intros w. unfold after, updateCache, modify. cbn. by destruct (liveTab (currentTabId w)). Qed.

Lemma forAwait_langSelect t cs failure a : preserves langSelect (forAwait t cs failure a).
Proof. revert a. induction cs as [|c cs IH]; intros a; simpl; frame. Qed.

End LanguageFrames.

#[local] Hint Resolve newAbortController_langSelect extractText_langSelect create_langSelect
  updateCache_langSelect forAwait_langSelect : frame.

Section LanguageFrames2.
Variable E : env.

Lemma runAttempts_langSelect opts t remaining :
  preserves langSelect (runAttempts E opts t remaining).
Proof. induction remaining as [|input later IH]; simpl; frame. Qed.

Lemma runSummarizer_langSelect opts text t : preserves langSelect (runSummarizer E opts text t).
Proof. apply runAttempts_langSelect. Qed.

End LanguageFrames2.

#[local] Hint Resolve runAttempts_langSelect runSummarizer_langSelect : frame.

(** Splits a goal about a run with English selected along the script,
    down to the read of the output language. *)
Ltac in_english_step :=
  lazymatch goal with
  | |- preservesInEnglish _ (outputLanguageFor _ ≫= _) =>
      apply inEnglish_outputLanguageFor;
      change (bool_decide (js "en" ≠ js "en")) with false; cbn [andb]
  | |- preservesInEnglish _ (_ ≫= _) => apply inEnglish_bind; [frame| |intros ?]
  | |- preservesInEnglish _ (tryCatch _ _) => apply inEnglish_tryCatch; [frame| |intros ?]
  | |- preservesInEnglish _ (tryFinally _ _) => apply inEnglish_tryFinally; [frame| |]
  | |- preservesInEnglish _ (match ?x with _ => _ end) => destruct x
  | |- preservesInEnglish _ (let _ := _ in _) => cbv zeta
  | |- preservesInEnglish _ ?m =>
      first [ solve [apply inEnglish_preserves; frame]
            | let h := head_of m in unfold h ]
  end.

Ltac in_english := repeat in_english_step.

Section EnglishSelected2.
Variable E : env.

Lemma handleGenerateKeyPoints_en :
  preservesInEnglish translatorCalls (handleGenerateKeyPoints E).
Proof. in_english. Qed.

Lemma handleCustomPrompt_en :
  preservesInEnglish translatorCalls (handleCustomPrompt E).
Proof. in_english. Qed.

End EnglishSelected2.

(** X7.  The TL;DR, quiz and dialogue handlers never create a
    translator and never call one, whatever language is selected and
    whatever the providers answer: the output language is only passed to
    the summarizer or written into the prompt. *)
Theorem tldr_quiz_dialogue_never_translate (E : env) (w : world) :
  translatorCalls (after (handleGenerateTldr E) w) = translatorCalls w ∧
  translatorCalls (after (handleGenerateQuiz E) w) = translatorCalls w ∧
  translatorCalls (after (handleGenerateDialogue E) w) = translatorCalls w.
Proof.
  split; [apply handleGenerateTldr_translatorCalls|].
  split; [apply handleGenerateQuiz_translatorCalls|apply handleGenerateDialogue_translatorCalls].
Qed.

(** X8.  While English is the selected output language, the key-points
    handler and the chat handler never create a translator and never
    call one, whatever the language of the page and whatever the
    providers answer. *)
Theorem english_selected_never_translates (E : env) (w : world) :
  langSelect w = js "en" →
  translatorCalls (after (handleGenerateKeyPoints E) w) = translatorCalls w ∧
  translatorCalls (after (handleCustomPrompt E) w) = translatorCalls w.
Proof.
  intros Hl. split; [by apply handleGenerateKeyPoints_en | by apply handleCustomPrompt_en].
Qed.

(** The panel on tab 1, where English is selected, with a question
    typed. *)
Lemma english_selected_never_translates_witness :
  translatorCalls (after (handleGenerateKeyPoints Scenario.willing) Scenario.asking)
  = translatorCalls Scenario.asking ∧
  translatorCalls (after (handleCustomPrompt Scenario.willing) Scenario.asking)
  = translatorCalls Scenario.asking.
Proof. apply (english_selected_never_translates Scenario.willing Scenario.asking). reflexivity. Defined.

(** ** The release of the translator *)


(** X9.  [translateIfNeeded] on a non-empty text and a target language
    other than English.  A pending translator is used for one
    [translate] call and is never destroyed.  Without a pending
    translator, one is created on demand, asked once, and destroyed
    when it has a [destroy] method: once, whether the [translate] call
    returns or throws; but twice when that call returned and [destroy]
    throws, since the [catch] block calls [destroy] again.  When
    [destroy] throws, the text is returned untranslated even though the
    translation had arrived. *)
Theorem translateIfNeeded_releases_translator (E : env) (text lang : jsstring) (w : world) :
  truthy text = true → lang ≠ js "en" →
  (∀ t, pendingTranslator w = Some (Ok (Some t)) →
     newEvents (translateIfNeeded E text lang) w = [Translated (tSession t) text]) ∧
  (pendingTranslator w = None → translatorApi E = true →
   createResponse E (sessions w) = None →
     newEvents (translateIfNeeded E text lang) w
     = [Created TranslatorSession (sessions w); Translated (sessions w) text]
       ++ releases (translatorShape E (sessions w)) (answers (wholeAnswer E w text)) (sessions w)
     ∧ (translatorShape E (sessions w) = (true, None) ∨ fst (translatorShape E (sessions w)) = false →
        outcome (translateIfNeeded E text lang) w
        = Ok (match wholeAnswer E w text with
              | Ok (Some t) => if truthy t && truthy (trim t) then t else text
              | _ => text
              end))
     ∧ (∀ e, translatorShape E (sessions w) = (true, Some e) →
        outcome (translateIfNeeded E text lang) w = Ok text)).
Proof.
  intros Ht Hl. unfold translateIfNeeded, wholeAnswer. rewrite Ht.
  rewrite (bool_decide_eq_false_2 _ Hl). cbn [negb orb].
  split.
  - intros t Hp. apply newEvents_app. destruct w. cbn in Hp. subst. run.
    repeat (split_scrutinee_eq; run); by rewrite <- ?app_assoc.
  - intros Hp Ha Hc. destruct w. cbn in Hp, Hc. subst.
    split; [|split].
    + apply newEvents_app. run. rewrite Ha, Hc. run.
      destruct (translatorShape E sessions0) as [[|] [err|]]; run;
        destruct (translateResponse E translations0 text) as [[t|]|]; run;
        repeat (split_scrutinee_eq; run); try by rewrite <- ?app_assoc.
    + intros Hs. run in Hs. run. rewrite Ha, Hc. run.
      destruct (translatorShape E sessions0) as [[|] [err|]]; run;
        destruct Hs as [Hs|Hs]; try done;
        destruct (translateResponse E translations0 text) as [[t|]|]; run;
        unfold usable; repeat (split_scrutinee_eq; run); try done.
    + intros e Hs. run in Hs. run. rewrite Ha, Hc. run. rewrite Hs. run.
      destruct (translateResponse E translations0 text) as [[t|]|]; run;
        repeat (split_scrutinee_eq; run); try done.
Qed.

(** The translator of the example browser has a [destroy] method that
    does not throw: it is created, asked and destroyed once. *)
Lemma translateIfNeeded_releases_translator_witness :
  newEvents (translateIfNeeded Scenario.willing (js "Hello") (js "ja")) Scenario.loaded
  = [Created TranslatorSession 0; Translated 0 (js "Hello"); Destroyed 0].
Proof.
  refine (proj1 (proj2 (translateIfNeeded_releases_translator Scenario.willing (js "Hello")
                          (js "ja") Scenario.loaded _ _) _ _ _)).
  all: try reflexivity. vm_compute. discriminate.
Defined.

(** ** Markdown *)

Section InlineFacts.

Lemma lazyGroup_spec close s g :
  lazyGroup close s = Some g →
  g ≠ [] ∧ Forall (λ c, isLineTerminator c = false) g ∧ ∃ rest, s = g ++ close ++ rest.
Proof.
  revert g. induction s as [|c s IH]; intros g H; [done|].
  cbn [lazyGroup] in H. destruct (isLineTerminator c) eqn:Hc; [done|].
  destruct (startsWith s close) eqn:Hs.
  - injection H as <-. apply startsWith_prefix in Hs as [rest ->].
    split; [done|]. split; [by repeat constructor|]. by exists rest.
  - destruct (lazyGroup close s) as [g'|]; [|done]. injection H as <-.
    destruct (IH g' eq_refl) as (_ & Hf & rest & ->).
    split; [done|]. split; [by constructor|]. by exists rest.
Qed.

Lemma inlineAt_spec s node len :
  inlineAt s = Some (node, len) →
  shownText node ≠ [] ∧
  Forall (λ c, isLineTerminator c = false) (shownText node) ∧
  (∀ t, node ≠ TextNode t) ∧
  len = length (sourceOf node) ∧ ∃ rest, s = sourceOf node ++ rest.
Proof.
  unfold inlineAt. destruct s as [|a r]; [done|].
  destruct (N.eqb_spec a STAR) as [->|]; [|done].
  destruct (match r with
            | b :: r' => if b =? STAR then lazyGroup [STAR; STAR] r' else None
            | [] => None
            end) as [g|] eqn:H2.
  - intros [= <- <-]. destruct r as [|b r']; [done|].
    destruct (N.eqb_spec b STAR) as [->|]; [|done].
    destruct (lazyGroup_spec _ _ _ H2) as (Hne & Hf & rest & ->).
    split; [done|]. split; [done|]. split; [done|]. split.
    + cbn. rewrite !length_app. cbn. lia.
    + exists rest. cbn [sourceOf app]. by rewrite <- ?app_assoc.
  - destruct (lazyGroup [STAR] r) as [g|] eqn:H1; [|done].
    intros [= <- <-].
    destruct (lazyGroup_spec _ _ _ H1) as (Hne & Hf & rest & ->).
    split; [done|]. split; [done|]. split; [done|]. split.
    + cbn. rewrite !length_app. cbn. lia.
    + exists rest. cbn [sourceOf app]. by rewrite <- ?app_assoc.
Qed.

Lemma textNode_source between : concat (sourceOf <$> textNode between) = between.
Proof. destruct between; [done|]. cbn. by rewrite app_nil_r. Qed.

Lemma inlineFrom_source s : ∀ skip between,
  (skip ≤ length s)%nat →
  concat (sourceOf <$> inlineFrom skip between s) = between ++ drop skip s.
Proof.
  induction s as [|c s IH]; intros skip between Hs.
  - cbn [inlineFrom]. rewrite textNode_source, drop_nil. by rewrite app_nil_r.
  - cbn [inlineFrom]. destruct skip as [|k].
    + destruct (inlineAt (c :: s)) as [[node len]|] eqn:Hat.
      * destruct (inlineAt_spec _ _ _ Hat) as (_ & _ & _ & -> & rest & Hrest).
        rewrite fmap_app, concat_app, textNode_source. cbn [fmap list_fmap concat].
        destruct (sourceOf node) as [|x src] eqn:Hsrc.
        { destruct node; cbn in Hsrc; try done.
          destruct (inlineAt_spec _ _ _ Hat) as (_ & _ & Hn & _). by destruct (Hn s0). }
        cbn in Hrest. injection Hrest as -> ->.
        rewrite IH by (cbn; rewrite length_app; lia).
        cbn. rewrite Nat.sub_0_r, drop_app_length. done.
      * rewrite IH by lia. cbn. by rewrite <- app_assoc.
    + rewrite IH by (cbn in Hs; lia). done.
Qed.

Lemma inlineFrom_shown s : ∀ skip between,
  Forall (λ n, shownText n ≠ []) (inlineFrom skip between s).
Proof.
  assert (∀ b, Forall (λ n, shownText n ≠ []) (textNode b)) as Htext.
  { intros [|x b]; cbn; by repeat constructor. }
  induction s as [|c s IH]; intros skip between; cbn [inlineFrom]; [apply Htext|].
  destruct skip as [|k]; [|apply IH].
  destruct (inlineAt (c :: s)) as [[node len]|] eqn:Hat; [|apply IH].
  apply Forall_app. split; [apply Htext|]. constructor; [|apply IH].
  by destruct (inlineAt_spec _ _ _ Hat) as (H & _).
Qed.

Lemma inlineFrom_formatted s : ∀ skip between n,
  n ∈ inlineFrom skip between s → (∀ t, n ≠ TextNode t) →
  Forall (λ c, isLineTerminator c = false) (shownText n).
Proof.
  assert (∀ b n, n ∈ textNode b → ∃ t, n = TextNode t) as Htext.
  { intros [|x b] n; cbn; [by intros ?%elem_of_nil|].
    intros ->%list_elem_of_singleton. eauto. }
  induction s as [|c s IH]; intros skip between n Hin Hn; cbn [inlineFrom] in Hin.
  - destruct (Htext _ _ Hin) as [t ->]. by destruct (Hn t).
  - destruct skip as [|k]; [|by eapply IH].
    destruct (inlineAt (c :: s)) as [[node len]|] eqn:Hat; [|by eapply IH].
    apply elem_of_app in Hin as [Hin|Hin].
    { destruct (Htext _ _ Hin) as [t ->]. by destruct (Hn t). }
    apply elem_of_cons in Hin as [->|Hin]; [|by eapply IH].
    by destruct (inlineAt_spec _ _ _ Hat) as (_ & H & _).
Qed.

Lemma inlineFrom_plain s : ∀ between,
  STAR ∉ s → inlineFrom 0 between s = textNode (between ++ s).
Proof.
  induction s as [|c s IH]; intros between Hs; cbn [inlineFrom].
  - by rewrite app_nil_r.
  - apply not_elem_of_cons in Hs as [Hc Hs].
    unfold inlineAt. destruct (N.eqb_spec c STAR) as [->|]; [done|].
    rewrite IH by done. by rewrite <- app_assoc.
Qed.

End InlineFacts.

(** X10.  [appendInlineFormatted] loses nothing of the text: written
    back with their markers (two stars around a [strong] node, one
    around an [em] node), the nodes it appends spell the text it was
    given, whatever the stars in it.  No node is empty, a [strong] or
    [em] node never holds a line terminator, and a text without a star
    becomes a single text node. *)
Theorem appendInlineFormatted_keeps_text (text : jsstring) :
  concat (sourceOf <$> inlineNodes text) = text ∧
  (∀ n, n ∈ inlineNodes text → shownText n ≠ []) ∧
  (∀ n, n ∈ inlineNodes text → (∀ t, n ≠ TextNode t) →
        ∀ c, c ∈ shownText n → isLineTerminator c = false) ∧
  (STAR ∉ text → text ≠ [] → inlineNodes text = [TextNode text]).
Proof.
  unfold inlineNodes. split; [|split; [|split]].
  - rewrite inlineFrom_source by lia. by rewrite drop_0.
  - intros n Hn. pose proof (inlineFrom_shown text 0%nat []) as H.
    rewrite List.Forall_forall in H. apply H. by apply list_elem_of_In.
  - intros n Hn Hf c Hc. pose proof (inlineFrom_formatted text 0%nat [] n Hn Hf) as H.
    rewrite List.Forall_forall in H. apply H. by apply list_elem_of_In.
  - intros Hs Hne. rewrite inlineFrom_plain by done. cbn [app]. by destruct text.
Qed.

(** A bold word between two plain ones. *)
Lemma appendInlineFormatted_keeps_text_witness :
  inlineNodes (js "plain") = [TextNode (js "plain")] ∧
  inlineNodes (js "a **b** c") = [TextNode (js "a "); Strong (js "b"); TextNode (js " c")].
Proof.
  split; [|reflexivity].
  refine (proj2 (proj2 (proj2 (appendInlineFormatted_keeps_text (js "plain")))) _ _).
  - vm_compute. intros H. repeat (apply elem_of_cons in H as [H|H]; [discriminate|]).
    by apply elem_of_nil in H.
  - discriminate.
Defined.

Section BlockFacts.

Lemma flush_entries cur : concat (blockEntries <$> flush cur) = default [] cur.
Proof. destruct cur; cbn; [apply app_nil_r|done]. Qed.

Lemma blockStep_collected st l :
  collectedEntries (blockStep st l)
  = collectedEntries st ++ (if truthy (trim l) then [inlineNodes (entryText (trim l))] else []).
Proof.
  destruct st as [blocks cur]. unfold blockStep, collectedEntries, entryText. cbv zeta.
  destruct (truthy (trim l)); cbn [negb fst snd].
  - destruct (listMatch (trim l)) as [g|]; cbn [fst snd default from_option id].
    + by rewrite app_assoc.
    + rewrite !fmap_app, !concat_app, flush_entries. cbn.
      by rewrite ?app_nil_r, ?app_assoc.
  - rewrite fmap_app, concat_app, flush_entries. cbn. by rewrite ?app_nil_r, ?app_assoc.
Qed.

Lemma blockStep_noEmptyList st l : noEmptyList st → noEmptyList (blockStep st l).
Proof.
  destruct st as [blocks cur]. unfold blockStep, noEmptyList. cbv zeta. cbn [fst snd].
  intros [Hb Hc].
  assert (Forall (λ b, blockEntries b ≠ []) (flush cur)) as Hf.
  { destruct cur as [[|i items]|]; cbn; try done; by repeat constructor. }
  destruct (truthy (trim l)); cbn [negb fst snd].
  - destruct (listMatch (trim l)) as [g|]; cbn [fst snd].
    + split; [done|]. intros [= H]. by destruct (default [] cur).
    + split; [|done]. rewrite !Forall_app. repeat split; try done. by repeat constructor.
  - split; [|done]. by rewrite Forall_app.
Qed.

Lemma fold_collected ls : ∀ st,
  collectedEntries (fold_left blockStep ls st)
  = collectedEntries st ++ ((λ l, inlineNodes (entryText l)) <$> List.filter truthy (trim <$> ls)) ∧
  (noEmptyList st → noEmptyList (fold_left blockStep ls st)).
Proof.
  induction ls as [|l ls IH]; intros st; cbn [fold_left].
  - cbn. by rewrite app_nil_r.
  - destruct (IH (blockStep st l)) as [Hc Hw]. split.
    + rewrite Hc, blockStep_collected. cbn [fmap list_fmap List.filter].
      destruct (truthy (trim l)); cbn; by rewrite <- ?app_assoc, ?app_nil_r.
    + intros H. by apply Hw, blockStep_noEmptyList.
Qed.

Lemma markdownBlocks_entries text :
  concat (blockEntries <$> markdownBlocks text)
  = (λ l, inlineNodes (entryText l)) <$> trimmedLines text ∧
  Forall (λ b, blockEntries b ≠ []) (markdownBlocks text).
Proof.
  unfold markdownBlocks, trimmedLines.
  destruct (fold_collected (split LF text) ([], None)) as [Hc Hw].
  destruct (fold_left blockStep (split LF text) ([], None)) as [blocks cur].
  unfold collectedEntries, noEmptyList in *. cbn [fst snd] in *. split.
  - rewrite fmap_app, concat_app, flush_entries. by rewrite Hc.
  - destruct Hw as [Hb Hn]; [by split|]. rewrite Forall_app. split; [done|].
    destruct cur as [[|i items]|]; cbn; try done; by repeat constructor.
Qed.

End BlockFacts.

(** X11.  [renderMarkdownSafe] makes one paragraph or one list item of
    every line that is not blank, in order, and nothing else: read in
    order, the paragraphs and list items are the trimmed non-blank
    lines, a line that starts with a bullet and white space giving an
    item with the rest as its text.  No list is empty.  The container
    stays without a child exactly when every line is blank. *)
Theorem renderMarkdownSafe_keeps_lines (text : jsstring) :
  concat (blockEntries <$> markdownBlocks text)
  = (λ l, inlineNodes (entryText l)) <$> trimmedLines text ∧
  (∀ b, b ∈ markdownBlocks text → blockEntries b ≠ []) ∧
  (markdownBlocks text = [] ↔ hasChildNodes (MarkdownOf text) = false).
Proof.
  destruct (markdownBlocks_entries text) as [He Hn].
  split; [done|]. split.
  - intros b Hb. rewrite List.Forall_forall in Hn. apply Hn. by apply list_elem_of_In.
  - cbn [hasChildNodes]. unfold trimmedLines in He. split.
    + intros H0. rewrite H0 in He. cbn in He. symmetry in He. apply fmap_nil_inv in He.
      induction (split LF text) as [|l ls IH]; [done|].
      cbn [fmap list_fmap List.filter existsb] in *.
      destruct (truthy (trim l)); [done|]. by apply IH.
    + intros H0.
      assert (List.filter truthy (trim <$> split LF text) = []) as Hf.
      { induction (split LF text) as [|l ls IH]; [done|].
        cbn [fmap list_fmap List.filter existsb] in *.
        destruct (truthy (trim l)); [done|]. by apply IH. }
      rewrite Hf in He. cbn in He.
      destruct (markdownBlocks text) as [|b bs]; [done|].
      inversion Hn as [|? ? Hb _]; subst. cbn in He.
      destruct (blockEntries b); done.
Qed.

(** ** Quiz and dialogue *)

Section TrimFacts.

Lemma trimStart_suffix s : ∃ a, s = a ++ trimStart s.
Proof.
  induction s as [|c s [a IH]]; [by exists []|]. cbn [trimStart].
  destruct (isSpace c); [|by exists []]. exists (c :: a). cbn. by rewrite <- IH.
Qed.

Lemma trimStart_head s : trimStart s = [] ∨ ∃ h t, trimStart s = h :: t ∧ isSpace h = false.
Proof.
  induction s as [|c s IH]; [by left|]. cbn [trimStart].
  destruct (isSpace c) eqn:Hc; [done|]. right. eauto.
Qed.

Lemma trimEnd_prefix s : ∃ b, s = trimEnd s ++ b.
Proof.
  unfold trimEnd. destruct (trimStart_suffix (reverse s)) as [a Ha].
  exists (reverse a). rewrite <- reverse_app, <- Ha. by rewrite reverse_involutive.
Qed.

Lemma trimEnd_last s : trimEnd s = [] ∨ ∃ p z, trimEnd s = p ++ [z] ∧ isSpace z = false.
Proof.
  unfold trimEnd. destruct (trimStart_head (reverse s)) as [->|(h & t & -> & Hh)]; [by left|].
  right. exists (reverse t), h. by rewrite reverse_cons.
Qed.

(** A trimmed string is empty, or begins and ends with a unit that is
    no white space. *)
Lemma trim_ends s :
  trim s = [] ∨
  (∃ h t, trim s = h :: t ∧ isSpace h = false) ∧ (∃ p z, trim s = p ++ [z] ∧ isSpace z = false).
Proof.
  unfold trim. destruct (trimEnd_last (trimStart s)) as [->|Hlast]; [by left|]. right.
  split; [|done]. destruct Hlast as (p & z & Hz & _).
  destruct (trimEnd_prefix (trimStart s)) as [b Hb].
  destruct (trimEnd (trimStart s)) as [|x u] eqn:Hu; [by destruct p|].
  destruct (trimStart_head s) as [H0|(h & t & Hs & Hh)].
  - by rewrite H0 in Hb.
  - rewrite Hs in Hb. cbn in Hb. injection Hb as <- _. eauto.
Qed.

Lemma trimEnd_fixed p z : isSpace z = false → trimEnd (p ++ [z]) = p ++ [z].
Proof.
  intros Hz. unfold trimEnd. rewrite reverse_app. cbn [reverse app trimStart].
  change (reverse [z]) with [z]. cbn [app trimStart]. rewrite Hz.
  by rewrite reverse_cons, reverse_involutive.
Qed.

Lemma trim_fixed h t p z :
  isSpace h = false → isSpace z = false → h :: t = p ++ [z] → trim (h :: t) = h :: t.
Proof.
  intros Hh Hz He. unfold trim. cbn [trimStart]. rewrite Hh, He. by apply trimEnd_fixed.
Qed.

Lemma trim_idemp s : trim (trim s) = trim s.
Proof.
  destruct (trim_ends s) as [->|[(h & t & Hs & Hh) (p & z & Hp & Hz)]]; [done|].
  rewrite Hs. apply (trim_fixed h t p z); congruence.
Qed.

(** A line that begins with a unit that is no white space and ends with
    a plain text is trimmed. *)
Lemma trim_line h m q :
  isSpace h = false → plainText q → trim (h :: m ++ q) = h :: m ++ q.
Proof.
  intros Hh (Hne & Hq & _).
  destruct (trim_ends q) as [H0|[_ (p & z & Hp & Hz)]]; [congruence|].
  rewrite Hq in Hp. apply (trim_fixed h (m ++ q) (h :: m ++ p) z); [done..|].
  rewrite Hp. cbn. by rewrite <- app_assoc.
Qed.

Lemma plainText_head q : plainText q → ∃ h t, q = h :: t ∧ isSpace h = false.
Proof.
  intros (Hne & Hq & _).
  destruct (trim_ends q) as [H0|[(h & t & Hs & Hh) _]]; [congruence|].
  rewrite Hq in Hs. eauto.
Qed.

Lemma trimmedLines_trimmed l text : l ∈ trimmedLines text → l ≠ [] ∧ trim l = l.
Proof.
  unfold trimmedLines. intros H%list_elem_of_In%List.filter_In. destruct H as [H Ht].
  apply list_elem_of_In, list_elem_of_fmap in H as (x & -> & _).
  split; [by destruct (trim x)|apply trim_idemp].
Qed.

Lemma trimmedLines_join lines :
  (∀ l, l ∈ lines → l ≠ [] ∧ trim l = l ∧ LF ∉ l) →
  trimmedLines (join [LF] lines) = lines.
Proof.
  intros H. unfold trimmedLines. destruct lines as [|l0 lines]; [reflexivity|].
  rewrite split_join; [|done|intros l Hl; by apply H].
  induction (l0 :: lines) as [|l ls IH]; [done|].
  cbn [fmap list_fmap List.filter].
  destruct (H l) as (Hne & Ht & _); [left|]. rewrite Ht.
  destruct l; [done|]. cbn [truthy]. f_equal. apply IH.
  intros x Hx. apply H. by right.
Qed.

End TrimFacts.

Section MatchFacts.

Lemma span_app (p : N → bool) run rest :
  (∀ c, c ∈ run → p c = true) →
  (∀ h t, rest = h :: t → p h = false) →
  span p (run ++ rest) = (run, rest).
Proof.
  intros Hrun Hrest. induction run as [|c run IH]; cbn [app span].
  - destruct rest as [|h t]; [done|]. cbn [span]. by rewrite (Hrest h t eq_refl).
  - rewrite (Hrun c) by left. rewrite IH; [done|]. intros x Hx. apply Hrun. by right.
Qed.

Lemma span_spec (p : N → bool) s :
  s = fst (span p s) ++ snd (span p s) ∧
  (∀ c, c ∈ fst (span p s) → p c = true) ∧
  (∀ h t, snd (span p s) = h :: t → p h = false).
Proof.
  induction s as [|c s (He & Hr & Hs)]; cbn [span].
  - split; [done|]. split; [by intros ? ?%elem_of_nil|done].
  - destruct (p c) eqn:Hc.
    + destruct (span p s) as [run rest]. cbn [fst snd] in *. split; [by rewrite He at 1|].
      split; [|done]. intros x [->|Hx]%elem_of_cons; [done|by apply Hr].
    + cbn [fst snd]. split; [done|]. split; [by intros ? ?%elem_of_nil|].
      by intros h t [= <- _].
Qed.

Lemma restOfLine_plain s :
  (∀ c, c ∈ s → isLineTerminator c = false) → restOfLine s = s.
Proof.
  induction s as [|c s IH]; intros H; [done|]. cbn [restOfLine].
  rewrite (H c) by left. f_equal. apply IH. intros x Hx. apply H. by right.
Qed.

Lemma restOfLine_head h t : isLineTerminator h = false → ∃ g, restOfLine (h :: t) = h :: g.
Proof. intros Hh. cbn [restOfLine]. rewrite Hh. eauto. Qed.

Lemma space_of_terminator c : isLineTerminator c = true → isSpace c = true.
Proof.
  unfold isLineTerminator, isSpace. intros H.
  repeat (apply orb_true_iff in H as [H|H]); apply N.eqb_eq in H as ->; reflexivity.
Qed.

(** After a blank, a plain text is the group. *)
Lemma spacesThenSome_plain q : plainText q → spacesThenSome (js " " ++ q) = Some q.
Proof.
  intros Hq. destruct (plainText_head q Hq) as (h & t & -> & Hh).
  destruct Hq as (_ & _ & Hterm).
  unfold spacesThenSome. change (js " " ++ h :: t) with ([32] ++ h :: t).
  rewrite span_app.
  - rewrite restOfLine_plain by done. done.
  - by intros c ->%list_elem_of_singleton.
  - by intros ? ? [= <- _].
Qed.

(** On what follows the colon in a trimmed line, the group begins with
    a unit that is no white space. *)
Lemma spacesThenSome_trimmed p s g :
  trim (p ++ s) = p ++ s → spacesThenSome s = Some g →
  ∃ h t, g = h :: t ∧ isSpace h = false.
Proof.
  intros Ht. unfold spacesThenSome.
  destruct (span_spec isSpace s) as (He & Hws & Hr).
  destruct (span isSpace s) as [ws r]. cbn [fst snd] in *.
  destruct r as [|h t].
  - cbn [restOfLine]. rewrite app_nil_r in He. subst s.
    destruct ws as [|w ws _] using rev_ind; [done|].
    exfalso. destruct (trim_ends (p ++ ws ++ [w])) as [H0|[_ (p' & z & Hp & Hz)]].
    + rewrite Ht in H0. by destruct p, ws.
    + rewrite Ht, app_assoc in Hp. apply app_inj_tail in Hp as [_ <-].
      rewrite Hws in Hz; [done|]. apply elem_of_app. right. by left.
  - pose proof (Hr h t eq_refl) as Hh.
    assert (isLineTerminator h = false) as Hl.
    { destruct (isLineTerminator h) eqn:Hl; [|done]. apply space_of_terminator in Hl. congruence. }
    destruct (restOfLine_head h t Hl) as [g' ->]. intros [= <-]. eauto.
Qed.

Lemma labelled_line letter n q :
  digits n → plainText q →
  labelled letter (letter :: n ++ js ": " ++ q) = Some q.
Proof.
  intros [Hne Hn] Hq. unfold labelled. rewrite N.eqb_refl. cbn [orb].
  change (js ": " ++ q) with (58 :: js " " ++ q).
  rewrite span_app; [|done|by intros ? ? [= <- _]].
  rewrite bool_decide_eq_false_2 by done. cbn [isColon N.eqb orb Pos.eqb].
  by apply spacesThenSome_plain.
Qed.

Lemma labelled_other letter other s :
  other ≠ letter → other ≠ letter + 32 → labelled letter (other :: s) = None.
Proof.
  intros H1 H2. unfold labelled.
  destruct (N.eqb_spec other letter); [done|]. by destruct (N.eqb_spec other (letter + 32)).
Qed.

End MatchFacts.

Section QuizFacts.

Lemma alter_questionText (f : question → question) (i : nat) (qs : list question) :
  (∀ q, questionText (f q) = questionText q) →
  questionText <$> alter f i qs = questionText <$> qs.
Proof.
  intros Hf. revert i. induction qs as [|q qs IH]; intros [|i]; cbn; try done.
  - by rewrite Hf.
  - by rewrite IH.
Qed.

Lemma quizStep_questions ls : ∀ st,
  questionText <$> fst (fold_left quizStep ls st)
  = (questionText <$> fst st) ++ omap qMatch ls.
Proof.
  induction ls as [|l ls IH]; intros [qs cur]; cbn [fold_left omap list_omap].
  - by rewrite app_nil_r.
  - rewrite IH. unfold quizStep. destruct (qMatch l) as [q|].
    + cbn [fst]. rewrite fmap_app. cbn. by rewrite <- app_assoc.
    + destruct (aMatch l) as [a|], cur as [i|]; cbn [fst]; try done.
      by rewrite alter_questionText.
Qed.

Lemma questionsOf_questions text :
  questionText <$> questionsOf text = omap qMatch (trimmedLines text).
Proof. unfold questionsOf. by rewrite quizStep_questions. Qed.

Lemma imap_cardOf qs : ∀ k,
  cardNumber <$> imap (λ j, cardOf (k + j)) qs = seq (S k) (length qs) ∧
  cardQuestion <$> imap (λ j, cardOf (k + j)) qs = questionText <$> qs ∧
  Forall (λ c, cardAnswer c ≠ []) (imap (λ j, cardOf (k + j)) qs).
Proof.
  induction qs as [|q qs IH]; intros k; [done|]. cbn [imap length seq fmap list_fmap].
  destruct (IH (S k)) as (Hn & Hq & Ha).
  rewrite (imap_ext _ (λ j, cardOf (S k + j))) by (intros; cbn; f_equal; lia).
  rewrite Hn, Hq, Nat.add_0_r. repeat split; try done.
  constructor; [|done]. cbn. destruct (answerText q) as [[|]|]; done.
Qed.

(** The entries of a quiz in the format of the prompt are read back. *)
Lemma quizStep_entries entries : ∀ qs,
  (∀ e, e ∈ entries → digits e.1.1 ∧ plainText e.1.2 ∧ plainText e.2) →
  fold_left quizStep (entries ≫= quizEntryLines) (qs, None)
  = (qs ++ ((λ e, Question e.1.2 (Some e.2)) <$> entries), None).
Proof.
  induction entries as [|[[n q] a] entries IH]; intros qs H.
  - cbn. by rewrite app_nil_r.
  - destruct (H (n, q, a)) as (Hn & Hq & Ha); [left|]. cbn [fst snd] in *.
    change (((n, q, a) :: entries) ≫= quizEntryLines)
      with ((81 :: n ++ js ": " ++ q) :: (65 :: n ++ js ": " ++ a)
            :: (entries ≫= quizEntryLines)).
    cbn [fold_left].
    assert (quizStep (quizStep (qs, None) (81 :: n ++ js ": " ++ q)) (65 :: n ++ js ": " ++ a)
            = (qs ++ [Question q (Some a)], None)) as ->.
    { unfold quizStep, qMatch, aMatch.
      rewrite (labelled_line 81 n q Hn Hq).
      rewrite (labelled_other 81 65) by done.
      rewrite (labelled_line 65 n a Hn Ha).
      rewrite alter_app_r_alt by done. rewrite Nat.sub_diag. done. }
    rewrite IH by (intros e He; apply H; by right).
    cbn [fmap list_fmap fst snd]. by rewrite <- app_assoc.
Qed.

Lemma quizEntryLines_lines entries l :
  (∀ e, e ∈ entries → digits e.1.1 ∧ plainText e.1.2 ∧ plainText e.2) →
  l ∈ entries ≫= quizEntryLines → l ≠ [] ∧ trim l = l ∧ LF ∉ l.
Proof.
  intros H Hl. apply list_elem_of_bind in Hl as ([[n q] a] & Hl & He).
  destruct (H _ He) as ((_ & Hn) & Hq & Ha). cbn [fst snd] in *.
  assert (∀ letter x, letter ≠ LF → isSpace letter = false → plainText x →
            let l := letter :: n ++ js ": " ++ x in l ≠ [] ∧ trim l = l ∧ LF ∉ l) as Hline.
  { intros letter x H1 H2 Hx. cbv zeta. split; [done|]. split.
    - rewrite (app_assoc n). by apply trim_line.
    - intros [Hc|Hc]%elem_of_cons; [done|].
      apply elem_of_app in Hc as [Hc|Hc]; [by apply Hn in Hc|].
      apply elem_of_app in Hc as [Hc|Hc].
      + vm_compute in Hc. repeat (apply elem_of_cons in Hc as [Hc|Hc]; [done|]).
        by apply elem_of_nil in Hc.
      + destruct Hx as (_ & _ & Hx). by apply Hx in Hc. }
  unfold quizEntryLines in Hl. cbn [fst snd] in Hl.
  apply elem_of_cons in Hl as [->|Hl]; [by apply (Hline 81)|].
  apply list_elem_of_singleton in Hl as ->. by apply (Hline 65).
Qed.

End QuizFacts.

(** X12.  [renderQuiz] makes one card of every line that reads as a
    question ([Q], digits, a colon), in order, and numbers the cards
    from 1 by their position, whatever the numbers written in the text;
    an answer is never empty on a card: a question without an answer
    line shows a dash.  Without a question line the box shows the notice
    that the quiz could not be parsed.  A quiz in the format the prompt
    asks for, whose questions and answers are plain one-line texts, is
    read back entry by entry. *)
Theorem renderQuiz_reads_questions (quizText : jsstring) :
  (omap qMatch (trimmedLines quizText) = [] →
     quizCards quizText = CouldNotParse (js "Could not parse quiz format.")) ∧
  (∀ cards, quizCards quizText = Parsed cards →
     cardQuestion <$> cards = omap qMatch (trimmedLines quizText) ∧
     cardNumber <$> cards = seq 1 (length cards) ∧
     ∀ c, c ∈ cards → cardAnswer c ≠ []) ∧
  (∀ entries,
     quizText = quizTextOf entries → entries ≠ [] →
     (∀ e, e ∈ entries → digits e.1.1 ∧ plainText e.1.2 ∧ plainText e.2) →
     quizCards quizText = Parsed (imap (λ j e, Card (S j) e.1.2 e.2) entries)).
Proof.
  pose proof (questionsOf_questions quizText) as Hq.
  split; [|split].
  - intros H0. rewrite H0 in Hq. apply fmap_nil_inv in Hq. unfold quizCards. by rewrite Hq.
  - intros cards. unfold quizCards.
    destruct (questionsOf quizText) as [|q0 qs] eqn:Hqs; [done|]. intros [= <-].
    destruct (imap_cardOf (q0 :: qs) 0) as (Hn & Hc & Ha). cbn [Nat.add] in *.
    rewrite (imap_ext _ cardOf) in Hn, Hc, Ha by done.
    change (cardOf 0 q0 :: imap (cardOf ∘ S) qs) with (imap cardOf (q0 :: qs)).
    rewrite Hc, Hq, Hn, length_imap. repeat split; try done.
    intros c Hc'. rewrite List.Forall_forall in Ha. apply Ha. by apply list_elem_of_In.
  - intros entries -> Hne H. unfold quizCards, questionsOf, quizTextOf.
    rewrite trimmedLines_join by (intros l Hl; by eapply quizEntryLines_lines).
    rewrite quizStep_entries by done. cbn [fst app].
    destruct entries as [|e entries]; [done|]. cbn [fmap list_fmap].
    change (Question e.1.2 (Some e.2) :: ((λ e, Question e.1.2 (Some e.2)) <$> entries))
      with ((λ e, Question e.1.2 (Some e.2)) <$> (e :: entries)).
    rewrite imap_fmap. f_equal. apply imap_ext. intros j [[n q] a] Hj. unfold cardOf. cbn.
    destruct (H (n, q, a)) as (_ & _ & (Ha & _)); [by eapply list_elem_of_lookup_2|].
    cbn in Ha. by destruct a.
Qed.

(** Two entries numbered 7 and 7 come out as the cards 1 and 2. *)
Lemma renderQuiz_reads_questions_witness :
  quizCards (quizTextOf [(js "7", js "Who jumps?", js "The fox."); (js "7", js "Why?", js "For fun.")])
  = Parsed [Card 1 (js "Who jumps?") (js "The fox."); Card 2 (js "Why?") (js "For fun.")].
Proof.
  refine (proj2 (proj2 (renderQuiz_reads_questions _)) _ eq_refl _ _); [discriminate|].
  intros e He.
  assert (∀ s, s ≠ [] → trim s = s → forallb (λ c, negb (isLineTerminator c)) s = true →
               plainText s) as Hplain.
  { intros s H1 H2 H3. split; [done|]. split; [done|]. intros c Hc.
    rewrite forallb_forall in H3. apply negb_true_iff, H3. by apply list_elem_of_In. }
  assert (digits (js "7")) as Hd.
  { split; [done|]. by intros c ->%list_elem_of_singleton. }
  apply elem_of_cons in He as [->|He]; [|apply list_elem_of_singleton in He as ->];
    (split; [exact Hd|split; apply Hplain; (discriminate || reflexivity)]).
Defined.

Section DialogueFacts.

Lemma trim_nonempty h t : isSpace h = false → trim (h :: t) ≠ [].
Proof.
  intros Hh. unfold trim. cbn [trimStart]. rewrite Hh. unfold trimEnd.
  rewrite reverse_cons.
  destruct (trimStart_stops (reverse t) h [] Hh) as [a' ->].
  rewrite reverse_app. done.
Qed.

Lemma speakerMatch_spec l name g :
  l ≠ [] → trim l = l → speakerMatch l = Some (name, g) →
  (∀ c, c ∈ name → isColon c = false) ∧
  (∃ h t, name = h :: t ∧ isSpace h = false) ∧
  (∃ h t, g = h :: t ∧ isSpace h = false).
Proof.
  intros Hne Ht. unfold speakerMatch.
  destruct (span_spec (λ c, negb (isColon c)) l) as (He & Hrun & _).
  destruct (span (λ c, negb (isColon c)) l) as [run r]. cbn [fst snd] in *.
  case_bool_decide as Hrun0; [done|].
  destruct r as [|colon r1]; [done|].
  destruct (spacesThenSome r1) as [g'|] eqn:Hg; [|done]. intros [= <- <-].
  split; [intros c Hc; by apply negb_true_iff, Hrun|]. split.
  - destruct run as [|h t]; [done|].
    destruct (trim_ends l) as [H0|[(h' & t' & Hs & Hh) _]]; [congruence|].
    rewrite Ht, He in Hs. injection Hs as <- _. eauto.
  - apply (spacesThenSome_trimmed (run ++ [colon]) r1); [|done].
    rewrite <- app_assoc. cbn [app]. by rewrite <- He.
Qed.

Lemma speakerMatch_line s m :
  plainText s → (∀ c, c ∈ s → isColon c = false) → plainText m →
  speakerMatch (s ++ js ": " ++ m) = Some (s, m).
Proof.
  intros Hs Hc Hm. unfold speakerMatch.
  change (js ": " ++ m) with (58 :: js " " ++ m).
  rewrite span_app.
  - destruct Hs as (Hne & _). rewrite bool_decide_eq_false_2 by done.
    by rewrite spacesThenSome_plain.
  - intros c Hin. by rewrite Hc.
  - by intros ? ? [= <- _].
Qed.

Lemma dialogue_line s m :
  plainText s → plainText m →
  let l := s ++ js ": " ++ m in l ≠ [] ∧ trim l = l ∧ LF ∉ l.
Proof.
  intros Hs Hm. cbv zeta. destruct (plainText_head s Hs) as (h & t & -> & Hh).
  split; [done|]. split.
  - cbn [app]. rewrite app_assoc. by apply trim_line.
  - destruct Hs as (_ & _ & Hs), Hm as (_ & _ & Hm).
    intros [Hc|Hc]%elem_of_app; [by apply Hs in Hc|].
    apply elem_of_app in Hc as [Hc|Hc]; [|by apply Hm in Hc].
    vm_compute in Hc. repeat (apply elem_of_cons in Hc as [Hc|Hc]; [done|]).
    by apply elem_of_nil in Hc.
Qed.

End DialogueFacts.

(** X13.  Every bubble that [renderDialogue] makes has a speaker and a
    message that are trimmed and not empty, and the speaker holds no
    colon, half-width or full-width: a message may hold colons, a
    speaker never does.  There is always at least one bubble when the
    text is parsed; when no line holds a colon, the box shows the
    notice that the dialogue could not be parsed.  A dialogue written
    one bubble a line, as speaker, colon, blank and message, with plain
    one-line texts and speakers without a colon, is read back bubble by
    bubble. *)
Theorem renderDialogue_reads_lines (dialogueText : jsstring) :
  (∀ bubbles, dialogueBubbles dialogueText = Parsed bubbles →
     bubbles ≠ [] ∧
     ∀ b, b ∈ bubbles →
       speakerText b ≠ [] ∧ messageText b ≠ [] ∧
       trim (speakerText b) = speakerText b ∧ trim (messageText b) = messageText b ∧
       ∀ c, c ∈ speakerText b → isColon c = false) ∧
  ((∀ l c, l ∈ trimmedLines dialogueText → c ∈ l → isColon c = false) →
     dialogueBubbles dialogueText = CouldNotParse (js "Could not parse dialogue format.")) ∧
  (∀ bubbles,
     dialogueText = dialogueTextOf bubbles → bubbles ≠ [] →
     (∀ b, b ∈ bubbles →
        plainText (speakerText b) ∧ plainText (messageText b) ∧
        ∀ c, c ∈ speakerText b → isColon c = false) →
     dialogueBubbles dialogueText = Parsed bubbles).
Proof.
  split; [|split].
  - intros bubbles. unfold dialogueBubbles.
    destruct (omap _ (trimmedLines dialogueText)) as [|b0 bs] eqn:Ho; [done|].
    intros [= <-]. split; [done|]. intros b Hb. rewrite <- Ho in Hb.
    apply list_elem_of_omap in Hb as (l & Hl & Hb).
    destruct (trimmedLines_trimmed _ _ Hl) as [Hne Ht].
    destruct (speakerMatch l) as [[name g]|] eqn:Hm; [|done].
    injection Hb as <-. cbn [speakerText messageText fst snd].
    destruct (speakerMatch_spec l name g Hne Ht Hm)
      as (Hcolon & (h & t & -> & Hh) & (h' & t' & -> & Hh')).
    split; [by apply trim_nonempty|]. split; [by apply trim_nonempty|].
    split; [apply trim_idemp|]. split; [apply trim_idemp|].
    intros c Hc. by apply Hcolon, trim_elem.
  - intros H. unfold dialogueBubbles.
    assert (omap (λ l, (λ m, DialogueLine (trim m.1) (trim m.2)) <$> speakerMatch l)
                 (trimmedLines dialogueText) = []) as ->; [|done].
    induction (trimmedLines dialogueText) as [|l ls IH]; [done|].
    cbn [omap list_omap].
    assert (speakerMatch l = None) as ->.
    { unfold speakerMatch. rewrite <- (app_nil_r l) at 1. rewrite span_app.
      - by case_bool_decide.
      - intros c Hc. apply negb_true_iff. apply (H l); [left|done].
      - done. }
    cbn. apply IH. intros l' c Hl'. apply H. by right.
  - intros bubbles -> Hne H. unfold dialogueBubbles, dialogueTextOf.
    rewrite trimmedLines_join.
    + assert (omap (λ l, (λ m, DialogueLine (trim m.1) (trim m.2)) <$> speakerMatch l)
                   ((λ b, speakerText b ++ js ": " ++ messageText b) <$> bubbles) = bubbles) as ->;
        [|by destruct bubbles].
      clear Hne. induction bubbles as [|[s m] bs IH]; [done|].
      destruct (H (DialogueLine s m)) as (Hs & Hm & Hc); [left|]. cbn [speakerText messageText] in *.
      cbn [fmap list_fmap omap list_omap speakerText messageText].
      rewrite speakerMatch_line by done. cbn [fmap option_fmap option_map fst snd].
      destruct Hs as (_ & -> & _), Hm as (_ & -> & _). f_equal.
      apply IH. intros b Hb. apply H. by right.
    + intros l (b & -> & Hb)%list_elem_of_fmap.
      destruct (H b Hb) as (Hs & Hm & _). by apply dialogue_line.
Qed.

(** Two bubbles; the message of the first holds a colon. *)
Lemma renderDialogue_reads_lines_witness :
  dialogueBubbles (dialogueTextOf [DialogueLine (js "Fox") (js "Meet me at 10:30."); DialogueLine (js "Dog") (js "Why?")])
  = Parsed [DialogueLine (js "Fox") (js "Meet me at 10:30."); DialogueLine (js "Dog") (js "Why?")].
Proof.
  refine (proj2 (proj2 (renderDialogue_reads_lines _)) _ eq_refl _ _); [discriminate|].
  intros b Hb.
  assert (∀ s, s ≠ [] → trim s = s → forallb (λ c, negb (isLineTerminator c)) s = true →
               plainText s) as Hplain.
  { intros s H1 H2 H3. split; [done|]. split; [done|]. intros c Hc.
    rewrite forallb_forall in H3. apply negb_true_iff, H3. by apply list_elem_of_In. }
  assert (∀ s c, forallb (λ c, negb (isColon c)) s = true → c ∈ s → isColon c = false)
    as Hcolon.
  { intros s c H3 Hc. rewrite forallb_forall in H3. apply negb_true_iff, H3.
    by apply list_elem_of_In. }
  apply elem_of_cons in Hb as [->|Hb]; [|apply list_elem_of_singleton in Hb as ->];
    cbn [speakerText messageText];
    (split; [apply Hplain; (discriminate || reflexivity)|
     split; [apply Hplain; (discriminate || reflexivity)|]]);
    intros c; apply Hcolon; reflexivity.
Defined.

(** ** The content script *)

Section IncludesFacts.

Lemma includes_spec s q : includes s q = true ↔ ∃ a b, s = a ++ q ++ b.
Proof.
  split.
  - induction s as [|c s IH]; cbn [includes]; intros H.
    + rewrite orb_false_r in H. apply startsWith_prefix in H as [r ->]. by exists [], r.
    + apply orb_true_iff in H as [H|H].
      * apply startsWith_prefix in H as [r ->]. by exists [], r.
      * destruct (IH H) as (a & b & ->). by exists (c :: a), b.
  - intros (a & b & ->). induction a as [|c a IH].
    + cbn [app]. destruct (q ++ b) eqn:He; cbn [includes].
      * destruct q; [done|]. done.
      * rewrite <- He. by rewrite startsWith_app.
    + cbn [app includes]. by rewrite IH, orb_true_r.
Qed.

Lemma includes_within a m b q : includes (a ++ m ++ b) q = false → includes m q = false.
Proof.
  intros H. destruct (includes m q) eqn:Hm; [|done].
  apply includes_spec in Hm as (a' & b' & ->).
  rewrite <- H. symmetry. apply includes_spec. exists (a ++ a'), (b' ++ b).
  by rewrite <- !app_assoc.
Qed.

Lemma trim_within s : ∃ a b, s = a ++ trim s ++ b.
Proof.
  unfold trim. destruct (trimStart_suffix s) as [a Ha].
  destruct (trimEnd_prefix (trimStart s)) as [b Hb].
  exists a, b. by rewrite <- Hb.
Qed.

End IncludesFacts.

Section RunCases.
Variable p : N → bool.

(** Every string is empty, begins with a unit outside the class, or
    begins with a run of the class that ends. *)
Lemma run_cases s :
  s = [] ∨
  (∃ c t, s = c :: t ∧ p c = false) ∨
  (∃ run rest, s = run ++ rest ∧ run ≠ [] ∧ (∀ c, c ∈ run → p c = true) ∧
               (∀ h t, rest = h :: t → p h = false) ∧ (length rest < length s)%nat).
Proof.
  destruct s as [|c t]; [by left|]. right.
  destruct (p c) eqn:Hc; [right|left; eauto].
  destruct (span_spec p (c :: t)) as (He & Hrun & Hrest).
  exists (fst (span p (c :: t))), (snd (span p (c :: t))).
  split; [done|]. cbn [span] in *. rewrite Hc in *.
  destruct (span p t) as [run rest]. cbn [fst snd] in *.
  split; [done|]. split; [done|]. split; [done|].
  rewrite He. cbn. rewrite length_app. lia.
Qed.

End RunCases.

Section RunFacts.
Variables (p : N → bool) (atLeast : nat) (replacement : jsstring).
Hypothesis positive : (0 < atLeast)%nat.

Lemma replaceRunsFrom_skip s : ∀ k,
  (k ≤ length s)%nat →
  replaceRunsFrom p atLeast replacement k s = replaceRuns p atLeast replacement (drop k s).
Proof.
  induction s as [|c s IH]; intros k Hk.
  - by destruct k.
  - destruct k as [|k]; [done|]. cbn [replaceRunsFrom drop]. apply IH. cbn in Hk. lia.
Qed.

(** A unit outside the class is kept. *)
Lemma replaceRuns_other c s :
  p c = false →
  replaceRuns p atLeast replacement (c :: s) = c :: replaceRuns p atLeast replacement s.
Proof.
  intros Hc. unfold replaceRuns. cbn [replaceRunsFrom span]. rewrite Hc. cbn [fst length].
  destruct atLeast; [lia|]. done.
Qed.

(** A run that ends is replaced when it is long enough, and kept
    otherwise. *)
Lemma replaceRuns_run run rest :
  run ≠ [] → (∀ c, c ∈ run → p c = true) → (∀ h t, rest = h :: t → p h = false) →
  replaceRuns p atLeast replacement (run ++ rest)
  = (if (atLeast <=? length run)%nat then replacement else run)
    ++ replaceRuns p atLeast replacement rest.
Proof.
  intros Hne Hrun Hrest. induction run as [|c run IH]; [done|].
  unfold replaceRuns at 1. cbn [app replaceRunsFrom].
  change (c :: run ++ rest) with ((c :: run) ++ rest).
  rewrite span_app by done. cbn [fst].
  destruct (atLeast <=? length (c :: run))%nat eqn:Hlen.
  - rewrite replaceRunsFrom_skip by (cbn; rewrite length_app; lia).
    cbn [length]. rewrite Nat.sub_succ, Nat.sub_0_r, drop_app_length. done.
  - cbn [app]. f_equal. destruct run as [|c' run].
    + done.
    + fold (replaceRuns p atLeast replacement ((c' :: run) ++ rest)).
      rewrite IH; [|done|intros x Hx; apply Hrun; by right].
      apply Nat.leb_gt in Hlen. cbn [length] in Hlen.
      destruct (atLeast <=? length (c' :: run))%nat eqn:Hlen'; [|done].
      apply Nat.leb_le in Hlen'. cbn [length] in Hlen'. lia.
Qed.

(** What the result begins with when the string does not begin with a
    unit of the class. *)
Lemma replaceRuns_head rest :
  (∀ h t, rest = h :: t → p h = false) →
  ∀ h t, replaceRuns p atLeast replacement rest = h :: t → p h = false.
Proof.
  intros Hrest h t. destruct rest as [|c r]; [done|].
  rewrite replaceRuns_other by by eapply Hrest. intros [= <- _]. by eapply Hrest.
Qed.

End RunFacts.

Section NormalFacts.

Lemma length_induction (P : jsstring → Prop) :
  (∀ s, (∀ t, (length t < length s)%nat → P t) → P s) → ∀ s, P s.
Proof.
  intros H s. remember (length s) as n eqn:Hn. revert s Hn.
  induction n as [n IH] using lt_wf_ind. intros s ->. apply H.
  intros t Ht. by eapply IH.
Qed.

Lemma collapseBlanks_elem s c :
  c ∈ replaceRuns isBlank 1 [32] s → c = 32 ∨ (c ∈ s ∧ isBlank c = false).
Proof.
  revert c. induction s as [s IH] using length_induction. intros c.
  destruct (run_cases isBlank s) as [->|[(x & t & -> & Hx)|(run & rest & -> & Hne & Hrun & Hrest & Hlen)]].
  - by intros ?%elem_of_nil.
  - rewrite replaceRuns_other by (lia || done).
    intros [->|Hc]%elem_of_cons; [right; split; [left|done]|].
    destruct (IH t ltac:(cbn; lia) c Hc) as [->|[Hin Hb]]; [by left|].
    right. split; [by right|done].
  - rewrite replaceRuns_run by (lia || done).
    destruct run as [|r0 run]; [done|]. cbn [length Nat.leb app].
    intros [->|Hc]%elem_of_cons; [by left|].
    destruct (IH rest Hlen c Hc) as [->|[Hin Hb]]; [by left|].
    right. split; [|done]. rewrite elem_of_cons, elem_of_app. auto.
Qed.

Lemma collapseBlanks_pairs s : includes (replaceRuns isBlank 1 [32] s) [32; 32] = false.
Proof.
  induction s as [s IH] using length_induction.
  destruct (run_cases isBlank s) as [->|[(x & t & -> & Hx)|(run & rest & -> & Hne & Hrun & Hrest & Hlen)]].
  - done.
  - rewrite replaceRuns_other by (lia || done).
    cbn [includes startsWith]. rewrite IH by (cbn; lia).
    destruct (N.eqb_spec 32 x) as [<-|]; done.
  - rewrite replaceRuns_run by (lia || done).
    destruct run as [|r0 run]; [done|]. cbn [length Nat.leb app].
    cbn [includes startsWith]. rewrite IH by done. rewrite orb_false_r. cbn [N.eqb Pos.eqb andb].
    pose proof (replaceRuns_head isBlank 1 [32] ltac:(lia) rest Hrest) as Hhead.
    destruct (replaceRuns isBlank 1 [32] rest) as [|h t]; [done|].
    cbn [startsWith]. specialize (Hhead h t eq_refl).
    destruct (N.eqb_spec 32 h) as [<-|]; done.
Qed.

Lemma collapseBlanks_startsWith q : ∀ s,
  (∀ c, c ∈ q → isBlank c = false) →
  startsWith (replaceRuns isBlank 1 [32] s) q = true → startsWith s q = true.
Proof.
  induction q as [|x q IH]; intros s Hq; [by destruct s|].
  assert (isBlank x = false) as Hx by (apply Hq; left).
  destruct (run_cases isBlank s) as [->|[(c & t & -> & Hc)|(run & rest & -> & Hne & Hrun & Hrest & _)]].
  - done.
  - rewrite replaceRuns_other by (lia || done). cbn [startsWith].
    intros [-> H]%andb_true_iff. apply andb_true_iff. split; [done|].
    apply IH; [|done]. intros y Hy. apply Hq. by right.
  - rewrite replaceRuns_run by (lia || done).
    destruct run as [|r0 run]; [done|]. cbn [length Nat.leb app startsWith].
    intros [Heq _]%andb_true_iff. apply N.eqb_eq in Heq as ->. done.
Qed.

Lemma collapseBlanks_triples s :
  includes s [LF; LF; LF] = false →
  includes (replaceRuns isBlank 1 [32] s) [LF; LF; LF] = false.
Proof.
  induction s as [s IH] using length_induction. intros Hs.
  destruct (run_cases isBlank s) as [->|[(c & t & -> & Hc)|(run & rest & -> & Hne & Hrun & Hrest & Hlen)]].
  - done.
  - rewrite replaceRuns_other by (lia || done).
    cbn [includes] in *. apply orb_false_iff in Hs as [Hhead Htail].
    rewrite IH by (done || cbn; lia). rewrite orb_false_r.
    destruct (startsWith (c :: replaceRuns isBlank 1 [32] t) [LF; LF; LF]) eqn:Hst; [|done].
    rewrite <- Hhead. cbn [startsWith] in *. apply andb_true_iff in Hst as [-> Hst].
    symmetry. apply (collapseBlanks_startsWith [LF; LF]); [|done].
    intros y [->|Hy]%elem_of_cons; [done|]. by apply list_elem_of_singleton in Hy as ->.
  - rewrite replaceRuns_run by (lia || done).
    destruct run as [|r0 run]; [done|]. cbn [length Nat.leb].
    change ([32] ++ replaceRuns isBlank 1 [32] rest) with (32 :: replaceRuns isBlank 1 [32] rest).
    cbn [includes startsWith N.eqb Pos.eqb andb orb]. apply IH; [done|].
    by apply (includes_within (r0 :: run) rest []); rewrite app_nil_r.
Qed.

Lemma startsWith_nil s : startsWith s [] = true.
Proof. by destruct s. Qed.

Lemma lineFeeds_prepend k :
  startsWith k [LF] = false → includes k [LF; LF; LF] = false →
  includes (LF :: k) [LF; LF; LF] = false ∧ includes (LF :: LF :: k) [LF; LF; LF] = false.
Proof.
  intros Hhead Hk.
  assert (startsWith k [LF; LF] = false) as H2.
  { destruct k as [|h t]; [done|]. cbn [startsWith] in *.
    rewrite startsWith_nil, andb_true_r in Hhead. by rewrite Hhead. }
  cbn [includes]. rewrite Hk.
  change (startsWith (LF :: LF :: k) [LF; LF; LF]) with ((LF =? LF) && ((LF =? LF) && startsWith k [LF])).
  change (startsWith (LF :: k) [LF; LF; LF]) with ((LF =? LF) && startsWith k [LF; LF]).
  rewrite Hhead, H2. done.
Qed.

Lemma collapseNewlines_triples s : includes (replaceRuns isLF 3 [LF; LF] s) [LF; LF; LF] = false.
Proof.
  induction s as [s IH] using length_induction.
  destruct (run_cases isLF s) as [->|[(c & t & -> & Hc)|(run & rest & -> & Hne & Hrun & Hrest & Hlen)]].
  - done.
  - rewrite replaceRuns_other by (lia || done).
    cbn [includes startsWith]. rewrite IH by (cbn; lia).
    unfold isLF in Hc. rewrite N.eqb_sym in Hc. by rewrite Hc.
  - rewrite replaceRuns_run by (lia || done).
    pose proof (replaceRuns_head isLF 3 [LF; LF] ltac:(lia) rest Hrest) as Hhead.
    assert (startsWith (replaceRuns isLF 3 [LF; LF] rest) [LF] = false) as Hk.
    { destruct (replaceRuns isLF 3 [LF; LF] rest) as [|h t]; [done|].
      specialize (Hhead h t eq_refl). unfold isLF in Hhead. cbn [startsWith].
      rewrite N.eqb_sym in Hhead. by rewrite Hhead. }
    destruct (lineFeeds_prepend _ Hk (IH rest Hlen)) as [H1 H2].
    assert (∀ x, x ∈ run → x = LF) as Hall.
    { intros x Hx. apply Hrun in Hx. by apply N.eqb_eq in Hx. }
    destruct (3 <=? length run)%nat eqn:Hlen3; [exact H2|].
    apply Nat.leb_gt in Hlen3.
    destruct run as [|a [|b [|c run]]]; [done| | |cbn in Hlen3; lia].
    + rewrite (Hall a) by left. exact H1.
    + rewrite (Hall a) by left. rewrite (Hall b) by (right; left). exact H2.
Qed.

Lemma normalizeWhitespace_normalForm text : normalForm (normalizeWhitespace text).
Proof.
  unfold normalForm, normalizeWhitespace.
  set (blanks := replaceRuns isBlank 1 [32] (replaceRuns isLF 3 [LF; LF] text)).
  destruct (trim_within blanks) as (a & b & He).
  split; [apply trim_idemp|]. split; [|split].
  - intros H%trim_elem. by destruct (collapseBlanks_elem _ _ H) as [?|[_ ?]].
  - apply (includes_within a _ b). rewrite <- He. apply collapseBlanks_pairs.
  - apply (includes_within a _ b). rewrite <- He.
    apply collapseBlanks_triples, collapseNewlines_triples.
Qed.

End NormalFacts.

Lemma extractPageText_truncated innerText pageTitle address language :
  truncated (extractPageText innerText pageTitle address language) = true →
  length (text (extractPageText innerText pageTitle address language))
  = (MAX_CHARS + length TRUNCATION_SUFFIX)%nat.
Proof.
  unfold extractPageText. cbv zeta. cbn [truncated text].
  destruct (Nat.ltb_spec MAX_CHARS (length (normalizeWhitespace innerText))); [|done].
  intros _. unfold substring0. rewrite length_app, length_take. lia.
Qed.

(** X14.  The text that [extractPageText] returns.  When the
    normalised text has at most 15000 code units it is returned as it
    is, and it is in normal form: trimmed, without a tab, without two
    blanks in a row and without three line feeds in a row.  When it is
    longer, its first 15000 code units are returned followed by the
    truncation notice, and the page is marked as truncated.  In both
    cases [charCount] is the length of the text returned, which is
    never more than 15000 plus the length of the notice. *)
Theorem extractPageText_normalises (innerText pageTitle address language : jsstring) :
  let page := extractPageText innerText pageTitle address language in
  let normalized := normalizeWhitespace innerText in
  normalForm normalized ∧
  charCount page = length (text page) ∧
  (length (text page) ≤ MAX_CHARS + length TRUNCATION_SUFFIX)%nat ∧
  truncated page = bool_decide (MAX_CHARS < length normalized)%nat ∧
  (truncated page = false → text page = normalized) ∧
  (truncated page = true →
     text page = take MAX_CHARS normalized ++ TRUNCATION_SUFFIX ∧
     length (text page) = (MAX_CHARS + length TRUNCATION_SUFFIX)%nat) ∧
  title page = pageTitle ∧ url page = address ∧ lang page = language.
Proof.
  cbv zeta. split; [apply normalizeWhitespace_normalForm|].
  unfold extractPageText. cbv zeta. cbn [charCount text truncated title url lang].
  split; [done|].
  destruct (Nat.ltb_spec MAX_CHARS (length (normalizeWhitespace innerText))) as [Hlt|Hge].
  - rewrite bool_decide_eq_true_2 by done. unfold substring0.
    rewrite length_app, length_take, Nat.min_l by lia. repeat split; try done.
  - rewrite bool_decide_eq_false_2 by lia. repeat split; try done. lia.
Qed.

(** ** A page without enough text *)

(** X15.  The content script and the panel together, for a tab whose
    page data have not been read yet: when the text that
    [extractPageText] returns has fewer than 50 code units, the content
    script answers [notEnoughText], the promise of [extractText] is
    rejected with that message and [ensurePageData] returns null;
    otherwise it returns the page data of [extractPageText] and shows
    them in the page info.  A truncated page always has enough text. *)
Theorem short_page_gives_no_page_data (E : env) (w : world)
    (innerText pageTitle address language : jsstring) :
  let page := extractPageText innerText pageTitle address language in
  extractedPageData w = None →
  extractTextResponse E (extractions w) = settled (Some (onExtractText (Ok page))) →
  ((length (text page) < MIN_CHARS)%nat →
     extractTextResponse E (extractions w)
     = Thrown (Err (js "Error") (Some (js "notEnoughText"))) ∧
     outcome (ensurePageData E) w = Ok None ∧
     extractedPageData (after (ensurePageData E) w) = None ∧
     truncated page = false) ∧
  ((MIN_CHARS ≤ length (text page))%nat →
     outcome (ensurePageData E) w = Ok (Some page) ∧
     extractedPageData (after (ensurePageData E) w) = Some page ∧
     pageInfo (after (ensurePageData E) w) = Some page).
Proof.
  cbv zeta. intros Hd Hr.
  set (page := extractPageText innerText pageTitle address language) in *.
  destruct (ensurePageData_asks E w Hd) as (Ho & He & _ & _ & Hp & _).
  rewrite Ho, He. unfold onExtractText in Hr. split.
  - intros Hlt. apply Nat.ltb_lt in Hlt as Hlt'. rewrite Hlt' in Hr.
    change (settled _) with (Thrown (A:=option pageData) (Err (js "Error") (Some (js "notEnoughText")))) in Hr.
    rewrite Hr. repeat split; try done.
    destruct (truncated page) eqn:Htr; [|done].
    apply extractPageText_truncated in Htr. fold page in Htr.
    unfold MIN_CHARS, MAX_CHARS in *. lia.
  - intros Hge. apply Nat.ltb_ge in Hge as Hge'. rewrite Hge' in Hr.
    cbn [settled] in Hr. rewrite Hr in *. unfold usablePage in *.
    assert (truthy (text page) = true) as Ht.
    { destruct (text page); [|done]. unfold MIN_CHARS in Hge. cbn in Hge. lia. }
    rewrite Ht in *. split; [done|]. split; [done|]. by apply Hp.
Qed.

(** A page of two words is not enough text. *)
Lemma short_page_gives_no_page_data_witness :
  outcome (ensurePageData Cases.twoWords) Scenario.loaded = Ok None.
Proof.
  refine (proj1 (proj2 (proj1 (short_page_gives_no_page_data Cases.twoWords Scenario.loaded
            (js "  Too   short. ") (js "Short") (js "https://example.org/short") (js "en")
            _ _) _)));
    [reflexivity|reflexivity|].
  vm_compute. lia.
Defined.


Ltac no_page :=
  match goal with
  | Hu : usablePage (extractTextResponse ?E ?n) = None |- _ =>
      unfold usablePage in Hu;
      destruct (extractTextResponse E n) as [[d|]|e]; run;
      [destruct (truthy (text d)); [discriminate Hu|]; run| |]
  end;
  rewrite ?fn_lookup_insert, ?drop_app_length; repeat split; try done.

(** X16.  When no page data can be had (none are held, and the content
    script answers with a rejection, with nothing, or with a page whose
    text is empty), a click on a generate button that is not already
    generating ends with the notice that there is not enough text in the
    box of the button.  The content script has been asked once, no
    session has been created, and the tab cache is as it was.  The same
    holds for a question in the chat, whose answer bubble then holds the
    notice. *)
Theorem no_page_data_shows_notice (E : env) (w : world) :
  extractedPageData w = None →
  usablePage (extractTextResponse E (extractions w)) = None →
  (generating w TLDR = false →
     shown (boxes (after (handleGenerateTldr E) w) tldrContent) = notEnoughNotice E ∧
     newEvents (handleGenerateTldr E) w = [Extracted] ∧
     tabCache (after (handleGenerateTldr E) w) = tabCache w) ∧
  (generating w KEYPOINTS = false →
     shown (boxes (after (handleGenerateKeyPoints E) w) keyPointsContent) = notEnoughNotice E ∧
     newEvents (handleGenerateKeyPoints E) w = [Extracted] ∧
     tabCache (after (handleGenerateKeyPoints E) w) = tabCache w) ∧
  (hasLanguageModel E = true → generating w QUIZ = false →
     shown (boxes (after (handleGenerateQuiz E) w) quizContent) = notEnoughNotice E ∧
     newEvents (handleGenerateQuiz E) w = [Extracted] ∧
     tabCache (after (handleGenerateQuiz E) w) = tabCache w) ∧
  (hasLanguageModel E = true → generating w DIALOGUE = false →
     shown (boxes (after (handleGenerateDialogue E) w) dialogueContent) = notEnoughNotice E ∧
     newEvents (handleGenerateDialogue E) w = [Extracted] ∧
     tabCache (after (handleGenerateDialogue E) w) = tabCache w) ∧
  (hasLanguageModel E = true → generating w CHAT = false →
   trim (customPromptInput w) ≠ [] →
     (∃ earlier,
        chatHistory (after (handleCustomPrompt E) w)
        = earlier ++ [UserBubble (trim (customPromptInput w));
                      AssistantBubble (Some (nodes w)) (Elem (notEnoughNotice E) None)] ∧
        length earlier = length (chatHistory w)) ∧
     customPromptInput (after (handleCustomPrompt E) w) = [] ∧
     newEvents (handleCustomPrompt E) w = [Extracted] ∧
     tabCache (after (handleCustomPrompt E) w) = tabCache w).
Proof.
  intros Hd Hu. unfold newEvents, notEnoughNotice. destruct w. cbn in Hd, Hu. subst.
  split; [|split; [|split; [|split]]].
  - intros Hg. cbn in Hg. run. rewrite Hg. run. no_page.
  - intros Hg. cbn in Hg. run. rewrite Hg. run. no_page.
  - intros Hm Hg. cbn in Hg. unfold handleGenerateQuiz. rewrite Hm. cbn [negb]. run.
    rewrite Hg. run. no_page.
  - intros Hm Hg. cbn in Hg. unfold handleGenerateDialogue. rewrite Hm. cbn [negb]. run.
    rewrite Hg. run. no_page.
  - intros Hm Hg Ht. cbn [generating customPromptInput nodes chatHistory] in *.
    unfold handleCustomPrompt, guardCustomPrompt, customPromptBody. rewrite Hm. cbn [negb].
    run. rewrite Hg.
    destruct (trim customPromptInput0) as [|c q] eqn:Hq; [done|]. cbn [truthy negb]. run.
    unfold usablePage in Hu.
    destruct (extractTextResponse E extractions0) as [[d|]|e]; run;
      [destruct (truthy (text d)); [discriminate Hu|]; run| |].
    all: rewrite ?drop_app_length, <- ?app_assoc; cbn [app].
    all: rewrite <- !list_fmap_compose, !fmap_app.
    all: cbn [fmap list_fmap compose].
    all: repeat (cbn [onBubble]; rewrite bool_decide_eq_true_2 by done).
    all: repeat split; try done.
    all: eexists; (split; [reflexivity|]); by rewrite length_fmap.
Qed.

(** The content script cannot be reached: the TL;DR box shows the
    notice. *)
Lemma no_page_data_shows_notice_witness :
  shown (boxes (after (handleGenerateTldr Cases.unreadable) Scenario.loaded) tldrContent)
  = notEnoughNotice Cases.unreadable.
Proof.
  refine (proj1 (proj1 (no_page_data_shows_notice Cases.unreadable Scenario.loaded _ _) _));
    reflexivity.
Defined.

(** ** Writing the tab cache and reading it back *)

Section CacheRoundTrip.
Variable E : env.

Lemma restoreFromCache_shows tab entry w :
  tabCache w !! tab = Some entry →
  outcome (restoreFromCache tab) w = Ok true ∧
  extractedPageData (after (restoreFromCache tab) w) = cPageData entry ∧
  shown (boxes (after (restoreFromCache tab) w) tldrContent)
  = match orNull (cTldr entry) with Some a => MarkdownOf a | None => Cleared end ∧
  shown (boxes (after (restoreFromCache tab) w) keyPointsContent)
  = match orNull (cKeyPoints entry) with Some a => KeyPointsOf a | None => Cleared end ∧
  shown (boxes (after (restoreFromCache tab) w) quizContent)
  = match cQuizHtml entry with
    | Some html => if hasChildNodes html then html else Cleared
    | None => Cleared
    end ∧
  shown (boxes (after (restoreFromCache tab) w) dialogueContent)
  = match cDialogueHtml entry with
    | Some html => if hasChildNodes html then html else Cleared
    | None => Cleared
    end ∧
  chatHistory (after (restoreFromCache tab) w) = default [] (cChatHtml entry) ∧
  tabCache (after (restoreFromCache tab) w) = tabCache w ∧
  log (after (restoreFromCache tab) w) = log w.
Proof.
  intros Hc. destruct w. cbn in Hc. run. rewrite Hc. run.
  destruct entry as [pd st tl kp qh dh ch dl]. cbn.
  destruct pd; run; destruct (orNull tl); run; destruct (orNull kp); run;
    destruct qh as [q|]; try destruct (hasChildNodes q); run;
    destruct dh as [d|]; try destruct (hasChildNodes d); run;
    destruct ch as [[|b bs]|]; run; rewrite ?fn_lookup_insert; done.
Qed.

End CacheRoundTrip.

(** X17.  What [saveCurrentTabQuizChat] stores for a tab is what
    [restoreFromCache] shows for it.  When the quiz box, the dialogue
    box and the chat are all empty, nothing is stored and the cache is
    as it was.  Otherwise the tab has an entry afterwards, and restoring
    it in any state of the panel that holds that entry shows the quiz and
    the dialogue as they were (an empty box comes back empty) and the
    chat with the same bubbles in the same order; nothing is asked of
    the content script or of a model. *)
Theorem quiz_dialogue_chat_round_trip (tab : Z) (w later : world) :
  tab ≠ 0%Z →
  tabCache later !! tab = tabCache (after (saveCurrentTabQuizChat (Some tab)) w) !! tab →
  (hasChildNodes (shown (boxes w quizContent)) = false →
   hasChildNodes (shown (boxes w dialogueContent)) = false →
   chatHistory w = [] →
     after (saveCurrentTabQuizChat (Some tab)) w = w) ∧
  (hasChildNodes (shown (boxes w quizContent)) = true ∨
   hasChildNodes (shown (boxes w dialogueContent)) = true ∨
   chatHistory w ≠ [] →
     outcome (restoreFromCache tab) later = Ok true ∧
     shown (boxes (after (restoreFromCache tab) later) quizContent)
     = (if hasChildNodes (shown (boxes w quizContent))
        then shown (boxes w quizContent) else Cleared) ∧
     shown (boxes (after (restoreFromCache tab) later) dialogueContent)
     = (if hasChildNodes (shown (boxes w dialogueContent))
        then shown (boxes w dialogueContent) else Cleared) ∧
     chatHistory (after (restoreFromCache tab) later) = serialized <$> chatHistory w ∧
     log (after (restoreFromCache tab) later) = log later).
Proof.
  intros Htab Hlater. unfold saveCurrentTabQuizChat, liveTab in *.
  destruct (Z.eqb_spec tab 0) as [|_]; [done|].
  split.
  - intros Hq Hd Hc. destruct w. cbn in Hc. subst. run. cbn in Hq, Hd.
    by rewrite Hq, Hd.
  - intros Hany.
    assert (∃ entry,
      tabCache later !! tab = Some entry ∧
      cQuizHtml entry = (if hasChildNodes (shown (boxes w quizContent))
                         then Some (shown (boxes w quizContent)) else None) ∧
      cDialogueHtml entry = (if hasChildNodes (shown (boxes w dialogueContent))
                             then Some (shown (boxes w dialogueContent)) else None) ∧
      cChatHtml entry = (if negb (bool_decide (chatHistory w = []))
                         then Some (serialized <$> chatHistory w) else None))
      as (entry & Hentry & Hq & Hd & Hc).
    { rewrite Hlater. clear Hlater. destruct w. run. cbn in Hany.
      destruct (negb (hasChildNodes (shown (boxes0 quizContent)))
                && negb (hasChildNodes (shown (boxes0 dialogueContent)))
                && negb (negb (bool_decide (chatHistory0 = [])))) eqn:Hnone.
      - exfalso. apply andb_true_iff in Hnone as [[H1 H2]%andb_true_iff H3].
        apply negb_true_iff in H1, H2. apply negb_true_iff, negb_false_iff in H3.
        apply bool_decide_eq_true in H3. destruct Hany as [?|[?|?]]; congruence.
      - run. rewrite lookup_insert_eq. eexists. split; [reflexivity|]. done. }
    destruct (restoreFromCache_shows tab entry later Hentry)
      as (Ho & _ & _ & _ & Hsq & Hsd & Hsc & _ & Hlog).
    rewrite Ho, Hsq, Hsd, Hsc, Hq, Hd, Hc, Hlog.
    split; [done|]. split; [|split; [|split; [|done]]].
    + destruct (hasChildNodes (shown (boxes w quizContent))) eqn:H; [by rewrite H|done].
    + destruct (hasChildNodes (shown (boxes w dialogueContent))) eqn:H; [by rewrite H|done].
    + case_bool_decide as Hch; [by rewrite Hch|done].
Qed.

(** A quiz shown on tab 1 comes back when the tab is restored. *)
Lemma quiz_dialogue_chat_round_trip_witness :
  shown (boxes (after (restoreFromCache 1)
                  (after (saveCurrentTabQuizChat (Some 1%Z))
                     (after (renderQuiz (js "Q1: Who?")) Scenario.onTab1)))
               quizContent)
  = QuizOf (js "Q1: Who?").
Proof.
  refine (proj1 (proj2 (proj2 (quiz_dialogue_chat_round_trip 1
            (after (renderQuiz (js "Q1: Who?")) Scenario.onTab1) _ _ eq_refl) _))).
  - discriminate.
  - by left.
Defined.

(** X18.  A TL;DR that succeeds at the first attempt: with page data
    at hand, a live current tab, a summarizer that can be created and
    that answers the text of the page with a non-empty summary, the
    handler ends normally, the box shows the summary and keeps it as
    its raw text, the summarizer has been created, asked once for the
    whole text and destroyed, and the entry of the current tab holds
    the summary while the other entries are as they were; restoring
    the tab from the cache then shows the same summary again. *)
Theorem tldr_success_is_cached (E : env) (w : world) (page : pageData) (tab : Z)
    (summary : jsstring) :
  generating w TLDR = false →
  extractedPageData w = Some page →
  currentTabId w = Some tab → tab ≠ 0%Z →
  createResponse E (sessions w) = None →
  summarizeResponse E (sessions w) (text page) = Ok (Some summary) →
  truthy summary = true →
  outcome (handleGenerateTldr E) w = Ok tt ∧
  boxes (after (handleGenerateTldr E) w) tldrContent
  = Elem (MarkdownOf summary) (Some summary) ∧
  newEvents (handleGenerateTldr E) w = attemptTrace (sessions w) (text page) ∧
  cTldr <$> tabCache (after (handleGenerateTldr E) w) !! tab = Some (Some summary) ∧
  (∀ other, other ≠ tab →
     tabCache (after (handleGenerateTldr E) w) !! other = tabCache w !! other) ∧
  shown (boxes (after (restoreFromCache tab) (after (handleGenerateTldr E) w)) tldrContent)
  = MarkdownOf summary.
Proof.
  intros Hg Hp Hcur Htab Hc Hs Ht.
  assert (outcome (handleGenerateTldr E) w = Ok tt ∧
          boxes (after (handleGenerateTldr E) w) tldrContent
          = Elem (MarkdownOf summary) (Some summary) ∧
          log (after (handleGenerateTldr E) w)
          = log w ++ attemptTrace (sessions w) (text page) ∧
          cTldr <$> tabCache (after (handleGenerateTldr E) w) !! tab = Some (Some summary) ∧
          (∀ other, other ≠ tab →
             tabCache (after (handleGenerateTldr E) w) !! other = tabCache w !! other))
    as (Ho & Hb & Hl & Hentry & Hother).
  { destruct w. cbn in Hg, Hp, Hcur, Hc, Hs. subst.
    run. rewrite Hg. run. rewrite ?fn_lookup_insert. run.
    unfold runSummarizer, attempts. cbn [app runAttempts]. run. rewrite Hc. run.
    rewrite Hs. run. rewrite Ht. run.
    destruct (Z.eqb_spec tab 0) as [|_]; [done|]. run.
    rewrite ?fn_lookup_insert, <- ?app_assoc. repeat split; try done.
    - rewrite lookup_insert_eq. by destruct (tabCache0 !! tab).
    - intros other Hne. by rewrite lookup_insert_ne. }
  split; [done|]. split; [done|]. split; [by apply newEvents_app|].
  split; [done|]. split; [done|].
  destruct (tabCache (after (handleGenerateTldr E) w) !! tab) as [entry|] eqn:He; [|done].
  injection Hentry as Htl.
  destruct (restoreFromCache_shows tab entry _ He) as (_ & _ & -> & _).
  rewrite Htl. cbn [orNull]. by rewrite Ht.
Qed.

(** The example browser on the example page: the summary [A] is shown
    and cached under tab 1. *)
Lemma tldr_success_is_cached_witness :
  cTldr <$> tabCache (after (handleGenerateTldr Scenario.willing) Scenario.onTab1) !! 1%Z
  = Some (Some (js "A")).
Proof.
  refine (proj1 (proj2 (proj2 (proj2 (tldr_success_is_cached Scenario.willing Scenario.onTab1
            Scenario.article 1 (js "A") _ _ _ _ _ _ _))))); try reflexivity.
  discriminate.
Defined.

(** ** The repair of importance tags *)

Section RepairFacts.
Variables (words : list jsstring) (replacement : jsstring).

Lemma replaceBracketedFrom_skip s : ∀ k,
  (k ≤ length s)%nat →
  replaceBracketedFrom words replacement k s = replaceBracketed words replacement (drop k s).
Proof.
  induction s as [|c s IH]; intros k Hk.
  - by destruct k.
  - destruct k as [|k]; [done|]. cbn [replaceBracketedFrom drop]. apply IH. cbn in Hk. lia.
Qed.

(** A text without an opening bracket is left as it is. *)
Lemma replaceBracketed_plain s :
  LBRACKET ∉ s → replaceBracketed words replacement s = s.
Proof.
  unfold replaceBracketed. induction s as [|c s IH]; intros Hs; [done|].
  apply not_elem_of_cons in Hs as [Hc Hs].
  cbn [replaceBracketedFrom bracketedAt].
  destruct (N.eqb_spec c LBRACKET); [congruence|]. by rewrite IH.
Qed.

Lemma replaceBracketed_prefix p s :
  LBRACKET ∉ p →
  replaceBracketed words replacement (p ++ s) = p ++ replaceBracketed words replacement s.
Proof.
  unfold replaceBracketed. induction p as [|c p IH]; intros Hp; [done|].
  apply not_elem_of_cons in Hp as [Hc Hp].
  cbn [app replaceBracketedFrom bracketedAt].
  destruct (N.eqb_spec c LBRACKET); [congruence|]. by rewrite IH.
Qed.

Lemma upper_elem c w : c ∈ w → isLowerAscii c = false → c ∈ toUpperCaseAscii w.
Proof.
  intros Hc Hl. unfold toUpperCaseAscii. apply list_elem_of_fmap. exists c.
  split; [|done]. unfold upperUnit. by rewrite Hl.
Qed.

Lemma upper_bracket c : upperUnit c = RBRACKET → c = RBRACKET.
Proof.
  unfold upperUnit, isLowerAscii, RBRACKET.
  destruct (N.leb_spec 97 c), (N.leb_spec c 122); cbn [andb]; lia.
Qed.

(** Between brackets, a word of the pattern matches exactly when it is
    the text between the brackets up to the case of ASCII letters. *)
Lemma word_matches v w q :
  RBRACKET ∉ w → RBRACKET ∉ toUpperCaseAscii v →
  bool_decide (toUpperCaseAscii (take (length v) (w ++ RBRACKET :: q)) = toUpperCaseAscii v)
  && bool_decide (take 1 (drop (length v) (w ++ RBRACKET :: q)) = [RBRACKET])
  = bool_decide (toUpperCaseAscii v = toUpperCaseAscii w).
Proof.
  intros Hw Hv.
  destruct (Nat.lt_trichotomy (length v) (length w)) as [Hlt|[Heq|Hgt]].
  - rewrite (bool_decide_eq_false_2 (_ = toUpperCaseAscii w)).
    2: { intros H. apply (f_equal length) in H. unfold toUpperCaseAscii in H.
         rewrite !length_fmap in H. lia. }
    apply andb_false_iff. right. apply bool_decide_eq_false_2.
    rewrite drop_app_le by lia.
    destruct (drop (length v) w) as [|x t] eqn:Hd.
    { apply (f_equal length) in Hd. rewrite length_drop in Hd. cbn in Hd. lia. }
    cbn. intros [= ->]. apply Hw.
    rewrite <- (take_drop (length v) w), Hd. apply elem_of_app. right. left.
  - rewrite Heq, take_app_length, drop_app_length. cbn [take].
    rewrite (bool_decide_eq_true_2 ([RBRACKET] = [RBRACKET])) by done. rewrite andb_true_r.
    apply bool_decide_ext. split; congruence.
  - rewrite (bool_decide_eq_false_2 (_ = toUpperCaseAscii w)).
    2: { intros H. apply (f_equal length) in H. unfold toUpperCaseAscii in H.
         rewrite !length_fmap in H. lia. }
    apply andb_false_iff. left. apply bool_decide_eq_false_2. intros H.
    apply Hv. rewrite <- H. unfold toUpperCaseAscii.
    apply list_elem_of_fmap. exists RBRACKET. split; [done|].
    rewrite take_app_ge by lia.
    apply elem_of_app. right.
    destruct (length v - length w)%nat as [|n] eqn:Hn; [lia|]. cbn. left.
Qed.

Lemma bracketedAt_upper w q :
  RBRACKET ∉ w → (∀ v, v ∈ words → RBRACKET ∉ toUpperCaseAscii v) →
  bracketedAt words (LBRACKET :: w ++ RBRACKET :: q)
  = (λ v, (length v + 2)%nat) <$>
      List.find (λ v, bool_decide (toUpperCaseAscii v = toUpperCaseAscii w)) words.
Proof.
  intros Hw Hwords. unfold bracketedAt. rewrite N.eqb_refl. f_equal.
  induction words as [|v ws IH]; [done|]. cbn [List.find].
  rewrite word_matches by (done || apply Hwords; left).
  destruct (bool_decide (toUpperCaseAscii v = toUpperCaseAscii w)); [done|].
  apply IH. intros x Hx. apply Hwords. by right.
Qed.

(** One pass over a text with a single bracketed tag. *)
Lemma replaceBracketed_tag p w q :
  LBRACKET ∉ p → LBRACKET ∉ w → RBRACKET ∉ w → LBRACKET ∉ q →
  (∀ v, v ∈ words → RBRACKET ∉ toUpperCaseAscii v) →
  replaceBracketed words replacement (p ++ LBRACKET :: w ++ RBRACKET :: q)
  = p ++ (if hits (toUpperCaseAscii w) words
          then replacement else LBRACKET :: w ++ [RBRACKET]) ++ q.
Proof.
  intros Hp Hw1 Hw2 Hq Hwords. rewrite replaceBracketed_prefix by done. f_equal.
  unfold replaceBracketed at 1.
  change (replaceBracketedFrom words replacement 0 (LBRACKET :: w ++ RBRACKET :: q))
    with (match bracketedAt words (LBRACKET :: w ++ RBRACKET :: q) with
          | Some len => replacement
                        ++ replaceBracketedFrom words replacement (len - 1) (w ++ RBRACKET :: q)
          | None => LBRACKET
                    :: replaceBracketedFrom words replacement 0 (w ++ RBRACKET :: q)
          end).
  rewrite bracketedAt_upper by done.
  destruct (List.find _ words) as [v|] eqn:Hf.
  - apply List.find_some in Hf as [Hin Hv].
    assert (hits (toUpperCaseAscii w) words = true)
      as -> by (apply existsb_exists; eauto).
    cbn [fmap option_fmap option_map]. f_equal.
    apply bool_decide_eq_true in Hv. apply (f_equal length) in Hv.
    unfold toUpperCaseAscii in Hv. rewrite !length_fmap in Hv.
    rewrite replaceBracketedFrom_skip by (rewrite length_app; cbn; lia).
    replace (length v + 2 - 1)%nat with (length w + 1)%nat by lia.
    replace (w ++ RBRACKET :: q) with ((w ++ [RBRACKET]) ++ q) by by rewrite <- app_assoc.
    replace (length w + 1)%nat with (length (w ++ [RBRACKET])) by (rewrite length_app; done).
    rewrite drop_app_length. by apply replaceBracketed_plain.
  - assert (hits (toUpperCaseAscii w) words = false) as ->.
    { unfold hits. destruct (existsb _ words) eqn:He; [|done].
      apply existsb_exists in He as (x & Hx & Hpx).
      by rewrite (List.find_none _ _ Hf x Hx) in Hpx. }
    cbn [fmap option_fmap option_map]. cbn [app]. f_equal.
    fold (replaceBracketed words replacement (w ++ RBRACKET :: q)).
    rewrite replaceBracketed_plain; [by rewrite <- app_assoc|].
    intros [H|H]%elem_of_app; [done|]. apply elem_of_cons in H as [H|H]; [done|done].
Qed.

End RepairFacts.

Section RepairTags.

Lemma variant_brackets v w :
  toUpperCaseAscii w = toUpperCaseAscii v →
  LBRACKET ∉ toUpperCaseAscii v → RBRACKET ∉ toUpperCaseAscii v →
  (LBRACKET ∉ w) ∧ (RBRACKET ∉ w).
Proof.
  intros Hw Hl Hr. rewrite <- Hw in Hl, Hr.
  split; intros H; [apply Hl|apply Hr]; by apply upper_elem.
Qed.

Lemma fold_repairStep passes : ∀ w,
  fold_left repairStep passes w = default w (repaired passes (toUpperCaseAscii w)).
Proof.
  induction passes as [|pass later IH]; intros w; [done|].
  cbn [fold_left repaired]. unfold repairStep at 2.
  destruct (hits (toUpperCaseAscii w) pass.1); [done|apply IH].
Qed.

(** The passes over a text with a single bracketed tag. *)
Lemma passes_tag before rest passes : ∀ w,
  LBRACKET ∉ before → LBRACKET ∉ rest → LBRACKET ∉ w → RBRACKET ∉ w →
  Forall (λ pass, (∀ v, v ∈ pass.1 → RBRACKET ∉ toUpperCaseAscii v)
                  ∧ (LBRACKET ∉ pass.2) ∧ (RBRACKET ∉ pass.2)) passes →
  fold_left (λ t pass, replaceBracketed pass.1 (LBRACKET :: pass.2 ++ [RBRACKET]) t) passes
            (before ++ LBRACKET :: w ++ RBRACKET :: rest)
  = before ++ LBRACKET :: fold_left repairStep passes w ++ RBRACKET :: rest.
Proof.
  intros w Hb Hr. revert w.
  induction passes as [|pass later IH]; intros w Hw1 Hw2 Hp; [done|].
  inversion Hp as [|? ? (Hwords & Hr1 & Hr2) Hlater]; subst.
  cbn [fold_left]. rewrite replaceBracketed_tag by done. unfold repairStep at 2.
  destruct (hits (toUpperCaseAscii w) pass.1).
  - cbn [app]. rewrite <- app_assoc. cbn [app]. by apply IH.
  - cbn [app]. rewrite <- app_assoc. cbn [app]. by apply IH.
Qed.

Lemma repairImportanceTags_passes text :
  repairImportanceTags text
  = fold_left (λ t pass, replaceBracketed pass.1 (LBRACKET :: pass.2 ++ [RBRACKET]) t)
              repairPasses text.
Proof. reflexivity. Qed.

End RepairTags.

(** X19.  [repairImportanceTags] brings a localised or differently
    cased importance tag back to its canonical form: in a text with one
    bracketed tag, whose word is one of the Japanese, English or
    Spanish variants of the function in any letter case, the tag is
    replaced by [[HIGH]], [[MEDIUM]] or [[LOW]] and the text around it
    is left as it is.  A text without an opening bracket is returned as
    it is. *)
Theorem repairImportanceTags_canonical (before word rest variant canonical : jsstring) :
  (variant, canonical) ∈ tagVariants →
  toUpperCaseAscii word = toUpperCaseAscii variant →
  LBRACKET ∉ before → LBRACKET ∉ rest →
  repairImportanceTags (before ++ [LBRACKET] ++ word ++ [RBRACKET] ++ rest)
  = before ++ canonical ++ rest ∧
  repairImportanceTags before = before.
Proof.
  intros Hv Hw Hb Hr. split.
  2: { unfold repairImportanceTags. by rewrite !(replaceBracketed_plain _ _ before). }
  assert (forallb (λ vc : jsstring * jsstring,
            forallb (λ c, negb (c =? LBRACKET) && negb (c =? RBRACKET)) (toUpperCaseAscii vc.1)
            && match repaired repairPasses (toUpperCaseAscii vc.1) with
               | Some inner => bool_decide (LBRACKET :: inner ++ [RBRACKET] = vc.2)
               | None => false
               end) tagVariants = true) as Hall by (vm_compute; reflexivity).
  rewrite forallb_forall in Hall. apply list_elem_of_In, Hall in Hv.
  cbn [fst snd] in Hv. apply andb_true_iff in Hv as [Hbr Hrep].
  rewrite forallb_forall in Hbr.
  destruct (variant_brackets variant word Hw) as [Hw1 Hw2].
  { intros H%list_elem_of_In%Hbr. by rewrite N.eqb_refl in H. }
  { intros H%list_elem_of_In%Hbr. rewrite N.eqb_refl in H. by destruct (_ =? _). }
  rewrite repairImportanceTags_passes. cbn [app].
  rewrite passes_tag; try done.
  - rewrite fold_repairStep, Hw.
    destruct (repaired repairPasses (toUpperCaseAscii variant)) as [inner|]; [|done].
    apply bool_decide_eq_true in Hrep as <-. cbn [default from_option id app].
    by rewrite <- app_assoc.
  - assert (forallb (λ pass : list jsstring * jsstring,
              forallb (λ v, forallb (λ c, negb (c =? RBRACKET)) (toUpperCaseAscii v)) pass.1
              && forallb (λ c, negb (c =? LBRACKET) && negb (c =? RBRACKET)) pass.2)
              repairPasses = true) as Hp by (vm_compute; reflexivity).
    rewrite forallb_forall in Hp. apply List.Forall_forall. intros pass Hpass%Hp.
    apply andb_true_iff in Hpass as [H1 H2]. rewrite forallb_forall in H1, H2.
    split; [|split].
    + intros v Hin%list_elem_of_In%H1 Hc%list_elem_of_In. rewrite forallb_forall in Hin.
      apply Hin in Hc. by rewrite N.eqb_refl in Hc.
    + intros H%list_elem_of_In%H2. by rewrite N.eqb_refl in H.
    + intros H%list_elem_of_In%H2. rewrite N.eqb_refl in H. by destruct (_ =? _).
Qed.

(** The tag [[高]] becomes [[HIGH]], and so does [[high]]. *)
Lemma repairImportanceTags_canonical_witness :
  repairImportanceTags (js "- " ++ [LBRACKET] ++ js "高" ++ [RBRACKET] ++ js " point")
  = js "- " ++ js "[HIGH]" ++ js " point" ∧
  repairImportanceTags (js "- " ++ [LBRACKET] ++ js "high" ++ [RBRACKET] ++ js " point")
  = js "- " ++ js "[HIGH]" ++ js " point".
Proof.
  assert ((LBRACKET ∉ js "- ") ∧ (LBRACKET ∉ js " point")) as [H1 H2].
  { split; vm_compute; intros H; repeat (apply elem_of_cons in H as [H|H]; [discriminate|]);
      by apply elem_of_nil in H. }
  split.
  - refine (proj1 (repairImportanceTags_canonical _ (js "高") _ (js "高") _ _ eq_refl H1 H2)).
    left.
  - refine (proj1 (repairImportanceTags_canonical _ (js "high") _ (js "High") _ _ eq_refl H1 H2)).
    do 5 right. left.
Defined.

(** ** What the answer bubble shows *)

Section ChatBubble.
Variable E : env.

Lemma onBubble_last ref (f g : elem → elem) (h : list bubble) :
  (∀ e, g (f e) = g e) →
  onBubble ref g <$> (onBubble ref f <$> h) = onBubble ref g <$> h.
Proof.
  intros Hfg. rewrite <- list_fmap_compose. apply list_fmap_ext. intros i b _.
  destruct b as [q|[r|] e]; cbn; try done.
  case_bool_decide as Hr; cbn; [|by rewrite bool_decide_eq_false_2].
  by rewrite bool_decide_eq_true_2, Hfg.
Qed.

Lemma forAwait_bubble ref cs ending : ∀ a w,
  outcome (forAwait (responseContent ref) cs ending a) w
  = match ending with
    | Some err => Thrown err
    | None => Ok (fold_left onChunk cs a)
    end ∧
  after (forAwait (responseContent ref) cs ending a) w
  = match cs with
    | [] => w
    | _ => set_chatHistory
             (onBubble ref (λ _, Elem (MarkdownOf (fullText (fold_left onChunk cs a)))
                                      (Some (fullText (fold_left onChunk cs a))))
              <$> chatHistory w) w
    end.
Proof.
  induction cs as [|c cs IH]; intros a w.
  - cbn [forAwait fold_left]. by destruct ending.
  - unfold outcome, after in *. rewrite forAwait_cons. cbn [fold_left].
    match goal with |- context [forAwait _ cs ending ?A ?W] =>
      destruct (IH A W) as [Ho Ha] end.
    rewrite Ho, Ha. split; [done|]. destruct cs as [|c' cs]; [done|].
    destruct w. cbn. by rewrite onBubble_last.
Qed.

End ChatBubble.

(** X20.  What the answer bubble of the chat holds in the end when
    English is the output language, page data are at hand and the
    session is created.  If the stream ends normally after at least one
    chunk, the bubble shows the text accumulated over the chunks.  If
    it ends normally without any chunk, the bubble still shows the
    loading indicator it was created with: nothing replaces it.  If the
    stream is cancelled, the bubble is removed and the chat ends with
    the bubble of the question. *)
Theorem chat_answer_bubble (E : env) (w : world) (page : pageData)
    (cs : list jsstring) (ending : option error) :
  hasLanguageModel E = true →
  generating w CHAT = false →
  trim (customPromptInput w) ≠ [] →
  extractedPageData w = Some page →
  langSelect w = js "en" →
  createResponse E (sessions w) = None →
  (∀ fullPrompt, promptStreamingResponse E (sessions w) fullPrompt = Ok (Stream cs ending)) →
  (ending = None →
     ∃ earlier,
       chatHistory (after (handleCustomPrompt E) w)
       = earlier ++ [AssistantBubble (Some (nodes w))
                       match cs with
                       | [] => Elem SectionLoading None
                       | _ => Elem (MarkdownOf (streamedText cs)) (Some (streamedText cs))
                       end]) ∧
  (∀ err, ending = Some err → isAbortedByNameOrWording err = true →
     ∃ earlier,
       chatHistory (after (handleCustomPrompt E) w)
       = earlier ++ [UserBubble (trim (customPromptInput w))]).
Proof.
  intros Hm Hg Ht Hp Hl Hc Hs.
  destruct w. cbn [generating customPromptInput nodes chatHistory extractedPageData
                   langSelect sessions] in *. subst.
  unfold handleCustomPrompt, guardCustomPrompt, customPromptBody, streamedText, consume.
  rewrite Hm. cbn [negb]. run. rewrite Hg.
  destruct (trim customPromptInput0) as [|c q] eqn:Hq; [done|]. cbn [truthy negb]. run.
  rewrite ?fn_lookup_insert. run.
  change (bool_decide (getOutputLanguage (js "en") (pageLangOf page) ≠ js "en")) with false.
  cbn [andb]. run. rewrite Hc. run. rewrite Hs. run. cbn [chunks failure].
  match goal with |- context [forAwait ?t cs ending ?a ?W] =>
    destruct (forAwait_bubble (nodes0) cs ending a W) as [Ho Ha];
    unfold outcome, after in Ho, Ha;
    destruct (forAwait t cs ending a W) as [r w'] end.
  cbn [fst snd] in Ho, Ha. subst r w'. split.
  - intros ->. destruct cs as [|c0 cs]; run.
    all: rewrite <- ?app_assoc; cbn [app]; rewrite <- ?list_fmap_compose, ?fmap_app.
    all: cbn [fmap list_fmap compose].
    all: repeat (cbn [onBubble]; rewrite bool_decide_eq_true_2 by done).
    all: eexists (_ ++ [_]); rewrite <- app_assoc; reflexivity.
  - intros err -> Herr. destruct cs as [|c0 cs]; run; rewrite Herr; run.
    all: rewrite <- ?app_assoc; cbn [app]; rewrite <- ?list_fmap_compose, ?fmap_app.
    all: rewrite list.filter_app.
    all: cbn [fmap list_fmap compose].
    all: repeat (cbn [onBubble]; rewrite bool_decide_eq_true_2 by done).
    all: rewrite (list.filter_cons_True _ (UserBubble _)) by done.
    all: rewrite list.filter_cons_False, list.filter_nil
           by (cbn [isBubble]; rewrite bool_decide_eq_true_2; done).
    all: by eexists.
Qed.

(** The question [Why?] on the example page, answered with the two
    chunks [Hello] and [Hello world]. *)
Lemma chat_answer_bubble_witness :
  ∃ earlier,
    chatHistory (after (handleCustomPrompt Scenario.willing) Scenario.asking)
    = earlier ++ [AssistantBubble (Some 0%nat)
                    (Elem (MarkdownOf (js "Hello world")) (Some (js "Hello world")))].
Proof.
  refine (proj1 (chat_answer_bubble Scenario.willing Scenario.asking Scenario.article
                   [js "Hello"; js "Hello world"] None _ _ _ _ _ _ _) eq_refl);
    try reflexivity.
  vm_compute. discriminate.
Defined.
